(** * Legacy notification guard v4 and the join-session redirect

    A shallow embedding of the browser scripts of this repository:

    - the guard script ([ensureStub], [safeWrap], [wrapLegacyFunctions],
      the mutation observer, the patched [querySelector], the click guard,
      [init] and the [console.error] override);
    - the redirect handler [handleJoinSession] and the query-string reading
      of the meeting page.

    The document is a forest of element and text nodes; a node reference is
    the path of child indices that leads to the node.  Script state that the
    source keeps in closure variables ([stubEnsured], [observer]) is threaded
    explicitly. *)

From Stdlib Require Import Ascii String ZArith Lia.
From stdpp Require Import gmap strings list.

Open Scope string_scope.
Open Scope list_scope.

(** ** Strings *)

Module Str.

(** [String.prototype.includes]: [needle] occurs somewhere in [hay]. *)
Fixpoint includes (needle hay : string) : bool :=
  String.prefix needle hay ||
  match hay with
  | EmptyString => false
  | String _ rest => includes needle rest
  end.

(** ASCII white space: tab, line feed, form feed, carriage return, space. *)
Definition is_space (c : ascii) : bool :=
  let n := nat_of_ascii c in
  Nat.eqb n 9 || Nat.eqb n 10 || Nat.eqb n 12 || Nat.eqb n 13 || Nat.eqb n 32.

(** [Array.prototype.join]. *)
Fixpoint join (sep : string) (l : list string) : string :=
  match l with
  | [] => ""
  | [x] => x
  | x :: rest => x +:+ sep +:+ join sep rest
  end.

Definition snoc (s : string) (c : ascii) : string := s +:+ String c "".

(** The space-separated tokens of a string (a class attribute). *)
Fixpoint tokens (cur s : string) : list string :=
  match s with
  | EmptyString => match cur with EmptyString => [] | _ => [cur] end
  | String c rest =>
      if is_space c
      then match cur with
           | EmptyString => tokens "" rest
           | _ => cur :: tokens "" rest
           end
      else tokens (snoc cur c) rest
  end.

End Str.

(** ** The document tree *)

Module Dom.

(** What the scripts read and write on an element. [tagName] is the
    lower-case local name, [id] is the empty string when the element has
    none, [attributes] holds the attributes other than [id], [class] and
    [style], [href] is the resolved [href] property of a link ([None] when
    the property is undefined). *)
Record attrs := Attrs {
  tagName : string;
  id : string;
  classList : list string;
  cssText : string;
  attributes : list (string * string);
  href : option string
}.

#[local] Unset Elimination Schemes.
Inductive node :=
| Element (a : attrs) (childNodes : list node)
| Text (data : string).
#[local] Set Elimination Schemes.

(** Induction over a tree with the hypothesis for every child. *)
Fixpoint node_induction (P : node -> Prop)
  (HE : forall a ks, Forall P ks -> P (Element a ks))
  (HT : forall s, P (Text s)) (n : node) : P n :=
  match n with
  | Element a ks =>
      HE a ks ((fix go (l : list node) : Forall P l :=
                  match l with
                  | [] => @List.Forall_nil node P
                  | k :: l' => @List.Forall_cons node P k l' (node_induction P HE HT k) (go l')
                  end) ks)
  | Text s => HT s
  end.

(** A path of child indices; the first index selects a tree of the forest. *)
Definition path := list nat.

(** The children of the [document] node, and the trees that are not (or no
    longer) connected to it. *)
Record dom := Dom {
  document : list node;
  detached : list node
}.

Inductive space := InDocument | Detached.

Record nref := NRef { ref_space : space; ref_path : path }.

#[global] Instance space_eq_dec : EqDecision space.
Proof. solve_decision. Defined.

#[global] Instance nref_eq_dec : EqDecision nref.
Proof. solve_decision. Defined.

Definition forest (d : dom) (s : space) : list node :=
  match s with InDocument => document d | Detached => detached d end.

Definition set_forest (d : dom) (s : space) (f : list node) : dom :=
  match s with
  | InDocument => Dom f (detached d)
  | Detached => Dom (document d) f
  end.

Definition children (n : node) : list node :=
  match n with Element _ ks => ks | Text _ => [] end.

Definition attrs_of (n : node) : option attrs :=
  match n with Element a _ => Some a | Text _ => None end.

(** Node at a path below [n] (the empty path is [n] itself). *)
Fixpoint get_at (p : path) (n : node) : option node :=
  match p with
  | [] => Some n
  | i :: p' =>
      match children n !! i with
      | Some k => get_at p' k
      | None => None
      end
  end.

Definition fget (p : path) (f : list node) : option node :=
  match p with
  | [] => None
  | i :: p' => match f !! i with Some n => get_at p' n | None => None end
  end.

(** In-place update of the node at a path. *)
Fixpoint update_at (p : path) (g : node -> node) (n : node) : node :=
  match p with
  | [] => g n
  | i :: p' =>
      match n with
      | Element a ks => Element a (alter (update_at p' g) i ks)
      | Text _ => n
      end
  end.

Definition fupdate (p : path) (g : node -> node) (f : list node) : list node :=
  match p with
  | [] => f
  | i :: p' => alter (update_at p' g) i f
  end.

Definition deref (d : dom) (r : nref) : option node :=
  fget (ref_path r) (forest d (ref_space r)).

Definition update (d : dom) (r : nref) (g : node -> node) : dom :=
  set_forest d (ref_space r) (fupdate (ref_path r) g (forest d (ref_space r))).

Definition child_ref (r : nref) (i : nat) : nref :=
  NRef (ref_space r) (ref_path r ++ [i]).

Definition below (r : nref) (p : path) : nref :=
  NRef (ref_space r) (ref_path r ++ p).

(** Attributes of the proper ancestors of the node at [p], nearest first;
    [acc] holds the ancestors of [n]. *)
Fixpoint ancestors_at (p : path) (n : node) (acc : list attrs) : list attrs :=
  match p with
  | [] => acc
  | i :: p' =>
      match n with
      | Element a ks =>
          match ks !! i with
          | Some k => ancestors_at p' k (a :: acc)
          | None => acc
          end
      | Text _ => acc
      end
  end.

Definition fancestors (p : path) (f : list node) : list attrs :=
  match p with
  | [] => []
  | i :: p' => match f !! i with Some n => ancestors_at p' n [] | None => [] end
  end.

(** *** Tree order search *)

(** First tree of [ks] (numbered from [i]) in which [find] succeeds. *)
Fixpoint first_in (find : node -> option path) (ks : list node) (i : nat)
  : option path :=
  match ks with
  | [] => None
  | k :: ks' =>
      match find k with
      | Some p => Some (i :: p)
      | None => first_in find ks' (S i)
      end
  end.

(** First element in tree order, [n] included, accepted by [m]; [m] sees
    the attributes of the ancestors (nearest first) and of the element. *)
Fixpoint first_match (m : list attrs -> attrs -> bool) (anc : list attrs)
  (n : node) : option path :=
  match n with
  | Text _ => None
  | Element a ks =>
      if m anc a then Some []
      else first_in (first_match m (a :: anc)) ks 0
  end.

(** All the elements accepted by [m], in tree order. *)
Fixpoint all_in (find : node -> list path) (ks : list node) (i : nat)
  : list path :=
  match ks with
  | [] => []
  | k :: ks' => map (cons i) (find k) ++ all_in find ks' (S i)
  end.

Fixpoint all_matches (m : list attrs -> attrs -> bool) (anc : list attrs)
  (n : node) : list path :=
  match n with
  | Text _ => []
  | Element a ks =>
      (if m anc a then [[]] else []) ++ all_in (all_matches m (a :: anc)) ks 0
  end.

(** Number of nodes of a tree, of a forest. *)
Fixpoint size (n : node) : nat :=
  match n with
  | Text _ => 1
  | Element _ ks => S (list_sum (map size ks))
  end.

Definition fsize (f : list node) : nat := list_sum (map size f).

(** [Node.textContent]: the text of the descendants, in tree order. *)
Fixpoint textContent (n : node) : string :=
  match n with
  | Text s => s
  | Element _ ks => String.concat "" (map textContent ks)
  end.

End Dom.

(** ** Selectors

    The fragment of CSS selectors the scripts use: compounds of a type
    selector, [#id], [.class], [[attr]] and [[attr=value]], joined by the
    descendant and the child combinator, in comma-separated lists.  Of a
    text outside this fragment the model says that it is a syntax error,
    also where a browser reads it; an attribute selector looks among the
    attributes other than [id], [class] and [style].  The properties
    speak of the selectors of the scripts, and of any other text only
    through what the lookup of the browser answers for it. *)

Module Css.
Import Dom.

Inductive simple :=
| STag (t : string)
| SUniversal
| SId (i : string)
| SClass (c : string)
| SAttr (name : string)
| SAttrEq (name value : string).

Inductive combinator := Descendant | Child.

(** A complex selector: the compound the matched element must satisfy, and
    the compounds to its left, nearest first, each with the combinator that
    follows it. *)
Record complex := Complex {
  subject : list simple;
  context : list (combinator * list simple)
}.

Definition selector := list complex.

Fixpoint assoc (k : string) (l : list (string * string)) : option string :=
  match l with
  | [] => None
  | (k', v) :: l' => if String.eqb k k' then Some v else assoc k l'
  end.

Definition matches_simple (a : attrs) (s : simple) : bool :=
  match s with
  | STag t => String.eqb t (tagName a)
  | SUniversal => true
  | SId i => String.eqb i (id a)
  | SClass c => existsb (String.eqb c) (classList a)
  | SAttr n => match assoc n (attributes a) with Some _ => true | None => false end
  | SAttrEq n v =>
      match assoc n (attributes a) with
      | Some v' => String.eqb v v'
      | None => false
      end
  end.

Definition matches_compound (a : attrs) (c : list simple) : bool :=
  forallb (matches_simple a) c.

Fixpoint matches_context (ctx : list (combinator * list simple))
  (anc : list attrs) : bool :=
  match ctx with
  | [] => true
  | (Child, c) :: ctx' =>
      match anc with
      | [] => false
      | p :: anc' => matches_compound p c && matches_context ctx' anc'
      end
  | (Descendant, c) :: ctx' =>
      (fix scan (anc : list attrs) : bool :=
         match anc with
         | [] => false
         | p :: anc' =>
             (matches_compound p c && matches_context ctx' anc') || scan anc'
         end) anc
  end.

Definition matches_complex (anc : list attrs) (a : attrs) (x : complex) : bool :=
  matches_compound a (subject x) && matches_context (context x) anc.

(** [Element.matches] once the selector text is parsed. *)
Definition matches_selector (sel : selector) (anc : list attrs) (a : attrs)
  : bool :=
  existsb (matches_complex anc a) sel.

(** *** Reading a selector *)

Inductive token :=
| TName (s : string)
| THash
| TDot
| TStar
| TGt
| TComma
| TSpace
| TAttr (name : string) (value : option string).

Definition is_name_char (c : ascii) : bool :=
  let n := nat_of_ascii c in
  (Nat.leb 48 n && Nat.leb n 57) || (Nat.leb 65 n && Nat.leb n 90) ||
  (Nat.leb 97 n && Nat.leb n 122) || Nat.eqb n 45 || Nat.eqb n 95.

Definition is_quote (c : ascii) : bool :=
  Nat.eqb (nat_of_ascii c) 34 || Nat.eqb (nat_of_ascii c) 39.

Inductive lex_mode :=
| LPlain
| LName (acc : string)
| LAttrName (acc : string)
| LAttrValue (name acc : string)
| LAttrQuoted (name acc : string) (q : ascii)
| LAttrClose (name value : string).

Definition lex_char (c : ascii) : option (list token * lex_mode) :=
  if is_name_char c then Some ([], LName (String c ""))
  else if Str.is_space c then Some ([TSpace], LPlain)
  else match nat_of_ascii c with
       | 35 => Some ([THash], LPlain)
       | 46 => Some ([TDot], LPlain)
       | 42 => Some ([TStar], LPlain)
       | 62 => Some ([TGt], LPlain)
       | 44 => Some ([TComma], LPlain)
       | 91 => Some ([], LAttrName "")
       | _ => None
       end.

Fixpoint lex (mode : lex_mode) (s : string) : option (list token) :=
  match s with
  | EmptyString =>
      match mode with
      | LPlain => Some []
      | LName acc => Some [TName acc]
      | _ => None
      end
  | String c rest =>
      match mode with
      | LPlain =>
          match lex_char c with
          | Some (ts, mode') => option_map (app ts) (lex mode' rest)
          | None => None
          end
      | LName acc =>
          if is_name_char c then lex (LName (Str.snoc acc c)) rest
          else
            match lex_char c with
            | Some (ts, mode') =>
                option_map (fun l => TName acc :: ts ++ l) (lex mode' rest)
            | None => None
            end
      | LAttrName acc =>
          if is_name_char c then lex (LAttrName (Str.snoc acc c)) rest
          else match nat_of_ascii c, acc with
               | _, EmptyString => None
               | 93, _ => option_map (cons (TAttr acc None)) (lex LPlain rest)
               | 61, _ => lex (LAttrValue acc "") rest
               | _, _ => None
               end
      | LAttrValue name acc =>
          if is_name_char c then lex (LAttrValue name (Str.snoc acc c)) rest
          else if is_quote c then
            match acc with
            | EmptyString => lex (LAttrQuoted name "" c) rest
            | _ => None
            end
          else match nat_of_ascii c, acc with
               | _, EmptyString => None
               | 93, _ =>
                   option_map (cons (TAttr name (Some acc))) (lex LPlain rest)
               | _, _ => None
               end
      | LAttrQuoted name acc q =>
          if Ascii.eqb c q then lex (LAttrClose name acc) rest
          else lex (LAttrQuoted name (Str.snoc acc c) q) rest
      | LAttrClose name value =>
          match nat_of_ascii c with
          | 93 => option_map (cons (TAttr name (Some value))) (lex LPlain rest)
          | _ => None
          end
      end
  end.

Inductive prefix := PNone | PHash | PDot.

(** Parser state: the complex selectors already closed, the compounds to
    the left of the current one, the current compound, the combinator seen
    since it, and a pending [#] or [.]. *)
Record pstate := PState {
  closed : list complex;
  left_ctx : list (combinator * list simple);
  current : list simple;
  gap : option combinator;
  pending : prefix
}.

(** Add a simple selector: it starts a new compound when a combinator was
    seen after a non-empty one. *)
Definition push_simple (st : pstate) (s : simple) : option pstate :=
  match gap st, current st with
  | Some g, _ :: _ =>
      Some (PState (closed st) ((g, current st) :: left_ctx st) [s] None PNone)
  | Some Child, [] => None
  | _, _ =>
      Some (PState (closed st) (left_ctx st) (current st ++ [s]) None PNone)
  end.

Definition close_complex (st : pstate) : option (list complex) :=
  match current st, gap st, pending st with
  | _ :: _, None, PNone | _ :: _, Some Descendant, PNone =>
      Some (closed st ++ [Complex (current st) (left_ctx st)])
  | _, _, _ => None
  end.

Definition parse_token (st : pstate) (t : token) : option pstate :=
  match pending st, t with
  | PHash, TName s => push_simple st (SId s)
  | PDot, TName s => push_simple st (SClass s)
  | PHash, _ | PDot, _ => None
  | PNone, TName s =>
      match gap st, current st with
      | None, _ :: _ => None
      | _, _ => push_simple st (STag s)
      end
  | PNone, TStar =>
      match gap st, current st with
      | None, _ :: _ => None
      | _, _ => push_simple st SUniversal
      end
  | PNone, THash =>
      Some (PState (closed st) (left_ctx st) (current st) (gap st) PHash)
  | PNone, TDot =>
      Some (PState (closed st) (left_ctx st) (current st) (gap st) PDot)
  | PNone, TAttr n None => push_simple st (SAttr n)
  | PNone, TAttr n (Some v) => push_simple st (SAttrEq n v)
  | PNone, TSpace =>
      match current st, gap st with
      | _ :: _, None =>
          Some (PState (closed st) (left_ctx st) (current st)
                  (Some Descendant) PNone)
      | _, _ => Some st
      end
  | PNone, TGt =>
      match current st, gap st with
      | _ :: _, None | _ :: _, Some Descendant =>
          Some (PState (closed st) (left_ctx st) (current st) (Some Child) PNone)
      | _, _ => None
      end
  | PNone, TComma =>
      match close_complex st with
      | Some cs => Some (PState cs [] [] None PNone)
      | None => None
      end
  end.

Fixpoint parse_tokens (st : pstate) (ts : list token) : option selector :=
  match ts with
  | [] => close_complex st
  | t :: ts' =>
      match parse_token st t with
      | Some st' => parse_tokens st' ts'
      | None => None
      end
  end.

(** [None] stands for the [SyntaxError] the browser raises. *)
Definition parse (text : string) : option selector :=
  match lex LPlain text with
  | Some ts => parse_tokens (PState [] [] [] None PNone) ts
  | None => None
  end.

End Css.

(** ** Values, console and the script state *)

Module Js.

(** The values that reach the console and cross the wrapped functions.
    Of a value that is none of the first five the scripts use one thing
    only, what the conversion to a string makes of it: a text ([VOther]: a
    number, an array, an object with a [toString] of its own) or an
    exception ([VUnprintable]: a symbol, an object that has neither
    [toString] nor [valueOf], an object whose [toString] throws). *)
Inductive value :=
| VUndefined
| VNull
| VBool (b : bool)
| VStr (s : string)
| VError (name message : string)
| VOther (text : string)
| VUnprintable (e : value).

Inductive completion (A : Type) :=
| Normal (a : A)
| Throw (e : value).
Arguments Normal {A} a.
Arguments Throw {A} e.

(** [ToString(v)], the conversion that [join] applies to an element.
    [Error.prototype.toString] gives the name alone when the message is
    empty and the message alone when the name is. *)
Definition to_string (v : value) : completion string :=
  match v with
  | VUndefined => Normal "undefined"
  | VNull => Normal "null"
  | VBool true => Normal "true"
  | VBool false => Normal "false"
  | VStr s => Normal s
  | VError n m =>
      Normal (if String.eqb n "" then m
              else if String.eqb m "" then n
              else n +:+ ": " +:+ m)
  | VOther t => Normal t
  | VUnprintable e => Throw e
  end.

(** The elements of [join] one after the other: [null] and [undefined]
    give the empty string, and the first conversion that throws ends the
    call. *)
Fixpoint texts (args : list value) : completion (list string) :=
  match args with
  | [] => Normal []
  | v :: rest =>
      match (match v with
             | VUndefined | VNull => Normal ""
             | _ => to_string v
             end) with
      | Normal t =>
          match texts rest with
          | Normal ts => Normal (t :: ts)
          | Throw e => Throw e
          end
      | Throw e => Throw e
      end
  end.

(** [args.join(sep)]. *)
Definition join_values (sep : string) (args : list value) : completion string :=
  match texts args with
  | Normal ts => Normal (Str.join sep ts)
  | Throw e => Throw e
  end.

Inductive level := Log | Warn | Error.

Record entry := Entry { lvl : level; args : list value }.

End Js.

Module Guard.
Import Dom Js.

Definition TAG : string := "[LegacyNotifGuard-v4]".
Definition SEL : string := "#home-header2 .container > div".
Definition HEADER_ID : string := "home-header2".

(** The document, the closure variable [stubEnsured] and what the native
    console has printed (oldest first). *)
Record state := State {
  doc : dom;
  stubEnsured : bool;
  console : list entry
}.

(** Computations that read and write the state and may throw; the state
    reached when an exception is raised is kept. *)
Definition M (A : Type) : Type := state -> completion A * state.

Definition ret {A} (a : A) : M A := fun s => (Normal a, s).

Definition throw {A} (e : value) : M A := fun s => (Throw e, s).

Definition bind {A B} (c : M A) (k : A -> M B) : M B :=
  fun s =>
    match c s with
    | (Normal a, s') => k a s'
    | (Throw e, s') => (Throw e, s')
    end.

Notation "'let!' x ':=' c 'in' k" := (bind c (fun x => k))
  (at level 10, x name, c at level 100, k at level 200).
Notation "c ';;;' k" := (bind c (fun _ => k))
  (at level 100, k at level 200, right associativity).

(** A read of the document that may throw. *)
Definition query {A} (f : dom -> completion A) : M A :=
  fun s => (f (doc s), s).

Definition console_log (args : list value) : M unit :=
  fun s => (Normal tt, State (doc s) (stubEnsured s) (console s ++ [Entry Log args])).

Definition console_warn (args : list value) : M unit :=
  fun s => (Normal tt, State (doc s) (stubEnsured s) (console s ++ [Entry Warn args])).

Definition set_stubEnsured (b : bool) : M unit :=
  fun s => (Normal tt, State (doc s) b (console s)).

Definition set_doc (d : dom) (s : state) : state :=
  State d (stubEnsured s) (console s).

(** *** The DOM interface the guard uses *)

Definition dangling : value := VError "TypeError" "not a node".

(** [document.getElementById]: the first element in tree order with that
    id; the empty id finds nothing. *)
Definition has_id (x : string) (_ : list attrs) (a : attrs) : bool :=
  String.eqb (id a) x.

Definition getElementById (x : string) (d : dom) : option nref :=
  if String.eqb x "" then None
  else option_map (NRef InDocument)
         (first_in (first_match (has_id x) []) (document d) 0).

(** [document.documentElement]: the first element child of the document. *)
Fixpoint first_element (ks : list node) (i : nat) : option nat :=
  match ks with
  | [] => None
  | Element _ _ :: _ => Some i
  | Text _ :: ks' => first_element ks' (S i)
  end.

Definition documentElement (d : dom) : option nref :=
  option_map (fun i => NRef InDocument [i]) (first_element (document d) 0).

(** [document.body]: the first [body] or [frameset] child of the [html]
    document element. *)
Definition is_body (n : node) : bool :=
  match n with
  | Element a _ => String.eqb (tagName a) "body" || String.eqb (tagName a) "frameset"
  | Text _ => false
  end.

Fixpoint index_where (f : node -> bool) (ks : list node) (i : nat) : option nat :=
  match ks with
  | [] => None
  | k :: ks' => if f k then Some i else index_where f ks' (S i)
  end.

Definition body (d : dom) : option nref :=
  match documentElement d with
  | Some r =>
      match deref d r with
      | Some (Element a ks) =>
          if String.eqb (tagName a) "html"
          then option_map (child_ref r) (index_where is_body ks 0)
          else None
      | _ => None
      end
  | None => None
  end.

(** [document.createElement] gives a node that nothing else refers to; it
    is a value until it is inserted. *)
Definition createElement (tag : string) : node :=
  Element (Attrs tag "" [] "" [] None) [].

Definition on_attrs (g : attrs -> attrs) (n : node) : node :=
  match n with Element a ks => Element (g a) ks | Text _ => n end.

Definition set_id (x : string) : node -> node :=
  on_attrs (fun a => Attrs (tagName a) x (classList a) (cssText a) (attributes a) (href a)).

Definition set_className (c : string) : node -> node :=
  on_attrs (fun a => Attrs (tagName a) (id a) (Str.tokens "" c) (cssText a)
                       (attributes a) (href a)).

Definition set_cssText (t : string) : node -> node :=
  on_attrs (fun a => Attrs (tagName a) (id a) (classList a) t (attributes a) (href a)).

Fixpoint put (k v : string) (l : list (string * string)) : list (string * string) :=
  match l with
  | [] => [(k, v)]
  | (k', v') :: l' => if String.eqb k k' then (k, v) :: l' else (k', v') :: put k v l'
  end.

Definition setAttribute (k v : string) : node -> node :=
  on_attrs (fun a => Attrs (tagName a) (id a) (classList a) (cssText a)
                       (put k v (attributes a)) (href a)).

Definition firstChild (r : nref) (d : dom) : completion (option nref) :=
  match deref d r with
  | Some n =>
      Normal (match children n with [] => None | _ :: _ => Some (child_ref r 0) end)
  | None => Throw dangling
  end.

Definition lastChild (r : nref) (d : dom) : completion (option nref) :=
  match deref d r with
  | Some n =>
      Normal (match children n with
              | [] => None
              | _ :: ks => Some (child_ref r (length ks))
              end)
  | None => Throw dangling
  end.

Definition insert_child (i : nat) (c : node) (n : node) : node :=
  match n with
  | Element a ks => Element a (take i ks ++ c :: drop i ks)
  | Text _ => n
  end.

(** [parent.appendChild(child)] for a fresh [child]; the result refers to
    the child where it now is. *)
Definition appendChild (parent : nref) (child : node) : M nref :=
  fun s =>
    match deref (doc s) parent with
    | Some (Element _ ks) =>
        (Normal (child_ref parent (length ks)),
         set_doc (update (doc s) parent (insert_child (length ks) child)) s)
    | _ => (Throw (VError "HierarchyRequestError" "cannot have children"), s)
    end.

(** [parent.insertBefore(child, reference)] for a fresh [child]: before the
    reference child, at the end when the reference is [null]. *)
Definition insertBefore (parent : nref) (child : node) (reference : option nref)
  : M nref :=
  match reference with
  | None => appendChild parent child
  | Some c =>
      fun s =>
        match deref (doc s) parent, last (ref_path c) with
        | Some (Element _ ks), Some i =>
            if bool_decide (c = child_ref parent i) && bool_decide (i < length ks)
            then (Normal (child_ref parent i),
                  set_doc (update (doc s) parent (insert_child i child)) s)
            else (Throw (VError "NotFoundError" "not a child of this node"), s)
        | _, _ => (Throw (VError "NotFoundError" "not a child of this node"), s)
        end
  end.

(** A created element that is inserted nowhere stays outside the document;
    it is kept with the detached trees so that it can still be referred to. *)
Definition keep_detached (n : node) : M nref :=
  fun s =>
    (Normal (NRef Detached [length (detached (doc s))]),
     set_doc (Dom (document (doc s)) (detached (doc s) ++ [n])) s).

Definition syntax_error : value := VError "SyntaxError" "not a valid selector".

(** [Element.prototype.querySelector] on the tree [n] whose ancestors are
    [anc]: the first descendant that matches, the selector being matched
    against the whole tree. *)
Definition querySelector_in (anc : list attrs) (n : node) (text : string)
  : completion (option path) :=
  match Css.parse text with
  | None => Throw syntax_error
  | Some sel =>
      match n with
      | Element a ks =>
          Normal (first_in (first_match (Css.matches_selector sel) (a :: anc)) ks 0)
      | Text _ => Throw dangling
      end
  end.

Definition querySelector (r : nref) (text : string) (d : dom)
  : completion (option nref) :=
  match deref d r with
  | Some n =>
      match querySelector_in (fancestors (ref_path r) (forest d (ref_space r))) n text with
      | Normal found => Normal (option_map (below r) found)
      | Throw e => Throw e
      end
  | None => Throw dangling
  end.

(** The native [Document.prototype.querySelector] and [querySelectorAll]. *)
Definition document_querySelector (text : string) (d : dom)
  : completion (option nref) :=
  match Css.parse text with
  | None => Throw syntax_error
  | Some sel =>
      Normal (option_map (NRef InDocument)
                (first_in (first_match (Css.matches_selector sel) []) (document d) 0))
  end.

Definition document_querySelectorAll (text : string) (d : dom)
  : completion (list nref) :=
  match Css.parse text with
  | None => Throw syntax_error
  | Some sel =>
      Normal (map (NRef InDocument)
                (all_in (all_matches (Css.matches_selector sel) []) (document d) 0))
  end.

(** *** ensureStub *)

Definition new_header : node :=
  setAttribute "data-legacy-guard" "v4"
    (set_cssText
       "display: none !important; visibility: hidden !important; position: absolute; left: -9999px;"
       (set_id HEADER_ID (createElement "div"))).

Definition new_container : node :=
  set_cssText "display: none !important;"
    (set_className "container" (createElement "div")).

Definition new_innerDiv : node :=
  set_cssText "display: none !important;" (createElement "div").

Definition new_stub : node :=
  setAttribute "data-stub" "true"
    (set_cssText "display: none !important;"
       (set_className "notification-badge-stub" (createElement "span"))).

(** The methods of the document and of its elements that the [try] block
    calls. *)
Inductive host_call :=
| GetElementById
| CreateElement
| SetAttribute
| InsertBefore
| AppendChild
| QuerySelector.

(** What the page has done to them: [faults c] is the exception that a
    call of [c] throws on this page, if it throws.  On the document as the
    standard gives it none of these calls throws here, but the page can
    break one: an element whose [name] is [getElementById] shadows that
    method of [document], and a script can replace a method of a
    prototype.  A broken call throws its exception; the other calls do
    what the DOM says. *)
Definition no_faults : host_call -> option value := fun _ => None.

Definition calling {A} (faults : host_call -> option value) (c : host_call) (m : M A) : M A :=
  match faults c with
  | Some e => throw e
  | None => m
  end.

(** The body of the [try] block. *)
Definition ensureStub_try_with (faults : host_call -> option value) : M unit :=
  let! found :=
    calling faults GetElementById (query (fun d => Normal (getElementById HEADER_ID d))) in
  let! header :=
    match found with
    | Some h => ret h
    | None =>
        console_log [VStr TAG; VStr "Creating stub header element"];;;
        calling faults CreateElement (ret tt);;;
        calling faults SetAttribute (ret tt);;;
        let! b := query (fun d => Normal (body d)) in
        match b with
        | Some b =>
            let! first := query (firstChild b) in
            calling faults InsertBefore (insertBefore b new_header first)
        | None =>
            let! root := query (fun d => Normal (documentElement d)) in
            match root with
            | Some root => calling faults AppendChild (appendChild root new_header)
            | None => keep_detached new_header
            end
        end
    end in
  let! found := calling faults QuerySelector (query (querySelector header ".container")) in
  let! container :=
    match found with
    | Some c => ret c
    | None =>
        calling faults CreateElement (ret tt);;;
        calling faults AppendChild (appendChild header new_container)
    end in
  let! found := calling faults QuerySelector (query (querySelector container "div")) in
  let! innerDiv :=
    match found with
    | Some i => ret i
    | None =>
        calling faults CreateElement (ret tt);;;
        calling faults AppendChild (appendChild container new_innerDiv)
    end in
  let! last := query (lastChild innerDiv) in
  match last with
  | Some _ => ret tt
  | None =>
      calling faults CreateElement (ret tt);;;
      calling faults SetAttribute (ret tt);;;
      let! _ := calling faults AppendChild (appendChild innerDiv new_stub) in ret tt
  end;;;
  set_stubEnsured true;;;
  console_log [VStr TAG; VStr "Stub structure verified/created successfully"].

(** [ensureStub]: the [try] block, and the [catch] that logs and answers
    [false]. *)
Definition ensureStub_with (faults : host_call -> option value) (s : state) : bool * state :=
  match ensureStub_try_with faults s with
  | (Normal _, s') => (true, s')
  | (Throw err, s') =>
      (false,
       State (doc s') (stubEnsured s')
         (console s' ++ [Entry Warn [VStr TAG; VStr "ensureStub error (will retry):"; err]]))
  end.

(** On a page that has broken none of the calls. *)
Definition ensureStub_try : M unit := ensureStub_try_with no_faults.

Definition ensureStub (s : state) : bool * state := ensureStub_with no_faults s.

(** *** The console.error override *)

(** The native [console.error], [console.warn]: print the arguments. *)
Definition native_console (l : level) (args : list value) (out : list entry)
  : list entry :=
  out ++ [Entry l args].

(** The function the script installs as [console.error]; [out] is what the
    native console has printed.  The arguments are joined before anything
    else, outside any [try]: an argument that cannot be converted ends the
    call with its exception. *)
Definition console_error (args : list value) (out : list entry)
  : completion unit * list entry :=
  match join_values " " args with
  | Throw e => (Throw e, out)
  | Normal msg =>
      if Str.includes "lastChild" msg && Str.includes "home-header2" msg then
        (Normal tt, native_console Warn [VStr TAG; VStr "Suppressed error:"; VStr msg] out)
      else if Str.includes "updateTabletBadge" msg || Str.includes "initNotificationBadge" msg
      then
        (Normal tt,
         native_console Warn [VStr TAG; VStr "Suppressed notification badge error:"; VStr msg]
           out)
      else (Normal tt, native_console Error args out)
  end.

(** *** safeWrap and wrapLegacyFunctions *)

(** A page function: the [this] value, the arguments, and its effect. *)
Definition jsfun : Type := value -> list value -> M value.

Inductive global :=
| GFun (f : jsfun)
| GVal (v : value).

Definition run_ensureStub : M bool :=
  fun s => let '(ok, s') := ensureStub s in (Normal ok, s').

Definition try_catch {A} (c : M A) (handler : value -> M A) : M A :=
  fun s =>
    match c s with
    | (Normal a, s') => (Normal a, s')
    | (Throw err, s') => handler err s'
    end.

Definition safeWrap (fn : jsfun) (name : string) : jsfun :=
  fun this args =>
    try_catch
      (run_ensureStub;;; fn this args)
      (fun err =>
         console_warn [VStr TAG; VStr ("Caught error in " +:+ name +:+ ":"); err];;;
         ret VNull).

Definition legacyFunctions : list string :=
  [ "updateTabletBadge"; "initNotificationBadge"; "checkLoggedInUser";
    "updateNotificationCount"; "refreshNotifications" ].

(** One turn of the [forEach] over the names. *)
Definition wrap_if_function (acc : gmap string global * state) (fname : string)
  : gmap string global * state :=
  match acc.1 !! fname with
  | Some (GFun original) =>
      (<[fname := GFun (safeWrap original fname)]> acc.1,
       (console_log [VStr TAG; VStr ("Wrapped function: " +:+ fname)] acc.2).2)
  | _ => acc
  end.

(** The replacement of [Object.defineProperty], for a definition on
    [window] ([on_window]) of [prop] with the descriptor value [v]. *)
Definition defineProperty (on_window : bool) (prop : string) (v : global)
  (acc : gmap string global * state) : gmap string global * state :=
  match v with
  | GFun f =>
      if on_window && bool_decide (prop ∈ legacyFunctions) then
        (<[prop := GFun (safeWrap f prop)]> acc.1,
         (console_log [VStr TAG; VStr ("Intercepting late-bound function: " +:+ prop)] acc.2).2)
      else if on_window then (<[prop := v]> acc.1, acc.2) else acc
  | GVal _ => if on_window then (<[prop := v]> acc.1, acc.2) else acc
  end.

(** *** The mutation observer callback *)

Inductive mutation_type := ChildList | AttributesChange | CharacterData.

(** A mutation record; the removed nodes are the subtrees taken out. *)
Record mutation := Mutation {
  mtype : mutation_type;
  removedNodes : list node
}.

(** [node.id === HEADER_ID || (node.nodeType === 1 &&
    node.querySelector('#home-header2'))]. *)
Definition is_or_holds_header (n : node) : completion bool :=
  match n with
  | Text _ => Normal false
  | Element a _ =>
      if String.eqb (id a) HEADER_ID then Normal true
      else match querySelector_in [] n ("#" +:+ HEADER_ID) with
           | Normal (Some _) => Normal true
           | Normal None => Normal false
           | Throw e => Throw e
           end
  end.

(** The inner [for] over the removed nodes, left at the first hit. *)
Fixpoint scan_removed (nodes : list node) : M bool :=
  match nodes with
  | [] => ret false
  | n :: rest =>
      let! hit := query (fun _ => is_or_holds_header n) in
      if hit then
        console_warn [VStr TAG; VStr "Stub structure was removed! Recreating..."];;;
        ret true
      else scan_removed rest
  end.

(** The outer [for] over the records. *)
Fixpoint scan_mutations (ms : list mutation) (needsCheck : bool) : M bool :=
  match ms with
  | [] => ret needsCheck
  | m :: rest =>
      match mtype m with
      | ChildList =>
          let! hit := scan_removed (removedNodes m) in
          scan_mutations rest (hit || needsCheck)
      | _ => scan_mutations rest needsCheck
      end
  end.

Definition observer_callback (mutations : list mutation) : M unit :=
  let! needsCheck := scan_mutations mutations false in
  if needsCheck then
    set_stubEnsured false;;;
    let! _ := run_ensureStub in ret tt
  else ret tt.

(** *** The patched querySelector *)

(** The function [patchQuerySelector] puts in the place of [original]. *)
Definition patched (original : string -> dom -> completion (option nref))
  (selector : string) : M (option nref) :=
  let! result := query (original selector) in
  match result with
  | None =>
      if Str.includes "home-header2" selector then
        console_warn
          [VStr TAG;
           VStr ("querySelector returned null for: " +:+ selector +:+ ", ensuring stub...")];;;
        let! _ := run_ensureStub in
        query (original selector)
      else ret result
  | Some _ => ret result
  end.

Definition patched_querySelector : string -> M (option nref) :=
  patched document_querySelector.

(** *** The page around the guard *)

Inductive ready := Loading | Interactive | Complete.

(** The closures the script hands to the browser. *)
Inductive callback :=
| OnDomContentLoaded
| OnLoad
| PeriodicCheck
| DelayedEnsure
| JoinSessionClick.

Record page := Page {
  st : state;
  readyState : ready;
  window : gmap string global;
  observer : option bool;
  definePropertyPatched : bool;
  querySelectorPatched : bool;
  clickCapture : list callback;
  domContentLoadedListeners : list callback;
  loadListeners : list callback;
  intervals : list (nat * callback);
  timeouts : list (nat * callback);
  consoleErrorPatched : bool
}.

Definition with_st (p : page) (s : state) : page :=
  Page s (readyState p) (window p) (observer p) (definePropertyPatched p)
    (querySelectorPatched p) (clickCapture p) (domContentLoadedListeners p)
    (loadListeners p) (intervals p) (timeouts p) (consoleErrorPatched p).

(** Run a computation that cannot be left by an exception worth keeping:
    the browser reports an uncaught exception of a callback and goes on. *)
Definition run {A} (c : M A) (p : page) : page := with_st p (c (st p)).2.

Definition wrapLegacyFunctions (p : page) : page :=
  let '(w, s) := foldl wrap_if_function (window p, st p) legacyFunctions in
  Page s (readyState p) w (observer p) true (querySelectorPatched p)
    (clickCapture p) (domContentLoadedListeners p)
    (loadListeners p) (intervals p) (timeouts p) (consoleErrorPatched p).

Definition setupMutationObserver (p : page) : page :=
  match observer p with
  | Some _ => p
  | None =>
      match body (doc (st p)) with
      | Some _ =>
          Page (console_log [VStr TAG; VStr "Mutation observer activated"] (st p)).2
            (readyState p) (window p) (Some true) (definePropertyPatched p)
            (querySelectorPatched p) (clickCapture p) (domContentLoadedListeners p)
            (loadListeners p) (intervals p) (timeouts p) (consoleErrorPatched p)
      | None =>
          Page (st p) (readyState p) (window p) (Some false) (definePropertyPatched p)
            (querySelectorPatched p) (clickCapture p) (domContentLoadedListeners p)
            (loadListeners p) (intervals p) (timeouts p) (consoleErrorPatched p)
      end
  end.

Definition patchQuerySelector (p : page) : page :=
  Page (st p) (readyState p) (window p) (observer p) (definePropertyPatched p)
    true (clickCapture p) (domContentLoadedListeners p)
    (loadListeners p) (intervals p) (timeouts p) (consoleErrorPatched p).

(** [document.querySelector(selector)] as the page's scripts get it,
    [original] being the function of the browser. *)
Definition page_querySelector (original : string -> dom -> completion (option nref))
  (p : page) (selector : string) : M (option nref) :=
  if querySelectorPatched p then patched original selector
  else query (original selector).

Definition add_clickCapture (c : callback) (p : page) : page :=
  Page (st p) (readyState p) (window p) (observer p) (definePropertyPatched p)
    (querySelectorPatched p) (clickCapture p ++ [c]) (domContentLoadedListeners p)
    (loadListeners p) (intervals p) (timeouts p) (consoleErrorPatched p).

Definition add_domContentLoaded (c : callback) (p : page) : page :=
  Page (st p) (readyState p) (window p) (observer p) (definePropertyPatched p)
    (querySelectorPatched p) (clickCapture p) (domContentLoadedListeners p ++ [c])
    (loadListeners p) (intervals p) (timeouts p) (consoleErrorPatched p).

Definition add_load (c : callback) (p : page) : page :=
  Page (st p) (readyState p) (window p) (observer p) (definePropertyPatched p)
    (querySelectorPatched p) (clickCapture p) (domContentLoadedListeners p)
    (loadListeners p ++ [c]) (intervals p) (timeouts p) (consoleErrorPatched p).

Definition setInterval (c : callback) (ms : nat) (p : page) : page :=
  Page (st p) (readyState p) (window p) (observer p) (definePropertyPatched p)
    (querySelectorPatched p) (clickCapture p) (domContentLoadedListeners p)
    (loadListeners p) (intervals p ++ [(ms, c)]) (timeouts p) (consoleErrorPatched p).

Definition setTimeout (c : callback) (ms : nat) (p : page) : page :=
  Page (st p) (readyState p) (window p) (observer p) (definePropertyPatched p)
    (querySelectorPatched p) (clickCapture p) (domContentLoadedListeners p)
    (loadListeners p) (intervals p) (timeouts p ++ [(ms, c)])
    (consoleErrorPatched p).

Definition set_readyState (r : ready) (p : page) : page :=
  Page (st p) r (window p) (observer p) (definePropertyPatched p)
    (querySelectorPatched p) (clickCapture p) (domContentLoadedListeners p)
    (loadListeners p) (intervals p) (timeouts p) (consoleErrorPatched p).

Definition setupJoinSessionGuard (p : page) : page :=
  run (console_log [VStr TAG; VStr "Join session guard installed"])
    (add_clickCapture JoinSessionClick p).

(** *** The click listener *)

Definition join_selector : string :=
  "button, a, [role=" +:+ String "034"%char "button" +:+ String "034"%char "]".

(** [target.matches(text)]. *)
Definition element_matches (r : nref) (text : string) (d : dom) : completion bool :=
  match Css.parse text with
  | None => Throw syntax_error
  | Some sel =>
      match deref d r with
      | Some (Element a _) =>
          Normal (Css.matches_selector sel
                    (fancestors (ref_path r) (forest d (ref_space r))) a)
      | _ => Throw (VError "TypeError" "target.matches is not a function")
      end
  end.

Definition isJoinButton (target : nref) (d : dom) : completion bool :=
  match element_matches target join_selector d, deref d target with
  | Normal m, Some (Element a ks as n) =>
      Normal (m &&
              (Str.includes "Join session" (textContent n) ||
               Str.includes "Start meeting" (textContent n) ||
               match href a with
               | Some h => negb (String.eqb h "") && Str.includes "zoom" h
               | None => false
               end))
  | Throw e, _ => Throw e
  | _, _ => Throw dangling
  end.

(** The listener of [setupJoinSessionGuard]; it answers whether it asked
    for the two delayed calls. *)
Definition join_click_listener (target : option nref) : M bool :=
  match target with
  | None => ret false
  | Some t =>
      let! hit := query (isJoinButton t) in
      if hit then
        console_log [VStr TAG; VStr "Join session click detected, ensuring stub..."];;;
        let! _ := run_ensureStub in
        ret true
      else ret false
  end.

(** *** Callbacks and events *)

Definition periodic_check : M unit :=
  fun s =>
    if negb (stubEnsured s) ||
       match getElementById HEADER_ID (doc s) with Some _ => false | None => true end
    then
      (console_warn [VStr TAG; VStr "Periodic check found stub missing, recreating..."];;;
       let! _ := run_ensureStub in ret tt) s
    else (Normal tt, s).

(** What a callback does when the browser calls it; [target] is the event
    target of a click. *)
Definition call (c : callback) (target : option nref) (p : page) : page :=
  match c with
  | OnDomContentLoaded =>
      setupMutationObserver
        (run (console_log [VStr TAG; VStr "DOM ready, re-ensuring stub..."];;;
              run_ensureStub) p)
  | OnLoad =>
      run (console_log [VStr TAG; VStr "Page fully loaded, final stub check..."];;;
           run_ensureStub) p
  | PeriodicCheck => run periodic_check p
  | DelayedEnsure => run run_ensureStub p
  | JoinSessionClick =>
      match join_click_listener target (st p) with
      | (Normal true, s) =>
          setTimeout DelayedEnsure 500 (setTimeout DelayedEnsure 100 (with_st p s))
      | (_, s) => with_st p s
      end
  end.

Definition call_all (cs : list callback) (target : option nref) (p : page) : page :=
  foldl (fun p c => call c target p) p cs.

(** The parser has finished: [readyState] leaves [loading] and
    [DOMContentLoaded] is dispatched. *)
Definition fire_DOMContentLoaded (p : page) : page :=
  call_all (domContentLoadedListeners p) None (set_readyState Interactive p).

Definition fire_load (p : page) : page :=
  call_all (loadListeners p) None (set_readyState Complete p).

(** One period of every interval timer. *)
Definition fire_intervals (p : page) : page :=
  call_all (map snd (intervals p)) None p.

(** A click on [target], as far as the capture listeners on the document. *)
Definition dispatch_click (target : nref) (p : page) : page :=
  call_all (clickCapture p) (Some target) p.

(** *** init *)

Definition init (p : page) : page :=
  let p := run (console_log [VStr TAG; VStr "Initializing Enhanced Legacy Notif Guard v4..."]) p in
  (* Stage 1 *)
  let p := run run_ensureStub p in
  let p := wrapLegacyFunctions p in
  let p := patchQuerySelector p in
  let p := setupJoinSessionGuard p in
  (* Stage 2 *)
  let p :=
    match readyState p with
    | Loading => add_domContentLoaded OnDomContentLoaded p
    | _ => setupMutationObserver (run run_ensureStub p)
    end in
  (* Stage 3 *)
  let p := add_load OnLoad p in
  (* Stage 4 *)
  let p := setInterval PeriodicCheck 2000 p in
  run (console_log [VStr TAG; VStr "Guard initialization complete"]) p.

(** [LegacyNotifGuard.getStatus()]. *)
Record status := Status {
  status_stubEnsured : bool;
  headerExists : bool;
  observerActive : bool
}.

Definition getStatus (p : page) : status :=
  Status (stubEnsured (st p))
    (match getElementById HEADER_ID (doc (st p)) with Some _ => true | None => false end)
    (match observer p with Some _ => true | None => false end).

(** *** The script *)

Definition install_console_error (p : page) : page :=
  Page (st p) (readyState p) (window p) (observer p) (definePropertyPatched p)
    (querySelectorPatched p) (clickCapture p) (domContentLoadedListeners p)
    (loadListeners p) (intervals p) (timeouts p) true.


(** The script as a whole: the override of [console.error], then [init].
    The object it leaves in [window.LegacyNotifGuard] gives [ensureStub]
    and [getStatus]. *)
Definition guard_script (p : page) : page := init (install_console_error p).

End Guard.

(** ** The redirect to the meeting page

    Strings are sequences of bytes: the text of a well-formed string in
    UTF-8, which is what the query-string serializer encodes and what the
    parser decodes back. *)

Module Redirect.

(** *** application/x-www-form-urlencoded *)

Definition hex_digit (n : N) : ascii :=
  if (n <? 10)%N then ascii_of_N (48 + n) else ascii_of_N (55 + n).

Definition hex_value (c : ascii) : option N :=
  let n := N_of_ascii c in
  if ((48 <=? n) && (n <=? 57))%N then Some (n - 48)%N
  else if ((65 <=? n) && (n <=? 70))%N then Some (n - 55)%N
  else if ((97 <=? n) && (n <=? 102))%N then Some (n - 87)%N
  else None.

(** Bytes the serializer leaves as they are: ASCII letters and digits and
    [*], [-], [.], [_]. *)
Definition unreserved (c : ascii) : bool :=
  let n := N_of_ascii c in
  ((48 <=? n) && (n <=? 57) || (65 <=? n) && (n <=? 90) ||
   (97 <=? n) && (n <=? 122) ||
   (n =? 42) || (n =? 45) || (n =? 46) || (n =? 95))%N.

Definition encode_byte (c : ascii) : string :=
  if Ascii.eqb c " " then "+"
  else if unreserved c then String c ""
  else String "%" (String (hex_digit (N_of_ascii c / 16))
                     (String (hex_digit (N_of_ascii c mod 16)) "")).

Fixpoint encode (s : string) : string :=
  match s with
  | EmptyString => ""
  | String c rest => encode_byte c +:+ encode rest
  end.

(** [URLSearchParams.prototype.toString]. *)
Fixpoint serialize (params : list (string * string)) : string :=
  match params with
  | [] => ""
  | [(k, v)] => encode k +:+ "=" +:+ encode v
  | (k, v) :: rest => encode k +:+ "=" +:+ encode v +:+ "&" +:+ serialize rest
  end.

Fixpoint plus_to_space (s : string) : string :=
  match s with
  | EmptyString => ""
  | String c rest => String (if Ascii.eqb c "+" then " "%char else c) (plus_to_space rest)
  end.

Fixpoint percent_decode (s : string) : string :=
  match s with
  | EmptyString => ""
  | String c rest =>
      if Ascii.eqb c "%" then
        match rest with
        | String h (String l rest') =>
            match hex_value h, hex_value l with
            | Some x, Some y => String (ascii_of_N (16 * x + y)) (percent_decode rest')
            | _, _ => String c (percent_decode rest)
            end
        | _ => String c (percent_decode rest)
        end
      else String c (percent_decode rest)
  end.

(** Split at every [sep]. *)
Fixpoint split (sep : ascii) (cur s : string) : list string :=
  match s with
  | EmptyString => [cur]
  | String c rest =>
      if Ascii.eqb c sep then cur :: split sep "" rest
      else split sep (Str.snoc cur c) rest
  end.

(** Name and value of one sequence: split at the first [=]. *)
Fixpoint name_value (name s : string) : string * string :=
  match s with
  | EmptyString => (name, "")
  | String c rest =>
      if Ascii.eqb c "=" then (name, rest)
      else name_value (Str.snoc name c) rest
  end.

(** A name or a value of the query: [+] is a space and an escape is its
    byte.  The bytes are handed on as they are, which is what the UTF-8
    decoding of the parser gives for the escapes that the serializer
    writes for a well-formed string. *)
Definition decode_component (s : string) : string :=
  percent_decode (plus_to_space s).

Definition parse_pair (s : string) : string * string :=
  let '(k, v) := name_value "" s in (decode_component k, decode_component v).

(** The parser: empty sequences are skipped. *)
Definition parse (s : string) : list (string * string) :=
  map parse_pair
    (List.filter (fun x => negb (String.eqb x "")) (split "&" "" s)).

(** [new URLSearchParams(init)]: a leading [?] is dropped. *)
Definition URLSearchParams (init : string) : list (string * string) :=
  match init with
  | String c rest => if Ascii.eqb c "?" then parse rest else parse init
  | EmptyString => parse init
  end.

(** [URLSearchParams.prototype.get]: the first value with that name. *)
Fixpoint get (name : string) (params : list (string * string)) : option string :=
  match params with
  | [] => None
  | (k, v) :: rest => if String.eqb k name then Some v else get name rest
  end.

(** [URLSearchParams.prototype.set] : the first pair with that name takes
    the value and the others go; without one the pair is appended. *)
Fixpoint remove_name (name : string) (params : list (string * string))
  : list (string * string) :=
  match params with
  | [] => []
  | (k, v) :: rest =>
      if String.eqb k name then remove_name name rest
      else (k, v) :: remove_name name rest
  end.

Fixpoint set (name value : string) (params : list (string * string))
  : list (string * string) :=
  match params with
  | [] => [(name, value)]
  | (k, v) :: rest =>
      if String.eqb k name then (name, value) :: remove_name name rest
      else (k, v) :: set name value rest
  end.

(** *** URLs *)

(** A URL without credentials and fragment, as [new URL] builds one from a
    path and an origin: the origin, the path and the query parameters. *)
Record URL := MkURL {
  url_origin : string;
  pathname : string;
  searchParams : list (string * string)
}.

(** [URL.prototype.toString]: the address; the query is left out when
    there are no parameters. *)
Definition URL_toString (u : URL) : string :=
  url_origin u +:+ pathname u +:+
  match searchParams u with
  | [] => ""
  | ps => "?" +:+ serialize ps
  end.

(** Navigating to an address parses it.  The parser ends the query at the
    first [#] and escapes in it the bytes of the query percent-encode set
    of a special scheme: controls, space, the double and the single quote,
    [#], [<], [>] and everything above [~]. *)
Definition query_escaped (c : ascii) : bool :=
  let n := N_of_ascii c in
  ((n <=? 32) || (n =? 34) || (n =? 35) || (n =? 39) || (n =? 60) || (n =? 62) ||
   (127 <=? n))%N.

Fixpoint escape_query (s : string) : string :=
  match s with
  | EmptyString => ""
  | String c rest =>
      (if query_escaped c
       then String "%" (String (hex_digit (N_of_ascii c / 16))
                          (String (hex_digit (N_of_ascii c mod 16)) ""))
       else String c "") +:+ escape_query rest
  end.

Fixpoint until_hash (s : string) : string :=
  match s with
  | EmptyString => ""
  | String c rest => if Ascii.eqb c "#" then "" else String c (until_hash rest)
  end.

(** The query of an address without its fragment, after the first [?]. *)
Fixpoint query_of (s : string) : option string :=
  match s with
  | EmptyString => None
  | String c rest => if Ascii.eqb c "?" then Some rest else query_of rest
  end.

(** [location.search] after a navigation to [address]: [?] and the
    query, empty when there is no query or an empty one. *)
Definition location_search (address : string) : string :=
  match query_of (until_hash address) with
  | None | Some EmptyString => ""
  | Some q => String "?" (escape_query q)
  end.

(** *** String.prototype.trim *)

(** The white space and line terminators [trim] strips: the ASCII ones,
    and in their UTF-8 bytes U+00A0, and U+1680, U+2000 to U+200A, U+2028,
    U+2029, U+202F, U+205F, U+3000 and U+FEFF. *)
Definition trim_space1 (c : ascii) : bool :=
  Str.is_space c || Nat.eqb (nat_of_ascii c) 11.

Definition trim_space2 (c c1 : ascii) : bool :=
  Nat.eqb (nat_of_ascii c) 194 && Nat.eqb (nat_of_ascii c1) 160.

Definition trim_space3 (c c1 c2 : ascii) : bool :=
  let n := nat_of_ascii c in
  let n1 := nat_of_ascii c1 in
  let n2 := nat_of_ascii c2 in
  (Nat.eqb n 225 && Nat.eqb n1 154 && Nat.eqb n2 128) ||
  (Nat.eqb n 226 && Nat.eqb n1 128 &&
   (Nat.leb 128 n2 && Nat.leb n2 138 || Nat.eqb n2 168 || Nat.eqb n2 169 ||
    Nat.eqb n2 175)) ||
  (Nat.eqb n 226 && Nat.eqb n1 129 && Nat.eqb n2 159) ||
  (Nat.eqb n 227 && Nat.eqb n1 128 && Nat.eqb n2 128) ||
  (Nat.eqb n 239 && Nat.eqb n1 187 && Nat.eqb n2 191).

(** [s.trim() === '']: nothing but such characters. *)
Fixpoint blank (s : string) : bool :=
  match s with
  | EmptyString => true
  | String c rest =>
      if trim_space1 c then blank rest
      else
        match rest with
        | String c1 rest1 =>
            if trim_space2 c c1 then blank rest1
            else
              match rest1 with
              | String c2 rest2 =>
                  if trim_space3 c c1 c2 then blank rest2 else false
              | EmptyString => false
              end
        | EmptyString => false
        end
  end.

(** *** handleJoinSession *)

Definition TAG : string := "[JoinSessionButton]".

Definition show (v : option string) : Js.value :=
  match v with Some s => Js.VStr s | None => Js.VNull end.

(** A string argument is falsy when absent or empty. *)
Definition truthy (v : option string) : bool :=
  match v with
  | Some s => negb (String.eqb s "")
  | None => false
  end.

(** The window as the handler sees it: the page address, what was logged,
    and the alerts shown. *)
Record window := Window {
  location_origin : string;
  location_href : string;
  console : list Js.entry;
  alerts : list string
}.

Definition log (l : Js.level) (args : list Js.value) (w : window) : window :=
  Window (location_origin w) (location_href w)
    (console w ++ [Js.Entry l args]) (alerts w).

(** [new_URL path base] stands for the constructor [new URL(path, base)]
    of the browser: the URL it builds, or the exception it throws when
    [base] is no address, as the origin [null] of a page with an opaque
    origin is none. *)
Definition handleJoinSession (new_URL : string -> string -> Js.completion URL)
  (zoomMeetingUrl sessionIdParam : option string) (w : window)
  : Js.completion unit * window :=
  let w := log Js.Log [Js.VStr TAG; Js.VStr "Join session clicked"] w in
  let w := log Js.Log [Js.VStr TAG; Js.VStr "Zoom URL:"; show zoomMeetingUrl] w in
  let w := log Js.Log [Js.VStr TAG; Js.VStr "Session ID:"; show sessionIdParam] w in
  match zoomMeetingUrl with
  | Some url =>
      if negb (truthy zoomMeetingUrl) || blank url then
        let w := log Js.Error [Js.VStr TAG; Js.VStr "No meeting URL provided"] w in
        (Js.Normal tt,
         Window (location_origin w) (location_href w) (console w)
           (alerts w ++
            ["Unable to start meeting: No meeting URL found. Please contact support."]))
      else
        match new_URL "/meeting" (location_origin w) with
        | Js.Throw e => (Js.Throw e, w)
        | Js.Normal meetingPageUrl =>
            let meetingPageUrl :=
              MkURL (url_origin meetingPageUrl) (pathname meetingPageUrl)
                (set "meetingUrl" url (searchParams meetingPageUrl)) in
            let meetingPageUrl :=
              match sessionIdParam with
              | Some sid =>
                  if truthy sessionIdParam then
                    MkURL (url_origin meetingPageUrl) (pathname meetingPageUrl)
                      (set "sessionId" sid (searchParams meetingPageUrl))
                  else meetingPageUrl
              | None => meetingPageUrl
              end in
            let w := log Js.Log [Js.VStr TAG; Js.VStr "Redirecting to:";
                                 Js.VStr (URL_toString meetingPageUrl)] w in
            (Js.Normal tt,
             Window (location_origin w) (URL_toString meetingPageUrl) (console w) (alerts w))
        end
  | None =>
      let w := log Js.Error [Js.VStr TAG; Js.VStr "No meeting URL provided"] w in
      (Js.Normal tt,
       Window (location_origin w) (location_href w) (console w)
         (alerts w ++
          ["Unable to start meeting: No meeting URL found. Please contact support."]))
  end.

(** *** The meeting page *)

(** [urlParams.get('meetingUrl')] and [urlParams.get('sessionId')] on the
    page whose address is [address]. *)
Definition meetingUrl (address : string) : option string :=
  get "meetingUrl" (URLSearchParams (location_search address)).

Definition sessionId (address : string) : option string :=
  get "sessionId" (URLSearchParams (location_search address)).

End Redirect.

(** ** The meeting page

    [meeting-page-code.js].  The page state is the one of the guard, whose
    script the integration guide has loaded first on every page; this
    script leaves the guard's flag alone. *)

Module MeetingPage.
Import Dom Js Guard.

Definition TAG : string := "[MeetingPage]".

(** The double quote. *)
Definition dq : string := String "034"%char "".

(** [console.error] with messages the guard's override lets through. *)
Definition console_error (args : list value) : M unit :=
  fun s =>
    (Normal tt, State (doc s) (stubEnsured s) (native_console Error args (console s))).

(** The markup [showError] writes. *)
Definition error_markup (message : string) : string :=
  "
        <div style=" +:+
  dq +:+
  "
          display: flex;
          flex-direction: column;
          align-items: center;
          justify-content: center;
          height: 100vh;
          padding: 20px;
          text-align: center;
        " +:+
  dq +:+
  ">
          <h2 style=" +:+
  dq +:+
  "color: #e53e3e; margin-bottom: 16px;" +:+
  dq +:+
  ">Unable to Load Meeting</h2>
          <p style=" +:+
  dq +:+
  "color: #4a5568; margin-bottom: 24px;" +:+
  dq +:+
  ">" +:+
  message +:+
  "</p>
          <button onclick=" +:+
  dq +:+
  "window.history.back()" +:+
  dq +:+
  " style=" +:+
  dq +:+
  "
            background-color: #4299e1;
            color: white;
            padding: 12px 24px;
            border: none;
            border-radius: 6px;
            cursor: pointer;
            font-size: 16px;
          " +:+
  dq +:+
  ">Go Back</button>
        </div>
      ".

(** The text assigned to [iframe.style.cssText]. *)
Definition iframe_css : string :=
  "
      width: 100%;
      height: 100vh;
      border: none;
      position: fixed;
      top: 0;
      left: 0;
      z-index: 9999;
    ".

Definition new_iframe (meetingUrl : string) : node :=
  set_id "zoom-meeting-iframe"
    (set_cssText iframe_css
       (setAttribute "allow" "camera; microphone; fullscreen; display-capture"
          (setAttribute "src" meetingUrl (createElement "iframe")))).

Definition set_children (ks : list node) (n : node) : node :=
  match n with Element a _ => Element a ks | Text _ => n end.

Section Browser.

(** What the browser makes of a markup text assigned to [innerHTML], and
    the inline style text of an element after [style.display = value];
    the script does not depend on how either is done. *)
Variable fragment : string -> list node.
Variable with_display : string -> string -> string.

(** [element.innerHTML = markup]: the children are replaced by the nodes
    of the markup, by none for the empty text. *)
Definition set_innerHTML (r : nref) (markup : string) : M unit :=
  fun s =>
    match deref (doc s) r with
    | Some (Element _ _) =>
        (Normal tt,
         set_doc (update (doc s) r
                    (set_children (match markup with
                                   | EmptyString => []
                                   | _ => fragment markup
                                   end))) s)
    | _ => (Throw dangling, s)
    end.

(** [spinner.style.display = 'none']. *)
Definition hide (a : attrs) : attrs :=
  Attrs (tagName a) (id a) (classList a) (with_display "none" (cssText a))
    (attributes a) (href a).

Definition hideLoadingSpinner : M unit :=
  let! spinners :=
    query (document_querySelectorAll ".spinner, .loading-spinner, [data-loading]") in
  fun s =>
    (Normal tt,
     set_doc (foldl (fun d spinner => update d spinner (on_attrs hide)) (doc s) spinners) s).

Definition showError (message : string) : M unit :=
  let! container := query (fun d => Normal (getElementById "zoom-meeting-container" d)) in
  match container with
  | Some c => set_innerHTML c (error_markup message)
  | None => ret tt
  end;;;
  hideLoadingSpinner.

Definition initializeZoomIframe (meetingUrl : option string) : M unit :=
  let! container := query (fun d => Normal (getElementById "zoom-meeting-container" d)) in
  match container with
  | None =>
      console_error [VStr TAG; VStr "Zoom meeting container not found!"];;;
      showError "Meeting container not found. Please contact support."
  | Some c =>
      match meetingUrl with
      | Some (String _ _ as url) =>
          set_innerHTML c "";;;
          let! _ := appendChild c (new_iframe url) in
          console_log [VStr TAG; VStr "Zoom iframe created successfully"];;;
          hideLoadingSpinner
      | _ =>
          console_error [VStr TAG; VStr "No meeting URL provided"];;;
          showError "No meeting URL provided. Please try joining the meeting again."
      end
  end.

(** *** The script *)

(** [window.MeetingPageDebug]; [reinitialize] is [initializeZoomIframe]. *)
Record debug := Debug {
  version : string;
  debug_meetingUrl : option string;
  debug_sessionId : option string
}.

(** The page: its state, [document.readyState], [window.location.search],
    the [DOMContentLoaded] listeners of this script (each is
    [initializeZoomIframe] with the meeting address it closes over) and
    [window.MeetingPageDebug]. *)
Record page := Page {
  st : state;
  readyState : ready;
  search : string;
  listeners : list (option string);
  MeetingPageDebug : option debug
}.

Definition run (c : M unit) (p : page) : page :=
  Page (c (st p)).2 (readyState p) (search p) (listeners p) (MeetingPageDebug p).

Definition init (meetingUrl : option string) (p : page) : page :=
  match readyState p with
  | Loading =>
      Page (st p) (readyState p) (search p) (listeners p ++ [meetingUrl])
        (MeetingPageDebug p)
  | _ => run (initializeZoomIframe meetingUrl) p
  end.

Definition script (p : page) : page :=
  let urlParams := Redirect.URLSearchParams (search p) in
  let meetingUrl := Redirect.get "meetingUrl" urlParams in
  let sessionId := Redirect.get "sessionId" urlParams in
  let p := run (console_log [VStr TAG; VStr "Initializing meeting page..."]) p in
  let p := run (console_log [VStr TAG; VStr "Meeting URL:"; Redirect.show meetingUrl]) p in
  let p := run (console_log [VStr TAG; VStr "Session ID:"; Redirect.show sessionId]) p in
  let p := init meetingUrl p in
  Page (st p) (readyState p) (search p) (listeners p)
    (Some (Debug "1.0" meetingUrl sessionId)).

(** The parser has finished: the listeners run. *)
Definition fire_DOMContentLoaded (p : page) : page :=
  foldl (fun p meetingUrl => run (initializeZoomIframe meetingUrl) p)
    (Page (st p) Interactive (search p) (listeners p) (MeetingPageDebug p))
    (listeners p).

(** [window.MeetingPageDebug.reinitialize()]. *)
Definition reinitialize (p : page) : page :=
  match MeetingPageDebug p with
  | Some d => run (initializeZoomIframe (debug_meetingUrl d)) p
  | None => p
  end.

End Browser.

End MeetingPage.

(** ** The join-session button

    The button handler of the caregiver details page: where it takes the
    meeting address and the session identifier from, and the click
    listener it puts on the buttons. *)

Module JoinSession.
Import Dom Js.

Definition TAG : string := "[JoinSessionButton]".

(** The double quote. *)
Definition dq : string := String "034"%char "".

(** [a || b] on values that are a string, [null] or [undefined]. *)
Definition or_else (a b : option string) : option string :=
  if Redirect.truthy a then a else b.

(** [getCaregiverIdFromUrl()] on the page of the window [w]. *)
Definition getCaregiverIdFromUrl (w : Redirect.window) : option string :=
  let params :=
    Redirect.URLSearchParams (Redirect.location_search (Redirect.location_href w)) in
  or_else (or_else (Redirect.get "caregiver_id" params)
             (Redirect.get "caregiverId" params))
    (Redirect.get "id" params).

(** The page: the window the redirect handler works on, the document,
    and [window.softrPageData.zoomMeetingUrl] ([None] when
    [softrPageData] or the property is missing). *)
Record page := Page {
  win : Redirect.window;
  tree : dom;
  softr_zoomMeetingUrl : option string
}.

Definition with_win (p : page) (w : Redirect.window) : page :=
  Page w (tree p) (softr_zoomMeetingUrl p).

(** [element.getAttribute(name)]. *)
Definition getAttribute (name : string) (n : node) : option string :=
  match n with
  | Element a _ => Css.assoc name (attributes a)
  | Text _ => None
  end.

(** [element.href]. *)
Definition href_of (n : node) : option string :=
  match n with Element a _ => href a | Text _ => None end.

Definition hidden_input_selector : string :=
  "input[name=" +:+ dq +:+ "zoom_meeting_url" +:+ dq +:+ "], input[name=" +:+ dq +:+
  "meetingUrl" +:+ dq +:+ "]".

(** The test of the selector [a[href*=zoom.us]] (its value quoted in the
    source): an [a] element whose [href] attribute holds the text.  The
    operator is outside the selectors [Css] reads, so this query is given
    by its test. *)
Definition is_zoom_link (_ : list attrs) (a : attrs) : bool :=
  String.eqb "a" (tagName a) &&
  match Css.assoc "href" (attributes a) with
  | Some v => Str.includes "zoom.us" v
  | None => false
  end.

Definition query_zoom_link (d : dom) : option nref :=
  option_map (NRef InDocument) (first_in (first_match is_zoom_link []) (document d) 0).

(** The property [read] of the element [r] refers to. *)
Definition property (read : node -> option string) (r : nref) (d : dom) : option string :=
  match deref d r with Some n => read n | None => None end.

(** [getZoomMeetingUrl()]; [value_of] gives the [value] property of an
    input element, which is what the user has typed or a script has set
    and else follows from the attributes of the element. *)
Definition getZoomMeetingUrl (value_of : nref -> string) (p : page)
  : completion (option string) * page :=
  (* Method 1: a data attribute *)
  match Guard.document_querySelector "[data-zoom-url]" (tree p) with
  | Throw e => (Throw e, p)
  | Normal (Some meetingElement) =>
      (Normal (property (getAttribute "data-zoom-url") meetingElement (tree p)), p)
  | Normal None =>
      (* Method 2: a hidden input field *)
      match Guard.document_querySelector hidden_input_selector (tree p) with
      | Throw e => (Throw e, p)
      | Normal (Some hiddenInput) =>
          (Normal (Some (value_of hiddenInput)), p)
      | Normal None =>
          (* Method 3: the page's Softr data *)
          if Redirect.truthy (softr_zoomMeetingUrl p)
          then (Normal (softr_zoomMeetingUrl p), p)
          else
            (* Method 4: a link with zoom.us in it *)
            match query_zoom_link (tree p) with
            | Some zoomLink => (Normal (property href_of zoomLink (tree p)), p)
            | None =>
                (Normal None,
                 with_win p
                   (Redirect.log Warn
                      [VStr TAG; VStr "Could not find Zoom meeting URL on page"] (win p)))
            end
      end
  end.

(** What the listener did to the click event. *)
Record click := Click {
  defaultPrevented : bool;
  propagationStopped : bool
}.

Definition alert (message : string) (w : Redirect.window) : Redirect.window :=
  Redirect.Window (Redirect.location_origin w) (Redirect.location_href w)
    (Redirect.console w) (Redirect.alerts w ++ [message]).

(** The click listener [init] puts on [button]; [new_URL] is the URL
    constructor of the browser.  An exception of [handleJoinSession]
    leaves the listener. *)
Definition on_click (new_URL : string -> string -> completion Redirect.URL)
  (value_of : nref -> string) (button : nref) (p : page)
  : click * completion unit * page :=
  let e := Click true true in
  match getZoomMeetingUrl value_of p with
  | (Throw err, p) => (e, Throw err, p)
  | (Normal meetingUrl, p) =>
      if negb (Redirect.truthy meetingUrl) then
        (e, Normal tt,
         with_win p
           (alert "Unable to start meeting: Meeting URL not found. Please contact support."
              (win p)))
      else
        let sessionId :=
          or_else (property (getAttribute "data-session-id") button (tree p))
            (getCaregiverIdFromUrl (win p)) in
        let '(c, w) := Redirect.handleJoinSession new_URL meetingUrl sessionId (win p) in
        (e, c, with_win p w)
  end.

End JoinSession.

(** * What the properties speak about *)

Module Spec.
Import Dom Js Guard.

(** An update that keeps what a node is: its attributes, or its being text. *)
Definition keeps_attrs (g : node -> node) : Prop :=
  forall n, attrs_of (g n) = attrs_of n.

(** [r] refers to an element of [d]. *)
Definition is_elem (d : dom) (r : nref) : Prop :=
  exists a ks, deref d r = Some (Element a ks).

(** [extends n n']: [n'] is [n] with nodes inserted.  Every node of [n] is
    in [n'] with its attributes or text, and its children are there in
    their order, new ones possibly among them. *)
Inductive extends : node -> node -> Prop :=
| extends_text s : extends (Text s) (Text s)
| extends_element a ks ks' :
    extends_list ks ks' -> extends (Element a ks) (Element a ks')
with extends_list : list node -> list node -> Prop :=
| extends_nil : extends_list [] []
| extends_keep k k' ks ks' :
    extends k k' -> extends_list ks ks' -> extends_list (k :: ks) (k' :: ks')
| extends_new k' ks ks' :
    extends_list ks ks' -> extends_list ks (k' :: ks').

Scheme extends_mut := Minimality for extends Sort Prop
  with extends_list_mut := Minimality for extends_list Sort Prop.

Combined Scheme extends_mutual from extends_mut, extends_list_mut.

Definition dom_extends (d d' : dom) : Prop :=
  extends_list (document d) (document d') /\
  extends_list (detached d) (detached d').

(** The four levels as [ensureStub] looks for them: the element with the
    header id, its first [.container] descendant, the first [div]
    descendant of that, and the last child of that. *)
Definition stub_chain (d : dom) : option (nref * nref * nref * nref) :=
  match getElementById HEADER_ID d with
  | Some header =>
      match querySelector header ".container" d with
      | Normal (Some container) =>
          match querySelector container "div" d with
          | Normal (Some innerDiv) =>
              match lastChild innerDiv d with
              | Normal (Some last) => Some (header, container, innerDiv, last)
              | _ => None
              end
          | _ => None
          end
      | _ => None
      end
  | None => None
  end.

Definition has_chain (d : dom) : Prop := is_Some (stub_chain d).

(** The elements the guarded selector reaches that have a last child. *)
Definition has_lastChild (d : dom) (r : nref) : bool :=
  match lastChild r d with Normal (Some _) => true | _ => false end.

Definition stub_instances (d : dom) : list nref :=
  match document_querySelectorAll SEL d with
  | Normal found => List.filter (has_lastChild d) found
  | Throw _ => []
  end.

(** The header with its three levels as [ensureStub] builds them. *)
Definition full_header : node :=
  Guard.insert_child 0
    (Guard.insert_child 0 (Guard.insert_child 0 new_stub new_innerDiv) new_container)
    new_header.

(** Calls of [ensureStub] between changes of the document by other code. *)
Inductive step :=
| CallEnsureStub
| ExternalMutation (change : dom -> dom).

Definition run_step (s : state) (x : step) : state :=
  match x with
  | CallEnsureStub => (ensureStub s).2
  | ExternalMutation change => set_doc (change (doc s)) s
  end.

Definition run_steps (s : state) (t : list step) : state := foldl run_step s t.

(** [parent.removeChild(child)] in the forest: the subtree at [p] goes. *)
Fixpoint fremove (p : path) (f : list node) : list node :=
  match p with
  | [] => f
  | [i] => delete i f
  | i :: p' =>
      alter (fun n => match n with
                      | Element a ks => Element a (fremove p' ks)
                      | Text _ => n
                      end) i f
  end.

Definition remove (r : nref) (d : dom) : dom :=
  set_forest d (ref_space r) (fremove (ref_path r) (forest d (ref_space r))).

(** The tests the queries of [ensureStub] make on an element. *)
Definition is_header (a : attrs) : bool := String.eqb (id a) HEADER_ID.
Definition is_container (a : attrs) : bool := existsb (String.eqb "container") (classList a).
Definition is_div (a : attrs) : bool := String.eqb "div" (tagName a).

Definition find (P : attrs -> bool) : list node -> option path :=
  fun ks => first_in (first_match (fun _ => P) []) ks 0.

(** The selector text stands for a test of the element alone. *)
Definition simple_selector (text : string) (P : attrs -> bool) : Prop :=
  exists sel, Css.parse text = Some sel /\
    forall anc a, Css.matches_selector sel anc a = P a.

(** [ensureStub] once [header] is known: the three levels below it. *)
Definition fill_header (header : nref) : M unit :=
  let! found := query (querySelector header ".container") in
  let! container :=
    match found with
    | Some c => ret c
    | None => appendChild header new_container
    end in
  let! found := query (querySelector container "div") in
  let! innerDiv :=
    match found with
    | Some i => ret i
    | None => appendChild container new_innerDiv
    end in
  let! last := query (lastChild innerDiv) in
  match last with
  | Some _ => ret tt
  | None => let! _ := appendChild innerDiv new_stub in ret tt
  end;;;
  set_stubEnsured true;;;
  console_log [VStr TAG; VStr "Stub structure verified/created successfully"].

(** The state [ensureStub] leaves when it changed the document into [d]
    after printing [logs]. *)
Definition ensured (d : dom) (logs : list entry) (s : state) : state :=
  State d true
    (console s ++ logs ++
     [Entry Log [VStr TAG; VStr "Stub structure verified/created successfully"]]).

Definition creating : entry :=
  Entry Log [VStr TAG; VStr "Creating stub header element"].

(** Where [ensureStub] puts a header it has created: first in the body,
    else last in the document element, else nowhere; with the document
    that results and the reference to the header. *)
Definition place_header (x : node) (d : dom) : dom * nref :=
  match body d with
  | Some b => (update d b (Guard.insert_child 0 x), child_ref b 0)
  | None =>
      match documentElement d with
      | Some r =>
          let n := match deref d r with
                   | Some k => length (children k)
                   | None => 0
                   end in
          (update d r (Guard.insert_child n x), child_ref r n)
      | None =>
          (Dom (document d) (detached d ++ [x]),
           NRef Detached [length (detached d)])
      end
  end.

(** The guarded selector, read. *)
Definition SEL_parsed : Css.selector :=
  [Css.Complex [Css.STag "div"]
     [(Css.Child, [Css.SClass "container"]);
      (Css.Descendant, [Css.SId HEADER_ID])]].

(** What [safeWrap] turns a global into. *)
Definition wrapped (name : string) (g : global) : global :=
  match g with
  | GFun f => GFun (safeWrap f name)
  | GVal _ => g
  end.

(** *** Example documents *)

Definition el (tag ident : string) (classes : list string) (ks : list node) : node :=
  Element (Attrs tag ident classes "" [] None) ks.

(** An empty page: [<html><head></head><body></body></html>]. *)
Definition empty_page : dom :=
  Dom [el "html" "" [] [el "head" "" [] []; el "body" "" [] []]] [].

(** A page whose own header holds two [.container > div] elements. *)
Definition two_divs : dom :=
  Dom [el "html" "" []
         [el "body" "" []
            [el "div" HEADER_ID []
               [el "div" "" ["container"]
                  [el "div" "" [] [Text "a"]; el "div" "" [] [Text "b"]]]]]] [].

(** The empty page after the guard has run once. *)
Definition guarded_state : state := (ensureStub (State empty_page false [])).2.

(** The container of the stub on that page. *)
Definition stub_container : nref := NRef InDocument [0; 1; 0; 0].

Definition stub_header : nref := NRef InDocument [0; 1; 0].

(** The container with its two levels as [ensureStub] builds them. *)
Definition full_container : node :=
  Guard.insert_child 0 (Guard.insert_child 0 new_stub new_innerDiv) new_container.

(** That page after its stub container, or its stub header, was removed. *)
Definition without_container : state :=
  set_doc (remove stub_container (doc guarded_state)) guarded_state.

Definition without_header : state :=
  set_doc (remove stub_header (doc guarded_state)) guarded_state.

(** A page with [<span>Join session</span>] in its body. *)
Definition span_page : dom :=
  Dom [el "html" "" [] [el "body" "" [] [el "span" "" [] [Text "Join session"]]]] [].

(** A page with [<button>Join session</button>] in its body. *)
Definition button_page : dom :=
  Dom [el "html" "" [] [el "body" "" [] [el "button" "" [] [Text "Join session"]]]] [].

Definition first_in_body : nref := NRef InDocument [0; 0; 0].

(** A page on which only the click guard is installed. *)
Definition click_guarded (d : dom) : page :=
  Page (State d false []) Complete ∅ None false false [JoinSessionClick] [] [] [] [] false.

(** A page on which no script has run yet. *)
Definition blank (d : dom) (r : ready) : page :=
  Page (State d false []) r ∅ None false false [] [] [] [] [] false.




(** The state and the log line with which [safeWrap] answers a throw. *)
Definition caught (name : string) (err : value) (s : state) : state :=
  State (doc s) (stubEnsured s)
    (console s ++ [Entry Warn [VStr TAG; VStr ("Caught error in " +:+ name +:+ ":"); err]]).

(** The state after [logs] were printed. *)
Definition logged (logs : list entry) (s : state) : state :=
  State (doc s) (stubEnsured s) (console s ++ logs).

Definition warned (args : list value) (s : state) : state :=
  State (doc s) (stubEnsured s) (console s ++ [Entry Warn args]).

(** A page whose own header holds a [div] below its [.container], but not
    as a child of it. *)
Definition nested_div : dom :=
  Dom [el "html" "" []
         [el "body" "" []
            [el "div" HEADER_ID []
               [el "div" "" ["container"] [el "section" "" [] [el "div" "" [] []]]]]]] [].

(** A document without a document element. *)
Definition no_root : dom := Dom [] [].

(** A page on which an element named [getElementById] shadows that method
    of [document]: calling it throws. *)
Definition shadowed_lookup (c : host_call) : option value :=
  match c with
  | GetElementById => Some (VError "TypeError" "document.getElementById is not a function")
  | _ => None
  end.

(** The state in which the [catch] of [ensureStub] leaves [s]. *)
Definition failed (err : value) (s : state) : state :=
  State (doc s) (stubEnsured s)
    (console s ++ [Entry Warn [VStr TAG; VStr "ensureStub error (will retry):"; err]]).

(** [c] does what [c'] does as far as the broken calls let it: a run of
    [c] that ends normally is the run of [c'], and an exception of [c] is
    the one of a broken call unless [c'] throws as well. *)
Definition follows (faults : host_call -> option value) {A} (c c' : M A) : Prop :=
  forall s,
    match c s with
    | (Normal a, s') => c' s = (Normal a, s')
    | (Throw e, _) =>
        (exists k, faults k = Some e) \/ exists e' s'', c' s = (Throw e', s'')
    end.

(** [s'] is [s] after insertions into the document and lines on the
    console, the flag left alone. *)
Definition grown (s s' : state) : Prop :=
  stubEnsured s' = stubEnsured s /\
  (exists logs, console s' = console s ++ logs) /\
  dom_extends (doc s) (doc s').

(** [c] only inserts and prints, however it ends. *)
Definition steady {A} (c : M A) : Prop := forall s, grown s (c s).2.

(** [c] has only inserted and printed when it throws. *)
Definition steady_throw {A} (c : M A) : Prop :=
  forall s e s', c s = (Throw e, s') -> grown s s'.



End Spec.

Module RedirectSpec.
Import Redirect.

(** Every byte of [s] passes [P]. *)
Fixpoint all_chars (P : ascii -> bool) (s : string) : bool :=
  match s with
  | EmptyString => true
  | String c rest => P c && all_chars P rest
  end.

Definition is_not (x : ascii) (c : ascii) : bool := negb (Ascii.eqb c x).

(** The bytes the serializer writes for a name or a value: none of them
    separates pairs, names from values, or parts of an address. *)
Definition plain (c : ascii) : bool :=
  is_not "&" c && is_not "=" c && is_not "?" c && is_not "#" c.

(** An origin has no query and no fragment. *)
Definition origin_like (s : string) : bool :=
  all_chars (is_not "?") s && all_chars (is_not "#") s.

(** One serialized pair. *)
Definition pair_text (k v : string) : string := encode k +:+ "=" +:+ encode v.

Definition in_range (lo hi : nat) (c : ascii) : bool :=
  Nat.leb lo (nat_of_ascii c) && Nat.leb (nat_of_ascii c) hi.

(** The byte sequences that are the UTF-8 text of a string.  A string of
    the scripts is given by these bytes, so it holds no lone surrogate:
    the text of one has three bytes that begin with 237 and go on with 160
    or more, which is not UTF-8. *)
Fixpoint well_formed (s : string) : bool :=
  match s with
  | EmptyString => true
  | String c rest =>
      let n := nat_of_ascii c in
      if Nat.leb n 127 then well_formed rest
      else if in_range 194 223 c then
        match rest with
        | String c1 rest1 => in_range 128 191 c1 && well_formed rest1
        | EmptyString => false
        end
      else if in_range 224 239 c then
        match rest with
        | String c1 (String c2 rest2) =>
            (if Nat.eqb n 224 then in_range 160 191 c1
             else if Nat.eqb n 237 then in_range 128 159 c1
             else in_range 128 191 c1) &&
            in_range 128 191 c2 && well_formed rest2
        | _ => false
        end
      else if in_range 240 244 c then
        match rest with
        | String c1 (String c2 (String c3 rest3)) =>
            (if Nat.eqb n 240 then in_range 144 191 c1
             else if Nat.eqb n 244 then in_range 128 143 c1
             else in_range 128 191 c1) &&
            in_range 128 191 c2 && in_range 128 191 c3 && well_formed rest3
        | _ => false
        end
      else false
  end.

Definition well_formed_option (v : option string) : bool :=
  match v with Some x => well_formed x | None => true end.

(** A URL constructor for the examples: with the origin of the example
    page as base it gives the address of the path on that origin; with
    any other base it throws here, as the constructor of the browser does
    with the origin [null] of a page that has an opaque origin. *)
Definition example_URL (path base : string) : Js.completion URL :=
  if String.eqb base "https://app.example.com"
  then Js.Normal (MkURL base path [])
  else Js.Throw (Js.VError "TypeError" "Invalid URL").

Definition example_window : window :=
  Window "https://app.example.com" "https://app.example.com/caregiver?id=7" [] [].

End RedirectSpec.

(** * Events on a guarded page *)

Module Events.
Import Dom Js Guard Spec.

(** What happens on a page once the script has run: the browser calls one
    of the callbacks the script handed to it, the observer is given a
    batch of records, or other code changes the document. *)
Inductive event :=
| Calls (c : callback) (target : option nref)
| Observes (ms : list mutation)
| Changes (change : dom -> dom).

Definition after (p : page) (e : event) : page :=
  match e with
  | Calls c target => call c target p
  | Observes ms => run (observer_callback ms) p
  | Changes change => with_st p (set_doc (change (doc (st p))) (st p))
  end.

Definition after_all (p : page) (es : list event) : page := foldl after p es.

(** Events in which no other code changes the document. *)
Definition own (e : event) : bool :=
  match e with Changes _ => false | _ => true end.

(** A state reached from [s] by calls of [ensureStub] and by printing. *)
Inductive guarded_from (s : state) : state -> Prop :=
| guarded_ensure s0 logs :
    doc s0 = doc s -> guarded_from s (logged logs (ensureStub s0).2)
| guarded_again s1 s0 logs :
    guarded_from s s1 -> doc s0 = doc s1 ->
    guarded_from s (logged logs (ensureStub s0).2).

(** Either nothing but printing happened, or [ensureStub] ran. *)
Definition quiet_or_guarded (s s' : state) : Prop :=
  (exists logs, s' = logged logs s) \/ guarded_from s s'.

(** The last line [init] prints. *)
Definition complete : list value := [VStr TAG; VStr "Guard initialization complete"].

(** [document.body] is there. *)
Definition has_body (d : dom) : bool :=
  match body d with Some _ => true | None => false end.

(** What the script prints on a page that has no header and none of the
    listed functions yet; [with_body] tells whether the document has a
    body once the script is through. *)
Definition line (text : string) : entry := Entry Log [VStr TAG; VStr text].

Definition transcript (r : ready) (with_body : bool) : list entry :=
  [line "Initializing Enhanced Legacy Notif Guard v4...";
   line "Creating stub header element";
   line "Stub structure verified/created successfully";
   line "Join session guard installed"] ++
  match r with
  | Loading => []
  | _ =>
      line "Stub structure verified/created successfully" ::
      (if with_body then [line "Mutation observer activated"] else [])
  end ++
  [line "Guard initialization complete"].

(** A page with a link to a meeting in its body. *)
Definition zoom_link_page : dom :=
  Dom [el "html" "" []
         [el "body" "" []
            [Element (Attrs "a" "" [] "" [("href", "https://zoom.us/j/1")]
                        (Some "https://zoom.us/j/1")) [Text "Open"]]]] [].

End Events.

(** * The meeting page: what its properties speak about *)

Module MeetingSpec.
Import Dom Js Guard.

(** One pass over a tree: every element that [m] accepts, seen with its
    ancestors, has its attributes changed by [h]. *)
Fixpoint restyle (m : list attrs -> attrs -> bool) (h : attrs -> attrs)
  (anc : list attrs) (n : node) : node :=
  match n with
  | Text _ => n
  | Element a ks =>
      Element (if m anc a then h a else a) (map (restyle m h (a :: anc)) ks)
  end.

Definition container_id : string := "zoom-meeting-container".

(** The selector of [hideLoadingSpinner], read. *)
Definition spinner_selector : Css.selector :=
  [Css.Complex [Css.SClass "spinner"] [];
   Css.Complex [Css.SClass "loading-spinner"] [];
   Css.Complex [Css.SAttr "data-loading"] []].

Definition is_spinner (a : attrs) : bool :=
  existsb (String.eqb "spinner") (classList a) ||
  existsb (String.eqb "loading-spinner") (classList a) ||
  match Css.assoc "data-loading" (attributes a) with Some _ => true | None => false end.

(** The document with every spinner hidden and nothing else changed. *)
Definition hidden (with_display : string -> string -> string) (d : dom) : dom :=
  Dom (map (restyle (fun _ => is_spinner) (MeetingPage.hide with_display) []) (document d))
    (detached d).

(** The pass over one tree. *)
Definition pass (with_display : string -> string -> string) : node -> node :=
  restyle (fun _ => is_spinner) (MeetingPage.hide with_display) [].

(** The attributes of an element after [hideLoadingSpinner]. *)
Definition restyled (with_display : string -> string -> string) (a : attrs) : attrs :=
  if is_spinner a then MeetingPage.hide with_display a else a.

(** A page with the container and a spinner in it, as the integration
    guide gives it. *)
Definition meeting_document : dom :=
  Dom [Spec.el "html" "" []
         [Spec.el "head" "" [] [];
          Spec.el "body" "" []
            [Spec.el "div" "zoom-meeting-container" []
               [Spec.el "div" "" ["loading-spinner"]
                  [Spec.el "div" "" ["spinner"] [];
                   Spec.el "p" "" [] [Text "Loading your meeting..."]]]]]] [].

(** The same page without the container. *)
Definition bare_document : dom :=
  Dom [Spec.el "html" "" []
         [Spec.el "head" "" [] [];
          Spec.el "body" "" [] [Spec.el "div" "" ["spinner"] []]]] [].

Definition meeting_container : nref := NRef InDocument [0; 1; 0].

(** The container holds the iframe of [url] and nothing else. *)
Definition showing (c : nref) (url : string) (s : state) : Prop :=
  getElementById container_id (doc s) = Some c /\
  exists a, deref (doc s) c = Some (Element a [MeetingPage.new_iframe url]).

(** The state after the three lines the script prints first. *)
Definition opening (meetingUrl sessionId : option string) (s : state) : state :=
  (console_log [VStr MeetingPage.TAG; VStr "Session ID:"; Redirect.show sessionId]
     (console_log [VStr MeetingPage.TAG; VStr "Meeting URL:"; Redirect.show meetingUrl]
        (console_log [VStr MeetingPage.TAG; VStr "Initializing meeting page..."] s).2).2).2.

(** That page, still loading, opened at an address with a meeting. *)
Definition meeting_page : MeetingPage.page :=
  MeetingPage.Page (State meeting_document false []) Loading
    "?meetingUrl=https%3A%2F%2Fzoom.us%2Fj%2F1" [] None.

(** A stand-in for the browser's parser and style handling. *)
Definition as_text (markup : string) : list node := [Text markup].

Definition display_only (value _ : string) : string := "display: " +:+ value +:+ ";".

End MeetingSpec.

(** * The redirect and the button: what their properties speak about *)

Module JoinSpec.
Import Dom Js Redirect.

(** The parameters [handleJoinSession] writes. *)
Definition written (url : string) (sid : option string) : list (string * string) :=
  ("meetingUrl", url) ::
  match sid with
  | Some x => if truthy sid then [("sessionId", x)] else []
  | None => []
  end.

(** The lines every call of [handleJoinSession] prints first. *)
Definition entry_lines (url sid : option string) : list Js.entry :=
  [Js.Entry Js.Log [Js.VStr TAG; Js.VStr "Join session clicked"];
   Js.Entry Js.Log [Js.VStr TAG; Js.VStr "Zoom URL:"; show url];
   Js.Entry Js.Log [Js.VStr TAG; Js.VStr "Session ID:"; show sid]].

Definition no_address : string :=
  "Unable to start meeting: No meeting URL found. Please contact support.".

Definition not_found : string :=
  "Unable to start meeting: Meeting URL not found. Please contact support.".

(** The test of the selector [[data-zoom-url]]. *)
Definition has_data (a : attrs) : bool :=
  match Css.assoc "data-zoom-url" (attributes a) with Some _ => true | None => false end.

(** A caregiver page: a block with the meeting address in a data
    attribute, here empty, a link to a meeting and a button. *)
Definition caregiver_document (address : string) : dom :=
  Dom [Spec.el "html" "" []
         [Spec.el "body" "" []
            [Element (Attrs "div" "" [] "" [("data-zoom-url", address)] None) [];
             Element (Attrs "a" "" [] "" [("href", "https://zoom.us/j/9")]
                        (Some "https://zoom.us/j/9")) [Text "Zoom"];
             Element (Attrs "button" "" [] "" [("data-session-id", "s-42")] None)
               [Text "Join Session"]]]] [].

Definition the_button : nref := NRef InDocument [0; 0; 2].

Definition caregiver_page (address : string) : JoinSession.page :=
  JoinSession.Page RedirectSpec.example_window (caregiver_document address) None.

End JoinSpec.

(** * Facts about the document tree *)

Module DomFacts.
Import Dom Spec.

Lemma insert_child_keeps i c : keeps_attrs (Guard.insert_child i c).
Proof. intros [a ks|s]; reflexivity. Qed.

Lemma update_at_keeps p g : keeps_attrs g -> keeps_attrs (update_at p g).
Proof.
  intros Hg. destruct p as [|i p]; [exact Hg|].
  intros [a ks|s]; reflexivity.
Qed.

Lemma update_at_app p q g n :
  update_at (p ++ q) g n = update_at p (update_at q g) n.
Proof.
  revert n. induction p as [|i p IH]; intros n; [reflexivity|].
  destruct n as [a ks|s]; simpl; [|reflexivity].
  f_equal. apply list_alter_ext; auto.
Qed.

Lemma get_at_update p g n :
  get_at p (update_at p g n) = g <$> get_at p n.
Proof.
  revert n. induction p as [|i p IH]; intros n; [reflexivity|].
  destruct n as [a ks|s]; simpl; [|reflexivity].
  rewrite list_lookup_alter_eq. destruct (ks !! i) as [k|]; simpl; [apply IH|reflexivity].
Qed.

Lemma get_at_app p q n :
  get_at (p ++ q) n = get_at p n ≫= get_at q.
Proof.
  revert n. induction p as [|i p IH]; intros n; [reflexivity|].
  simpl. destruct (children n !! i); simpl; [apply IH|reflexivity].
Qed.

Lemma fget_app p q f :
  p <> [] -> fget (p ++ q) f = fget p f ≫= get_at q.
Proof.
  destruct p as [|i p]; [congruence|]. intros _. simpl.
  destruct (f !! i); simpl; [apply get_at_app|reflexivity].
Qed.

Lemma fget_update p g f :
  fget p (fupdate p g f) = g <$> fget p f.
Proof.
  destruct p as [|i p]; [reflexivity|]. simpl.
  rewrite list_lookup_alter_eq. destruct (f !! i); simpl; [apply get_at_update|reflexivity].
Qed.

Lemma fupdate_app p q g f :
  p <> [] -> fupdate (p ++ q) g f = fupdate p (update_at q g) f.
Proof.
  destruct p as [|i p]; [congruence|]. intros _. simpl.
  apply list_alter_ext; intros; auto using update_at_app.
Qed.

(** *** first_in *)

Lemma first_in_None find ks i :
  first_in find ks i = None <-> Forall (fun k => find k = None) ks.
Proof.
  revert i. induction ks as [|k ks IH]; intros i; simpl.
  - split; auto.
  - destruct (find k) eqn:E.
    + split; [discriminate|]. intros H. inversion H; congruence.
    + rewrite IH. split; [intros; constructor; auto|]. intros H; inversion H; auto.
Qed.

Lemma first_in_Some find ks i p :
  first_in find ks i = Some p <->
  exists j k q, p = (i + j) :: q /\ ks !! j = Some k /\ find k = Some q /\
    Forall (fun k' => find k' = None) (take j ks).
Proof.
  revert i p. induction ks as [|k ks IH]; intros i p; simpl.
  - split; [discriminate|]. intros (j & k & q & _ & H & _). discriminate.
  - destruct (find k) as [q0|] eqn:E.
    + split.
      * intros [= <-]. exists 0, k, q0. rewrite Nat.add_0_r. repeat split; auto.
      * intros (j & k' & q & -> & Hk & Hq & Hno). destruct j as [|j].
        -- simpl in Hk. injection Hk as <-. rewrite Nat.add_0_r.
           rewrite E in Hq. injection Hq as ->. reflexivity.
        -- simpl in Hno. inversion Hno as [|? ? Hk0 ?]; subst.
           rewrite E in Hk0. discriminate.
    + rewrite IH. split.
      * intros (j & k' & q & -> & Hk & Hq & Hno). exists (S j), k', q.
        repeat split; auto; [f_equal; lia|]. simpl. constructor; auto.
      * intros (j & k' & q & -> & Hk & Hq & Hno). destruct j as [|j].
        -- simpl in Hk. injection Hk as <-. rewrite E in Hq. discriminate.
        -- exists j, k', q. simpl in Hno. inversion Hno; subst.
           repeat split; auto. f_equal; lia.
Qed.

Lemma first_in_app find ks ks' i :
  first_in find (ks ++ ks') i =
  match first_in find ks i with
  | Some p => Some p
  | None => first_in find ks' (i + length ks)
  end.
Proof.
  revert i. induction ks as [|k ks IH]; intros i; simpl.
  - rewrite Nat.add_0_r. reflexivity.
  - destruct (find k); [reflexivity|]. rewrite IH.
    replace (S i + length ks) with (i + S (length ks)) by lia. reflexivity.
Qed.

(** A search that succeeded in tree [j] succeeds there after that tree
    alone is changed, when it still succeeds in the changed tree. *)
Lemma first_in_alter find ks i j q q' h k :
  first_in find ks i = Some ((i + j) :: q) ->
  ks !! j = Some k -> find (h k) = Some q' ->
  first_in find (alter h j ks) i = Some ((i + j) :: q').
Proof.
  intros H Hk Hq'. apply first_in_Some in H as (j0 & k0 & q0 & Heq & Hk0 & Hq0 & Hno).
  assert (j0 = j) as -> by (injection Heq; lia).
  apply first_in_Some. exists j, (h k), q'. repeat split; auto.
  - rewrite list_lookup_alter_eq, Hk. reflexivity.
  - rewrite take_alter_ge by lia. exact Hno.
Qed.

Lemma first_in_index find ks i p :
  first_in find ks i = Some p -> exists j q, p = (i + j) :: q /\ j < length ks.
Proof.
  intros H. apply first_in_Some in H as (j & k & q & -> & Hk & _).
  exists j, q. split; auto. eapply lookup_lt_Some; eauto.
Qed.

(** *** first_match *)

Lemma first_match_nil m anc n :
  first_match m anc n = Some [] <->
  exists a ks, n = Element a ks /\ m anc a = true.
Proof.
  destruct n as [a ks|s]; simpl.
  - destruct (m anc a) eqn:E.
    + split; eauto.
    + split.
      * intros H. apply first_in_index in H as (j & q & [=] & _).
      * intros (a' & ks' & [= <- <-] & H). congruence.
  - split; [discriminate|]. intros (a & ks & [=] & _).
Qed.

Lemma first_match_cons m anc n i p :
  first_match m anc n = Some (i :: p) <->
  exists a ks, n = Element a ks /\ m anc a = false /\
    first_in (first_match m (a :: anc)) ks 0 = Some (i :: p).
Proof.
  destruct n as [a ks|s]; simpl.
  - destruct (m anc a) eqn:E.
    + split; [discriminate|]. intros (a' & ks' & [= <- <-] & H & _). congruence.
    + split; eauto. intros (a' & ks' & [= <- <-] & _ & H). exact H.
  - split; [discriminate|]. intros (a & ks & [=] & _).
Qed.

(** The first match stays where it is when only the subtree at or below
    it is changed. *)
Lemma first_match_update m anc n p q g :
  keeps_attrs g ->
  first_match m anc n = Some p ->
  first_match m anc (update_at (p ++ q) g n) = Some p.
Proof.
  intros Hg. revert anc n. induction p as [|i p IH]; intros anc n H.
  - apply first_match_nil in H as (a & ks & -> & Hm). apply first_match_nil.
    pose proof (update_at_keeps q g Hg (Element a ks)) as Ha.
    destruct (update_at ([] ++ q) g (Element a ks)) as [a' ks'|s] eqn:E;
      simpl in E; rewrite E in Ha; simpl in Ha; [|discriminate].
    injection Ha as ->. eauto.
  - apply first_match_cons in H as (a & ks & -> & Hm & Hin).
    apply first_match_cons. exists a, (alter (update_at (p ++ q) g) i ks).
    repeat split; auto.
    pose proof Hin as Hin'. apply first_in_Some in Hin' as (j & k & q0 & [= -> ->] & Hk & Hq & _).
    apply (first_in_alter _ ks 0 j q0 q0 _ k); auto.
Qed.

Lemma first_in_update m anc f p q g :
  keeps_attrs g ->
  first_in (first_match m anc) f 0 = Some p ->
  first_in (first_match m anc) (fupdate (p ++ q) g f) 0 = Some p.
Proof.
  intros Hg H. pose proof H as H'.
  apply first_in_Some in H' as (j & k & q0 & -> & Hk & Hq & _). simpl.
  apply (first_in_alter _ f 0 j q0 q0 _ k); auto.
  apply first_match_update; auto.
Qed.

(** A selector that looks at the element alone finds the same whatever the
    ancestors are. *)
Lemma first_match_ext m m' anc anc' n :
  (forall x y a, m x a = m' y a) ->
  first_match m anc n = first_match m' anc' n.
Proof.
  intros Hm. revert anc anc'. induction n as [a ks IH|s] using node_induction; intros anc anc'; simpl; [|reflexivity].
  rewrite (Hm anc anc' a). destruct (m' anc' a); [reflexivity|].
  generalize 0. induction IH as [|k ks Hk _ IHks]; intros i; simpl; [reflexivity|].
  rewrite (Hk (a :: anc) (a :: anc')). destruct (first_match m' (a :: anc') k); auto.
Qed.

Lemma first_in_ext m m' anc anc' ks i :
  (forall x y a, m x a = m' y a) ->
  first_in (first_match m anc) ks i = first_in (first_match m' anc') ks i.
Proof.
  intros Hm. revert i. induction ks as [|k ks IH]; intros i; simpl; [reflexivity|].
  rewrite (first_match_ext m m' anc anc' k Hm).
  destruct (first_match m' anc' k); auto.
Qed.

Lemma update_at_ext p g1 g2 n :
  (forall x, get_at p n = Some x -> g1 x = g2 x) ->
  update_at p g1 n = update_at p g2 n.
Proof.
  revert n. induction p as [|i p IH]; intros n H; simpl; [apply H; reflexivity|].
  destruct n as [a ks|s]; [|reflexivity]. f_equal.
  apply list_alter_ext; [|reflexivity]. intros k Hk. apply IH.
  intros x Hx. apply H. simpl. rewrite Hk. exact Hx.
Qed.

Lemma fupdate_ext p g1 g2 f :
  (forall x, fget p f = Some x -> g1 x = g2 x) ->
  fupdate p g1 f = fupdate p g2 f.
Proof.
  destruct p as [|i p]; intros H; simpl; [reflexivity|].
  apply list_alter_ext; [|reflexivity]. intros k Hk. apply update_at_ext.
  intros x Hx. apply H. simpl. rewrite Hk. exact Hx.
Qed.

Lemma update_at_compose p g1 g2 n :
  update_at p g1 (update_at p g2 n) = update_at p (fun x => g1 (g2 x)) n.
Proof.
  revert n. induction p as [|i p IH]; intros n; simpl; [reflexivity|].
  destruct n as [a ks|s]; [|reflexivity]. simpl. f_equal.
  rewrite list_alter_alter_eq. apply list_alter_ext; [|reflexivity].
  intros k _. apply IH.
Qed.

Lemma fupdate_compose p g1 g2 f :
  fupdate p g1 (fupdate p g2 f) = fupdate p (fun x => g1 (g2 x)) f.
Proof.
  destruct p as [|i p]; simpl; [reflexivity|].
  rewrite list_alter_alter_eq. apply list_alter_ext; [|reflexivity].
  intros k _. apply update_at_compose.
Qed.

Lemma first_match_None m anc a ks :
  first_match m anc (Element a ks) = None <->
  m anc a = false /\ first_in (first_match m (a :: anc)) ks 0 = None.
Proof.
  simpl. destruct (m anc a); split; try discriminate; intuition congruence.
Qed.

Lemma first_in_alter_None find ks i j k h q :
  first_in find ks i = None -> ks !! j = Some k -> find (h k) = Some q ->
  first_in find (alter h j ks) i = Some ((i + j) :: q).
Proof.
  intros Hn Hk Hq. apply first_in_Some. exists j, (h k), q.
  split; [reflexivity|]. split; [rewrite list_lookup_alter_eq, Hk; reflexivity|].
  split; [exact Hq|]. rewrite take_alter_ge by lia.
  apply Forall_take. apply first_in_None in Hn. exact Hn.
Qed.

(** A search that finds nothing finds a matching tree where it is put. *)
Lemma first_match_insert P anc n p a ks i ax xk :
  first_match (fun _ => P) anc n = None ->
  get_at p n = Some (Element a ks) -> i <= length ks -> P ax = true ->
  first_match (fun _ => P) anc (update_at p (Guard.insert_child i (Element ax xk)) n)
  = Some (p ++ [i]).
Proof.
  intros Hn Hg Hi HP. revert anc n Hn Hg. induction p as [|j p IH]; intros anc n Hn Hg.
  - simpl in Hg. injection Hg as ->. apply first_match_None in Hn as [Hm Hks].
    simpl. rewrite Hm, first_in_app.
    assert (first_in (first_match (fun _ => P) (a :: anc)) (take i ks) 0 = None) as ->.
    { apply first_in_None, Forall_take. apply first_in_None in Hks. exact Hks. }
    simpl. rewrite HP, length_take. do 3 f_equal. lia.
  - destruct n as [a' ks'|s]; [|discriminate]. simpl in Hg.
    destruct (ks' !! j) as [k|] eqn:Hk; [|discriminate].
    apply first_match_None in Hn as [Hm Hks]. simpl. rewrite Hm.
    apply (first_in_alter_None _ ks' 0 j k); auto.
    apply IH; auto.
    apply first_in_None in Hks. eapply Forall_lookup_1 in Hks; eauto.
Qed.

Lemma first_in_insert P f p a ks i ax xk :
  first_in (first_match (fun _ => P) []) f 0 = None ->
  fget p f = Some (Element a ks) -> i <= length ks -> P ax = true ->
  first_in (first_match (fun _ => P) [])
    (fupdate p (Guard.insert_child i (Element ax xk)) f) 0 = Some (p ++ [i]).
Proof.
  intros Hn Hg Hi HP. destruct p as [|j p]; [discriminate|]. simpl in Hg.
  destruct (f !! j) as [k|] eqn:Hk; [|discriminate]. simpl.
  apply (first_in_alter_None _ f 0 j k); auto.
  eapply first_match_insert; eauto.
  apply first_in_None in Hn. eapply Forall_lookup_1 in Hn; eauto.
Qed.

(** *** all_matches *)

Lemma all_in_app F l1 l2 i :
  all_in F (l1 ++ l2) i = all_in F l1 i ++ all_in F l2 (i + length l1).
Proof.
  revert i. induction l1 as [|k l1 IH]; intros i; simpl.
  - rewrite Nat.add_0_r. reflexivity.
  - rewrite IH, <- app_assoc.
    replace (S i + length l1) with (i + S (length l1)) by lia. reflexivity.
Qed.

Lemma all_in_nil F ks i :
  Forall (fun k => F k = []) ks -> all_in F ks i = [].
Proof.
  intros H. revert i. induction H as [|k ks Hk _ IH]; intros i; simpl; [reflexivity|].
  rewrite Hk, IH. reflexivity.
Qed.

Lemma all_in_one F ks i j k h :
  Forall (fun k' => F k' = []) ks -> ks !! j = Some k ->
  all_in F (alter h j ks) i = map (cons (i + j)) (F (h k)).
Proof.
  intros H. revert i j. induction H as [|k0 ks Hk0 Hks IH]; intros i [|j] Hk;
    try discriminate; simpl in *.
  - injection Hk as ->. rewrite (all_in_nil F ks) by exact Hks.
    rewrite app_nil_r, Nat.add_0_r. reflexivity.
  - change (list_alter h j ks) with (alter h j ks).
    rewrite Hk0, (IH (S i) j Hk). simpl.
    replace (i + S j) with (S (i + j)) by lia. reflexivity.
Qed.

(** The first match is the head of all the matches. *)
Lemma first_match_head m anc n :
  first_match m anc n = head (all_matches m anc n).
Proof.
  revert anc. induction n as [a ks IH|s] using node_induction; intros anc; simpl; [|reflexivity].
  destruct (m anc a); [reflexivity|]. simpl.
  generalize 0. induction IH as [|k ks Hk _ IHks]; intros i; simpl; [reflexivity|].
  rewrite (Hk (a :: anc)).
  destruct (all_matches m (a :: anc) k) as [|q qs]; simpl; [apply IHks|reflexivity].
Qed.

Lemma first_in_head m anc ks i :
  first_in (first_match m anc) ks i = head (all_in (all_matches m anc) ks i).
Proof.
  revert i. induction ks as [|k ks IH]; intros i; simpl; [reflexivity|].
  rewrite first_match_head.
  destruct (all_matches m anc k) as [|q qs]; simpl; [apply IH|reflexivity].
Qed.

(** A selector that asks for an ancestor accepted by [P] matches nothing
    in a tree where [P] accepts nothing, and after a subtree is inserted
    there it matches inside that subtree only. *)
Section Needs.
Variable m : list attrs -> attrs -> bool.
Variable P : attrs -> bool.
Hypothesis needs :
  forall anc a, Forall (fun x => P x = false) anc -> m anc a = false.

Lemma all_matches_none anc anc0 n :
  Forall (fun x => P x = false) anc ->
  first_match (fun _ => P) anc0 n = None ->
  all_matches m anc n = [].
Proof.
  revert anc anc0. induction n as [a ks IH|s] using node_induction;
    intros anc anc0 Hanc Hn; simpl; [|reflexivity].
  apply first_match_None in Hn as [Hp Hks].
  rewrite (needs anc a Hanc). simpl.
  apply all_in_nil. apply first_in_None in Hks.
  rewrite Forall_forall in IH, Hks. apply Forall_forall. intros k Hk.
  eapply IH; eauto.
Qed.

Lemma all_in_none anc anc0 ks i :
  Forall (fun x => P x = false) anc ->
  first_in (first_match (fun _ => P) anc0) ks i = None ->
  all_in (all_matches m anc) ks i = [].
Proof.
  intros Hanc Hn. apply all_in_nil. apply first_in_None in Hn.
  eapply Forall_impl; [exact Hn|]. intros k Hk.
  exact (all_matches_none anc anc0 k Hanc Hk).
Qed.

Lemma all_matches_insert anc anc0 n p a ks i x :
  Forall (fun y => P y = false) anc ->
  first_match (fun _ => P) anc0 n = None ->
  get_at p n = Some (Element a ks) -> i <= length ks ->
  exists anc', Forall (fun y => P y = false) anc' /\
    all_matches m anc (update_at p (Guard.insert_child i x) n) =
    map (app (p ++ [i])) (all_matches m anc' x).
Proof.
  intros Hanc Hn Hg Hi. revert anc anc0 n Hanc Hn Hg.
  induction p as [|j p IH]; intros anc anc0 n Hanc Hn Hg.
  - simpl in Hg. injection Hg as ->. apply first_match_None in Hn as [Hp Hks].
    exists (a :: anc). split; [constructor; auto|].
    simpl. rewrite (needs anc a Hanc). simpl. rewrite all_in_app. simpl.
    apply first_in_None in Hks.
    rewrite (all_in_nil _ (take i ks)), (all_in_nil _ (drop i ks)).
    + rewrite app_nil_r, length_take. simpl.
      replace (i `min` length ks) with i by lia. reflexivity.
    + apply Forall_drop. eapply Forall_impl; [exact Hks|].
      intros k Hk. apply (all_matches_none (a :: anc) (a :: anc0) k); auto.
    + apply Forall_take. eapply Forall_impl; [exact Hks|].
      intros k Hk. apply (all_matches_none (a :: anc) (a :: anc0) k); auto.
  - destruct n as [a' ks'|s]; [|discriminate]. simpl in Hg.
    destruct (ks' !! j) as [k|] eqn:Hk; [|discriminate].
    apply first_match_None in Hn as [Hp Hks].
    pose proof Hks as Hks'. apply first_in_None in Hks'.
    destruct (IH (a' :: anc) (a' :: anc0) k) as (anc' & Hanc' & E); auto.
    { eapply Forall_lookup_1 in Hks'; eauto. }
    exists anc'. split; [exact Hanc'|].
    simpl. rewrite (needs anc a' Hanc). simpl.
    rewrite (all_in_one _ ks' 0 j k).
    + rewrite E, map_map. reflexivity.
    + eapply Forall_impl; [exact Hks'|].
      intros k' Hk'. apply (all_matches_none (a' :: anc) (a' :: anc0) k'); auto.
    + exact Hk.
Qed.

Lemma all_in_insert f p a ks i x :
  first_in (first_match (fun _ => P) []) f 0 = None ->
  fget p f = Some (Element a ks) -> i <= length ks ->
  exists anc', Forall (fun y => P y = false) anc' /\
    all_in (all_matches m []) (fupdate p (Guard.insert_child i x) f) 0 =
    map (app (p ++ [i])) (all_matches m anc' x).
Proof.
  intros Hn Hg Hi. destruct p as [|j p]; [discriminate|]. simpl in Hg.
  destruct (f !! j) as [k|] eqn:Hk; [|discriminate].
  pose proof Hn as Hn'. apply first_in_None in Hn'.
  destruct (all_matches_insert [] [] k p a ks i x) as (anc' & Hanc' & E); auto.
  { eapply Forall_lookup_1 in Hn'; eauto. }
  exists anc'. split; [exact Hanc'|]. simpl.
  rewrite (all_in_one _ f 0 j k).
  - rewrite E, map_map. reflexivity.
  - eapply Forall_impl; [exact Hn'|].
    intros k' Hk'. apply (all_matches_none [] [] k'); auto.
  - exact Hk.
Qed.
End Needs.

(** *** extends *)

Lemma extends_list_refl_from ks :
  Forall (fun k => extends k k) ks -> extends_list ks ks.
Proof. induction 1; constructor; auto. Qed.

Lemma extends_refl n : extends n n.
Proof.
  induction n as [a ks IH|s] using node_induction; constructor.
  apply extends_list_refl_from, IH.
Qed.

Lemma extends_list_refl ks : extends_list ks ks.
Proof. apply extends_list_refl_from, Forall_forall. intros; apply extends_refl. Qed.

Lemma extends_transitive :
  (forall a b, extends a b -> forall c, extends b c -> extends a c) /\
  (forall l1 l2, extends_list l1 l2 -> forall l3, extends_list l2 l3 -> extends_list l1 l3).
Proof.
  apply extends_mutual.
  - intros s c H. exact H.
  - intros a ks ks' _ IH c H. inversion H; subst. constructor. auto.
  - intros l3 H. exact H.
  - intros k k' ks ks' _ IHk _ IHl l3 H.
    remember (k' :: ks') as l2 eqn:E. revert E.
    induction H as [|k0 k0' ks0 ks0' Hk Hl _|k0' ks0 ks0' Hl IH]; intros E.
    + discriminate.
    + injection E as -> ->. apply extends_keep; auto.
    + apply extends_new. auto.
  - intros k' ks ks' _ IHl l3 H.
    remember (k' :: ks') as l2 eqn:E. revert E.
    induction H as [|k0 k0' ks0 ks0' Hk Hl _|k0' ks0 ks0' Hl IH]; intros E.
    + discriminate.
    + injection E as -> ->. apply extends_new. auto.
    + apply extends_new. auto.
Qed.

Lemma extends_list_trans l1 l2 l3 :
  extends_list l1 l2 -> extends_list l2 l3 -> extends_list l1 l3.
Proof. intros H1 H2. eapply (proj2 extends_transitive); eauto. Qed.

Lemma extends_list_insert ks i c :
  extends_list ks (take i ks ++ c :: drop i ks).
Proof.
  revert i. induction ks as [|k ks IH]; intros [|i]; simpl.
  - apply extends_new, extends_nil.
  - apply extends_new, extends_nil.
  - apply extends_new, extends_list_refl.
  - apply extends_keep; [apply extends_refl|apply IH].
Qed.

Lemma extends_list_snoc ks c : extends_list ks (ks ++ [c]).
Proof.
  induction ks as [|k ks IH]; simpl.
  - apply extends_new, extends_nil.
  - apply extends_keep; [apply extends_refl|apply IH].
Qed.

Lemma extends_list_alter h i ks :
  (forall k, extends k (h k)) -> extends_list ks (alter h i ks).
Proof.
  intros Hh. revert i. induction ks as [|k ks IH]; intros [|i]; simpl.
  - constructor.
  - constructor.
  - apply extends_keep; [apply Hh|apply extends_list_refl].
  - apply extends_keep; [apply extends_refl|apply IH].
Qed.

Lemma insert_child_extends i c n : extends n (Guard.insert_child i c n).
Proof.
  destruct n as [a ks|s]; simpl; constructor. apply extends_list_insert.
Qed.

Lemma update_at_extends p g n :
  (forall k, extends k (g k)) -> extends n (update_at p g n).
Proof.
  intros Hg. revert n. induction p as [|i p IH]; intros n; simpl; [apply Hg|].
  destruct n as [a ks|s]; constructor. apply extends_list_alter, IH.
Qed.

Lemma fupdate_extends p g f :
  (forall k, extends k (g k)) -> extends_list f (fupdate p g f).
Proof.
  intros Hg. destruct p as [|i p]; simpl; [apply extends_list_refl|].
  apply extends_list_alter. intros k. apply update_at_extends, Hg.
Qed.

Lemma dom_extends_trans d1 d2 d3 :
  dom_extends d1 d2 -> dom_extends d2 d3 -> dom_extends d1 d3.
Proof. intros [] []. split; eapply extends_list_trans; eauto. Qed.

Lemma update_extends d r g :
  (forall k, extends k (g k)) -> dom_extends d (update d r g).
Proof.
  intros Hg. destruct r as [[] p]; unfold update, dom_extends; simpl; split;
    solve [apply extends_list_refl | apply fupdate_extends, Hg].
Qed.

End DomFacts.

(** * Facts about the guard *)

Module GuardFacts.
Import Dom Js Guard Spec DomFacts.

#[local] Arguments String.eqb : simpl never.

(** ** References and updates *)

Lemma forest_set_same d s f : forest (set_forest d s f) s = f.
Proof. destruct s; reflexivity. Qed.

Lemma below_nil r : below r [] = r.
Proof. destruct r as [sp p]. unfold below; simpl. rewrite app_nil_r. reflexivity. Qed.

Lemma below_below r p q : below (below r p) q = below r (p ++ q).
Proof. unfold below; simpl. rewrite app_assoc. reflexivity. Qed.

Lemma child_ref_below r i : child_ref r i = below r [i].
Proof. reflexivity. Qed.

Lemma deref_update_below d r q g :
  deref (update d (below r q) g) r = update_at q g <$> deref d r.
Proof.
  destruct r as [sp p]. unfold deref, update, below; simpl.
  rewrite forest_set_same. destruct p as [|i p]; [reflexivity|].
  rewrite fupdate_app by discriminate. apply fget_update.
Qed.

Lemma deref_update_same d r g :
  deref (update d r g) r = g <$> deref d r.
Proof. rewrite <- (below_nil r) at 1. apply deref_update_below. Qed.

Lemma deref_below d r q :
  ref_path r <> [] -> deref d (below r q) = deref d r ≫= get_at q.
Proof. intros H. unfold deref, below; simpl. apply fget_app; auto. Qed.

Lemma update_id d r : update d r (fun n => n) = d.
Proof.
  destruct d as [doc0 det], r as [[] [|i p]]; unfold update; simpl; f_equal;
    apply list_alter_id; intros n; clear;
    revert n; induction p as [|j p IH]; intros n; simpl; auto;
    destruct n; auto; f_equal; apply list_alter_id; auto.
Qed.

(** ** The queries of ensureStub as searches *)


Lemma simple_container : simple_selector ".container" is_container.
Proof.
  exists [Css.Complex [Css.SClass "container"] []]. split; [reflexivity|].
  intros anc a. unfold is_container, Css.matches_selector, Css.matches_complex. simpl.
  destruct (existsb _ _); reflexivity.
Qed.

Lemma simple_div : simple_selector "div" is_div.
Proof.
  exists [Css.Complex [Css.STag "div"] []]. split; [reflexivity|].
  intros anc a. unfold is_div, Css.matches_selector, Css.matches_complex. simpl.
  destruct (String.eqb _ _); reflexivity.
Qed.

Lemma simple_header : simple_selector ("#" +:+ HEADER_ID) is_header.
Proof.
  exists [Css.Complex [Css.SId HEADER_ID] []]. split; [reflexivity|].
  intros anc a. unfold is_header, Css.matches_selector, Css.matches_complex. simpl.
  rewrite (String.eqb_sym (id a)). destruct (String.eqb _ _); reflexivity.
Qed.

Lemma getElementById_find d :
  getElementById HEADER_ID d = NRef InDocument <$> find is_header (document d).
Proof. reflexivity. Qed.

Lemma querySelector_in_simple text P anc n :
  simple_selector text P ->
  querySelector_in anc n text =
  match n with
  | Element a ks => Normal (find P ks)
  | Text _ => Throw dangling
  end.
Proof.
  intros (sel & Hp & Hm). unfold querySelector_in. rewrite Hp.
  destruct n as [a ks|s]; [|reflexivity]. f_equal.
  apply first_in_ext. intros; apply Hm.
Qed.

Lemma querySelector_simple text P r d :
  simple_selector text P ->
  querySelector r text d =
  match deref d r with
  | Some (Element a ks) => Normal (below r <$> find P ks)
  | _ => Throw dangling
  end.
Proof.
  intros Hs. unfold querySelector. destruct (deref d r) as [n|]; [|reflexivity].
  rewrite (querySelector_in_simple text P _ n Hs). destruct n; reflexivity.
Qed.

Lemma find_Some_cons P ks p : find P ks = Some p -> p <> [].
Proof. intros H. apply first_in_index in H as (j & q & -> & _). discriminate. Qed.

(** What a successful search has found. *)
Lemma first_match_get P anc n p :
  first_match (fun _ => P) anc n = Some p ->
  exists a ks, get_at p n = Some (Element a ks) /\ P a = true.
Proof.
  revert anc n. induction p as [|i p IH]; intros anc n H.
  - apply first_match_nil in H as (a & ks & -> & Hm). simpl. eauto.
  - apply first_match_cons in H as (a & ks & -> & Hm & Hin).
    apply first_in_Some in Hin as (j & k & q & [= -> ->] & Hk & Hq & _).
    simpl. rewrite Hk. eapply IH; eauto.
Qed.

Lemma find_get P ks p :
  find P ks = Some p -> exists a ks', fget p ks = Some (Element a ks') /\ P a = true.
Proof.
  intros H. apply first_in_Some in H as (j & k & q & -> & Hk & Hq & _).
  simpl. rewrite Hk. eapply first_match_get; eauto.
Qed.

Lemma getElementById_elem d h :
  getElementById HEADER_ID d = Some h ->
  exists a ks, deref d h = Some (Element a ks) /\ id a = HEADER_ID /\
    ref_space h = InDocument /\ ref_path h <> [].
Proof.
  rewrite getElementById_find. destruct (find is_header (document d)) as [p|] eqn:E; [|discriminate].
  intros [= <-]. pose proof (find_Some_cons _ _ _ E).
  apply find_get in E as (a & ks & Hg & Hid). exists a, ks. repeat split; auto.
  apply String.eqb_eq. exact Hid.
Qed.

Lemma querySelector_elem text P r d c :
  simple_selector text P ->
  querySelector r text d = Normal (Some c) ->
  exists q, c = below r q /\ q <> [] /\ is_elem d c /\ ref_path r <> [].
Proof.
  intros Hs. rewrite (querySelector_simple text P r d Hs).
  destruct (deref d r) as [[a ks|]|] eqn:E; try discriminate.
  destruct (find P ks) as [q|] eqn:F; [|discriminate].
  intros [= <-]. exists q. pose proof (find_Some_cons _ _ _ F) as Hq.
  assert (ref_path r <> []) as Hr.
  { destruct r as [sp [|]]; [discriminate|discriminate]. }
  repeat split; auto.
  apply find_get in F as (a' & ks' & Hg & _).
  exists a', ks'. rewrite deref_below, E by auto. simpl.
  destruct q as [|i q]; [congruence|]. exact Hg.
Qed.

(** ** Searches that survive an update below what they found *)

Lemma getElementById_update d h q g :
  keeps_attrs g ->
  getElementById HEADER_ID d = Some h ->
  getElementById HEADER_ID (update d (below h q) g) = Some h.
Proof.
  intros Hg. rewrite !getElementById_find.
  destruct (find is_header (document d)) as [p|] eqn:E; [|discriminate].
  intros [= <-]. unfold update, below; simpl.
  unfold find. rewrite first_in_update; auto.
Qed.

Lemma querySelector_update text P r d c q g :
  simple_selector text P -> keeps_attrs g ->
  querySelector r text d = Normal (Some c) ->
  querySelector r text (update d (below c q) g) = Normal (Some c).
Proof.
  intros Hs Hg. rewrite !(querySelector_simple text P r _ Hs).
  destruct (deref d r) as [[a ks|]|] eqn:E; try discriminate.
  destruct (find P ks) as [p|] eqn:F; [|discriminate].
  intros [= <-]. rewrite below_below, deref_update_below, E. simpl.
  pose proof (find_Some_cons _ _ _ F) as Hp. destruct p as [|i p]; [congruence|].
  simpl. change (alter (update_at (p ++ q) g) i ks) with (fupdate ((i :: p) ++ q) g ks).
  unfold find in *. rewrite first_in_update; auto.
Qed.

Lemma getElementById_update_same d h g :
  keeps_attrs g ->
  getElementById HEADER_ID d = Some h ->
  getElementById HEADER_ID (update d h g) = Some h.
Proof.
  intros Hg H. rewrite <- (below_nil h) at 1. apply getElementById_update; auto.
Qed.

Lemma querySelector_update_same text P r d c g :
  simple_selector text P -> keeps_attrs g ->
  querySelector r text d = Normal (Some c) ->
  querySelector r text (update d c g) = Normal (Some c).
Proof.
  intros Hs Hg H. rewrite <- (below_nil c) at 1.
  eapply querySelector_update; eauto.
Qed.

(** ** Running ensureStub *)

Lemma ensureStub_try_unfold s :
  ensureStub_try s =
  (let! found := query (fun d => Normal (getElementById HEADER_ID d)) in
   let! header :=
     match found with
     | Some h => ret h
     | None =>
         console_log [VStr TAG; VStr "Creating stub header element"];;;
         let! b := query (fun d => Normal (body d)) in
         match b with
         | Some b =>
             let! first := query (firstChild b) in
             insertBefore b new_header first
         | None =>
             let! root := query (fun d => Normal (documentElement d)) in
             match root with
             | Some root => appendChild root new_header
             | None => keep_detached new_header
             end
         end
     end in
   fill_header header) s.
Proof. reflexivity. Qed.

Lemma ensureStub_unfold s :
  ensureStub s =
  match ensureStub_try s with
  | (Normal _, s') => (true, s')
  | (Throw err, s') =>
      (false,
       State (doc s') (stubEnsured s')
         (console s' ++ [Entry Warn [VStr TAG; VStr "ensureStub error (will retry):"; err]]))
  end.
Proof. reflexivity. Qed.

(** When the chain is there, a call only sets the flag and logs. *)
Lemma ensureStub_try_chain s h c i l :
  stub_chain (doc s) = Some (h, c, i, l) ->
  ensureStub_try s = (Normal tt, ensured (doc s) [] s).
Proof.
  unfold stub_chain. intros H.
  destruct (getElementById HEADER_ID (doc s)) as [h0|] eqn:E1; [|discriminate].
  destruct (querySelector h0 ".container" (doc s)) as [[c0|]|] eqn:E2; try discriminate.
  destruct (querySelector c0 "div" (doc s)) as [[i0|]|] eqn:E3; try discriminate.
  destruct (lastChild i0 (doc s)) as [[l0|]|] eqn:E4; try discriminate.
  rewrite ensureStub_try_unfold. unfold fill_header, bind, query, ret.
  rewrite E1, E2, E3, E4.
  destruct s; reflexivity.
Qed.

Lemma set_doc_same s : set_doc (doc s) s = s.
Proof. destruct s; reflexivity. Qed.

Lemma appendChild_run parent fresh s a ks :
  deref (doc s) parent = Some (Element a ks) ->
  appendChild parent fresh s =
  (Normal (child_ref parent (length ks)),
   set_doc (update (doc s) parent (insert_child (length ks) fresh)) s).
Proof. intros H. unfold appendChild. rewrite H. reflexivity. Qed.

(** One level: look for the child, append a fresh one when there is none. *)
Lemma level_run {B} text P fresh af fk parent (k : nref -> M B) s :
  simple_selector text P -> fresh = Element af fk -> P af = true ->
  is_elem (doc s) parent ->
  exists q g, q <> [] /\ keeps_attrs g /\ (forall n, extends n (g n)) /\
    (let! found := query (querySelector parent text) in
     let! x := match found with
               | Some c => ret c
               | None => appendChild parent fresh
               end in
     k x) s = k (below parent q) (set_doc (update (doc s) parent g) s) /\
    querySelector parent text (update (doc s) parent g) = Normal (Some (below parent q)) /\
    is_elem (update (doc s) parent g) (below parent q).
Proof.
  intros Hs -> HP (a & ks & Hd).
  pose proof (querySelector_simple text P parent (doc s) Hs) as Hq. rewrite Hd in Hq.
  destruct (find P ks) as [q|] eqn:F.
  - exists q, (fun n => n). rewrite update_id, set_doc_same.
    pose proof (querySelector_elem text P parent (doc s) _ Hs Hq) as (q' & Hb & Hne & He & _).
    repeat split; auto.
    + eapply find_Some_cons; eauto.
    + intros n. apply extends_refl.
    + unfold bind, query, ret. rewrite Hq. reflexivity.
  - exists [length ks], (insert_child (length ks) (Element af fk)).
    assert (deref (update (doc s) parent (insert_child (length ks) (Element af fk))) parent
            = Some (Element a (ks ++ [Element af fk]))) as Hd'.
    { rewrite deref_update_same, Hd. simpl. rewrite take_ge, drop_ge by lia. reflexivity. }
    assert (find P (ks ++ [Element af fk]) = Some [length ks]) as F'.
    { unfold find in *. rewrite first_in_app, F. simpl. rewrite HP. reflexivity. }
    repeat split.
    + discriminate.
    + apply insert_child_keeps.
    + intros n. apply insert_child_extends.
    + unfold bind, query. rewrite Hq. simpl.
      rewrite (appendChild_run _ _ _ _ _ Hd). reflexivity.
    + rewrite (querySelector_simple text P _ _ Hs), Hd', F'. reflexivity.
    + assert (ref_path parent <> []) as Hp.
      { destruct parent as [sp [|]]; [discriminate|discriminate]. }
      exists af, fk. rewrite deref_below, Hd' by auto. simpl.
      rewrite list_lookup_middle by reflexivity. reflexivity.
Qed.

(** The last level: a last child is there or the stub is appended. *)
Lemma last_run {B} innerDiv (k : M B) s :
  is_elem (doc s) innerDiv ->
  exists g l, keeps_attrs g /\ (forall n, extends n (g n)) /\
    (let! last := query (lastChild innerDiv) in
     let! _ := match last with
               | Some _ => ret tt
               | None => let! _ := appendChild innerDiv new_stub in ret tt
               end in
     k) s = k (set_doc (update (doc s) innerDiv g) s) /\
    lastChild innerDiv (update (doc s) innerDiv g) = Normal (Some l).
Proof.
  intros (a & ks & Hd). destruct ks as [|k0 ks].
  - exists (insert_child 0 new_stub), (child_ref innerDiv 0).
    repeat split.
    + apply insert_child_keeps.
    + intros n. apply insert_child_extends.
    + unfold bind, query, lastChild. rewrite Hd. simpl.
      rewrite (appendChild_run _ _ _ _ _ Hd). reflexivity.
    + unfold lastChild. rewrite deref_update_same, Hd. reflexivity.
  - exists (fun n => n), (child_ref innerDiv (length ks)).
    rewrite update_id, set_doc_same. repeat split.
    + intros n. apply extends_refl.
    + unfold bind, query, lastChild, ret. rewrite Hd. reflexivity.
    + unfold lastChild. rewrite Hd. reflexivity.
Qed.

(** The three levels below a header that is an element. *)
Lemma fill_header_run h s :
  is_elem (doc s) h ->
  exists d' c i l,
    fill_header h s = (Normal tt, ensured d' [] s) /\
    dom_extends (doc s) d' /\
    querySelector h ".container" d' = Normal (Some c) /\
    querySelector c "div" d' = Normal (Some i) /\
    lastChild i d' = Normal (Some l) /\
    (getElementById HEADER_ID (doc s) = Some h ->
     getElementById HEADER_ID d' = Some h).
Proof.
  intros Hh. unfold fill_header.
  destruct (level_run ".container" is_container new_container _ _ h
              (fun container =>
                 let! found := query (querySelector container "div") in
                 let! innerDiv := match found with
                                  | Some i => ret i
                                  | None => appendChild container new_innerDiv
                                  end in
                 let! last := query (lastChild innerDiv) in
                 match last with
                 | Some _ => ret tt
                 | None => let! _ := appendChild innerDiv new_stub in ret tt
                 end;;;
                 set_stubEnsured true;;;
                 console_log [VStr TAG; VStr "Stub structure verified/created successfully"])
              s simple_container eq_refl eq_refl Hh)
    as (q1 & g1 & Hq1 & Hk1 & He1 & Hrun1 & Hc & Hce).
  rewrite Hrun1. clear Hrun1.
  set (s1 := set_doc (update (doc s) h g1) s) in *.
  destruct (level_run "div" is_div new_innerDiv _ _ (below h q1)
              (fun innerDiv =>
                 let! last := query (lastChild innerDiv) in
                 match last with
                 | Some _ => ret tt
                 | None => let! _ := appendChild innerDiv new_stub in ret tt
                 end;;;
                 set_stubEnsured true;;;
                 console_log [VStr TAG; VStr "Stub structure verified/created successfully"])
              s1 simple_div eq_refl eq_refl Hce)
    as (q2 & g2 & Hq2 & Hk2 & He2 & Hrun2 & Hi & Hie).
  rewrite Hrun2. clear Hrun2.
  set (s2 := set_doc (update (doc s1) (below h q1) g2) s1) in *.
  destruct (last_run (below (below h q1) q2)
              (set_stubEnsured true;;;
               console_log [VStr TAG; VStr "Stub structure verified/created successfully"])
              s2 Hie)
    as (g3 & l & Hk3 & He3 & Hrun3 & Hl).
  rewrite Hrun3. clear Hrun3.
  set (d1 := update (doc s) h g1) in *.
  set (d2 := update d1 (below h q1) g2) in *.
  set (d3 := update d2 (below (below h q1) q2) g3) in *.
  exists d3, (below h q1), (below (below h q1) q2), l.
  assert (doc s1 = d1) as E1 by reflexivity.
  assert (doc s2 = d2) as E2 by reflexivity.
  split; [|split; [|split; [|split; [|split]]]].
  - destruct s; reflexivity.
  - apply (dom_extends_trans _ d1); [apply update_extends, He1|].
    apply (dom_extends_trans _ d2); apply update_extends; assumption.
  - unfold d3.
    apply (querySelector_update ".container" is_container h d2 (below h q1) q2 g3
             simple_container Hk3).
    unfold d2.
    apply (querySelector_update_same ".container" is_container h d1 (below h q1) g2
             simple_container Hk2).
    exact Hc.
  - unfold d3.
    apply (querySelector_update_same "div" is_div (below h q1) d2 _ g3 simple_div Hk3).
    rewrite <- E2. exact Hi.
  - exact Hl.
  - intros Hg. unfold d3. rewrite below_below.
    apply getElementById_update; auto.
    unfold d2. apply getElementById_update; auto.
    unfold d1. apply getElementById_update_same; auto.
Qed.

(** ** A header that was just created

    [plug x] is the document with the tree [x] where the fresh header was
    put, and [h] refers to that place. *)

Section Fresh.
Variable plug : node -> dom.
Variable h : nref.
Hypothesis plug_deref : forall x q, deref (plug x) (below h q) = get_at q x.
Hypothesis plug_update :
  forall x q g, update (plug x) (below h q) g = plug (update_at q g x).

Lemma plug_query x q text P a :
  simple_selector text P -> get_at q x = Some (Element a []) ->
  querySelector (below h q) text (plug x) = Normal None.
Proof.
  intros Hs Hx. rewrite (querySelector_simple _ _ _ _ Hs), plug_deref, Hx.
  reflexivity.
Qed.

Lemma plug_append x q a fresh s :
  doc s = plug x -> get_at q x = Some (Element a []) ->
  appendChild (below h q) fresh s =
  (Normal (below h (q ++ [0])),
   set_doc (plug (update_at q (insert_child 0 fresh) x)) s).
Proof.
  intros Hdoc Hx.
  rewrite (appendChild_run _ _ _ a []) by (rewrite Hdoc, plug_deref; exact Hx).
  rewrite Hdoc, plug_update, child_ref_below, below_below. reflexivity.
Qed.

Lemma plug_lastChild_none x q a :
  get_at q x = Some (Element a []) ->
  lastChild (below h q) (plug x) = Normal None.
Proof. intros Hx. unfold lastChild. rewrite plug_deref, Hx. reflexivity. Qed.

Lemma fill_fresh s :
  doc s = plug new_header ->
  fill_header h s = (Normal tt, ensured (plug full_header) [] s).
Proof.
  intros Hdoc. rewrite <- (below_nil h). unfold fill_header, bind, query.
  rewrite Hdoc.
  rewrite (plug_query new_header [] ".container" is_container _ simple_container eq_refl).
  rewrite (plug_append new_header [] _ new_container s Hdoc eq_refl).
  cbn [doc set_doc app].
  set (h1 := update_at [] (insert_child 0 new_container) new_header).
  rewrite (plug_query h1 [0] "div" is_div _ simple_div eq_refl).
  rewrite (plug_append h1 [0] _ new_innerDiv (set_doc (plug h1) s) eq_refl eq_refl).
  cbn [doc set_doc app].
  set (h2 := update_at [0] (insert_child 0 new_innerDiv) h1).
  rewrite (plug_lastChild_none h2 [0; 0] _ eq_refl).
  rewrite (plug_append h2 [0; 0] _ new_stub
             (set_doc (plug h2) (set_doc (plug h1) s)) eq_refl eq_refl).
  destruct s; reflexivity.
Qed.

Lemma plug_query_found x q text P a ks p :
  simple_selector text P -> get_at q x = Some (Element a ks) ->
  find P ks = Some p ->
  querySelector (below h q) text (plug x) = Normal (Some (below h (q ++ p))).
Proof.
  intros Hs Hx Hf. rewrite (querySelector_simple _ _ _ _ Hs), plug_deref, Hx, Hf.
  simpl. rewrite below_below. reflexivity.
Qed.

Lemma plug_lastChild x q a k ks :
  get_at q x = Some (Element a (k :: ks)) ->
  lastChild (below h q) (plug x) = Normal (Some (below h (q ++ [length ks]))).
Proof.
  intros Hx. unfold lastChild. rewrite plug_deref, Hx. simpl.
  rewrite child_ref_below, below_below. reflexivity.
Qed.

(** The chain of the document with the full header in place. *)
Lemma chain_fresh :
  getElementById HEADER_ID (plug full_header) = Some h ->
  stub_chain (plug full_header) =
  Some (h, below h [0], below h [0; 0], below h [0; 0; 0]).
Proof.
  intros Hid. unfold stub_chain. rewrite Hid.
  assert (querySelector h ".container" (plug full_header)
          = Normal (Some (below h [0]))) as ->.
  { rewrite <- (below_nil h) at 1.
    eapply (plug_query_found full_header [] ".container" is_container _ _ [0]);
      [exact simple_container|reflexivity|reflexivity]. }
  erewrite (plug_query_found full_header [0] "div" is_div);
    [|exact simple_div|reflexivity|reflexivity].
  cbn [app].
  erewrite (plug_lastChild full_header [0; 0]); [|reflexivity].
  reflexivity.
Qed.

End Fresh.

(** ** Where a created header is put *)

Lemma deref_elem_path d r n : deref d r = Some n -> ref_path r <> [].
Proof. destruct r as [sp [|]]; [discriminate|discriminate]. Qed.

Lemma deref_inserted d r a ks i x q :
  deref d r = Some (Element a ks) -> i <= length ks ->
  deref (update d r (insert_child i x)) (below (child_ref r i) q) = get_at q x.
Proof.
  intros Hd Hi. rewrite child_ref_below, below_below.
  rewrite deref_below by (eapply deref_elem_path; eauto).
  rewrite deref_update_same, Hd. simpl.
  rewrite list_lookup_middle by (rewrite length_take; lia). reflexivity.
Qed.

Lemma set_forest_twice d sp f1 f2 :
  set_forest (set_forest d sp f1) sp f2 = set_forest d sp f2.
Proof. destruct sp; reflexivity. Qed.

Lemma update_inserted d r a ks i x q g :
  deref d r = Some (Element a ks) -> i <= length ks ->
  update (update d r (insert_child i x)) (below (child_ref r i) q) g =
  update d r (insert_child i (update_at q g x)).
Proof.
  intros Hd Hi. pose proof (deref_elem_path _ _ _ Hd) as Hp.
  rewrite child_ref_below, below_below. destruct r as [sp p]. unfold update, below; simpl.
  rewrite forest_set_same, set_forest_twice. f_equal.
  rewrite fupdate_app by exact Hp. rewrite fupdate_compose.
  apply fupdate_ext. intros n Hn. unfold deref in Hd; simpl in Hd.
  rewrite Hd in Hn. injection Hn as <-. simpl. f_equal.
  replace i with (length (take i ks) + 0) at 1 by (rewrite length_take; lia).
  rewrite alter_app_r. reflexivity.
Qed.

Lemma deref_detached_new d x q :
  deref (Dom (document d) (detached d ++ [x]))
    (below (NRef Detached [length (detached d)]) q) = get_at q x.
Proof.
  unfold deref, below; simpl.
  rewrite list_lookup_middle by reflexivity. reflexivity.
Qed.

Lemma update_detached_new d x q g :
  update (Dom (document d) (detached d ++ [x]))
    (below (NRef Detached [length (detached d)]) q) g =
  Dom (document d) (detached d ++ [update_at q g x]).
Proof.
  unfold update, below; simpl. f_equal.
  replace (length (detached d)) with (length (detached d) + 0) by lia.
  rewrite alter_app_r. reflexivity.
Qed.

Lemma first_element_Some ks i j :
  first_element ks i = Some j ->
  exists j0 a c, j = i + j0 /\ ks !! j0 = Some (Element a c).
Proof.
  revert i. induction ks as [|k ks IH]; intros i; simpl; [discriminate|].
  destruct k as [a c|s].
  - intros [= <-]. exists 0, a, c. split; [lia|reflexivity].
  - intros H. apply IH in H as (j0 & a & c & -> & Hk).
    exists (S j0), a, c. split; [lia|exact Hk].
Qed.

Lemma index_where_Some f ks i j :
  index_where f ks i = Some j ->
  exists j0 k, j = i + j0 /\ ks !! j0 = Some k /\ f k = true.
Proof.
  revert i. induction ks as [|k ks IH]; intros i; simpl; [discriminate|].
  destruct (f k) eqn:E.
  - intros [= <-]. exists 0, k. repeat split; auto; lia.
  - intros H. apply IH in H as (j0 & k' & -> & Hk & Hf).
    exists (S j0), k'. repeat split; auto; lia.
Qed.

Lemma documentElement_elem d r :
  documentElement d = Some r ->
  exists a ks, deref d r = Some (Element a ks) /\ ref_space r = InDocument.
Proof.
  unfold documentElement. destruct (first_element (document d) 0) as [j|] eqn:E; [|discriminate].
  intros [= <-]. apply first_element_Some in E as (j0 & a & c & -> & Hk).
  exists a, c. unfold deref; simpl. rewrite Hk. split; reflexivity.
Qed.

Lemma body_elem d b :
  body d = Some b ->
  exists a ks, deref d b = Some (Element a ks) /\ ref_space b = InDocument /\
    documentElement d <> None.
Proof.
  unfold body. destruct (documentElement d) as [r|] eqn:Er; [|discriminate].
  destruct (documentElement_elem d r Er) as (a & ks & Hd & Hsp). rewrite Hd.
  destruct (String.eqb (tagName a) "html"); [|discriminate].
  destruct (index_where is_body ks 0) as [j|] eqn:Ej; [|discriminate].
  intros [= <-]. apply index_where_Some in Ej as (j0 & k & -> & Hk & Hb).
  destruct k as [ab kb|s]; [|discriminate].
  exists ab, kb. rewrite child_ref_below, deref_below, Hd by (eapply deref_elem_path; eauto).
  simpl. rewrite Hk. repeat split; auto; discriminate.
Qed.

(** The place of a created header behaves as a hole that holds it. *)
Lemma place_header_ref x y d : (place_header x d).2 = (place_header y d).2.
Proof.
  unfold place_header. destruct (body d); [reflexivity|].
  destruct (documentElement d); reflexivity.
Qed.

Lemma place_header_deref d x q :
  deref (place_header x d).1 (below (place_header x d).2 q) = get_at q x.
Proof.
  unfold place_header. destruct (body d) as [b|] eqn:Eb.
  - destruct (body_elem d b Eb) as (a & ks & Hd & _). simpl.
    eapply deref_inserted; eauto. lia.
  - destruct (documentElement d) as [r|] eqn:Er.
    + destruct (documentElement_elem d r Er) as (a & ks & Hd & _). rewrite Hd. simpl.
      eapply deref_inserted; eauto.
    + simpl. apply deref_detached_new.
Qed.

Lemma place_header_update d x q g :
  update (place_header x d).1 (below (place_header x d).2 q) g =
  (place_header (update_at q g x) d).1.
Proof.
  unfold place_header. destruct (body d) as [b|] eqn:Eb.
  - destruct (body_elem d b Eb) as (a & ks & Hd & _). simpl.
    eapply update_inserted; eauto. lia.
  - destruct (documentElement d) as [r|] eqn:Er.
    + destruct (documentElement_elem d r Er) as (a & ks & Hd & _). rewrite Hd. simpl.
      eapply update_inserted; eauto.
    + simpl. apply update_detached_new.
Qed.

Lemma place_header_extends d x : dom_extends d (place_header x d).1.
Proof.
  unfold place_header. destruct (body d) as [b|].
  - apply update_extends. intros; apply insert_child_extends.
  - destruct (documentElement d) as [r|].
    + apply update_extends. intros; apply insert_child_extends.
    + split; simpl; [apply extends_list_refl|apply extends_list_snoc].
Qed.

(** A header put in a document that had none is the one found by its id. *)
Lemma place_header_found d ax xk :
  getElementById HEADER_ID d = None -> documentElement d <> None ->
  is_header ax = true ->
  getElementById HEADER_ID (place_header (Element ax xk) d).1 =
  Some (place_header (Element ax xk) d).2.
Proof.
  intros Hn Hr Hax. rewrite getElementById_find in Hn.
  destruct (find is_header (document d)) as [|] eqn:F; [discriminate|]. clear Hn.
  rewrite getElementById_find. unfold place_header.
  destruct (body d) as [b|] eqn:Eb.
  - destruct (body_elem d b Eb) as (a & ks & Hd & Hsp & _).
    destruct b as [sp p]. simpl in Hsp. subst sp. unfold update, child_ref; simpl.
    unfold find in *. erewrite first_in_insert; eauto; lia.
  - destruct (documentElement d) as [r|] eqn:Er; [|congruence].
    destruct (documentElement_elem d r Er) as (a & ks & Hd & Hsp). rewrite Hd.
    destruct r as [sp p]. simpl in Hsp. subst sp. unfold update, child_ref; simpl.
    unfold find in *. erewrite first_in_insert; eauto.
Qed.

(** ** The two ways ensureStub runs *)

Lemma header_create_run {B} (k : nref -> M B) s :
  (let! header :=
     (console_log [VStr TAG; VStr "Creating stub header element"];;;
      let! b := query (fun d => Normal (body d)) in
      match b with
      | Some b =>
          let! first := query (firstChild b) in
          insertBefore b new_header first
      | None =>
          let! root := query (fun d => Normal (documentElement d)) in
          match root with
          | Some root => appendChild root new_header
          | None => keep_detached new_header
          end
      end) in
   k header) s =
  k (place_header new_header (doc s)).2
    (State (place_header new_header (doc s)).1 (stubEnsured s) (console s ++ [creating])).
Proof.
  unfold place_header, bind at 1 2 3, console_log, query at 1. cbn [doc].
  destruct (body (doc s)) as [b|] eqn:Eb.
  - destruct (body_elem _ b Eb) as (a & ks & Hd & _).
    unfold bind, query, firstChild. cbn [doc]. rewrite Hd. destruct ks as [|k0 ks]; cbn [children].
    + unfold insertBefore, appendChild. cbn [doc]. rewrite Hd. reflexivity.
    + unfold insertBefore. cbn [doc]. rewrite Hd.
      unfold child_ref at 1. cbn [ref_path]. rewrite last_snoc.
      rewrite bool_decide_eq_true_2 by reflexivity.
      rewrite bool_decide_eq_true_2 by (simpl; lia). reflexivity.
  - unfold bind, query. cbn [doc].
    destruct (documentElement (doc s)) as [r|] eqn:Er.
    + destruct (documentElement_elem _ r Er) as (a & ks & Hd & _).
      unfold appendChild. cbn [doc]. rewrite Hd. reflexivity.
    + reflexivity.
Qed.

Lemma ensureStub_try_fresh s :
  getElementById HEADER_ID (doc s) = None ->
  ensureStub_try s =
  (Normal tt, ensured (place_header full_header (doc s)).1 [creating] s).
Proof.
  intros Hn. rewrite ensureStub_try_unfold. unfold bind at 1, query at 1. rewrite Hn.
  rewrite header_create_run.
  rewrite (fill_fresh (fun x => (place_header x (doc s)).1)
             (place_header new_header (doc s)).2).
  - unfold ensured. cbn [console]. rewrite <- app_assoc. reflexivity.
  - intros x q. rewrite (place_header_ref new_header x). apply place_header_deref.
  - intros x q g. rewrite (place_header_ref new_header x). apply place_header_update.
  - reflexivity.
Qed.

Lemma ensureStub_try_found s h :
  getElementById HEADER_ID (doc s) = Some h ->
  exists d' c i l,
    ensureStub_try s = (Normal tt, ensured d' [] s) /\
    dom_extends (doc s) d' /\
    stub_chain d' = Some (h, c, i, l).
Proof.
  intros Hh. destruct (getElementById_elem _ _ Hh) as (a & ks & Hd & _).
  destruct (fill_header_run h s) as (d' & c & i & l & Hrun & Hext & Hc & Hi & Hl & Hg).
  { exists a, ks. exact Hd. }
  exists d', c, i, l. split; [|split; [exact Hext|]].
  - rewrite ensureStub_try_unfold. unfold bind at 1, query at 1. rewrite Hh.
    unfold bind at 1, ret at 1. exact Hrun.
  - unfold stub_chain. rewrite (Hg Hh), Hc, Hi, Hl. reflexivity.
Qed.

Lemma stub_chain_fresh d :
  getElementById HEADER_ID d = None -> documentElement d <> None ->
  let h := (place_header full_header d).2 in
  stub_chain (place_header full_header d).1 =
  Some (h, below h [0], below h [0; 0], below h [0; 0; 0]).
Proof.
  intros Hn Hr h.
  apply (chain_fresh (fun x => (place_header x d).1) h).
  - intros x q. unfold h. rewrite (place_header_ref full_header x). apply place_header_deref.
  - unfold h. apply (place_header_found d _ _ Hn Hr). reflexivity.
Qed.

(** [ensureStub] in one statement: it answers [true], only inserts, and
    leaves the chain in a document that has a document element. *)
Lemma ensureStub_run s :
  exists d' logs,
    ensureStub s = (true, ensured d' logs s) /\
    dom_extends (doc s) d' /\
    (documentElement (doc s) <> None -> has_chain d').
Proof.
  rewrite ensureStub_unfold.
  destruct (getElementById HEADER_ID (doc s)) as [h|] eqn:E.
  - destruct (ensureStub_try_found s h E) as (d' & c & i & l & Hrun & Hext & Hch).
    exists d', []. rewrite Hrun. split; [reflexivity|]. split; [exact Hext|].
    intros _. unfold has_chain. rewrite Hch. eauto.
  - exists (place_header full_header (doc s)).1, [creating].
    rewrite (ensureStub_try_fresh s E). split; [reflexivity|].
    split; [apply place_header_extends|].
    intros Hr. unfold has_chain. rewrite (stub_chain_fresh _ E Hr). eauto.
Qed.

(** ** The guarded selector *)

Lemma parse_SEL : Css.parse SEL = Some SEL_parsed.
Proof. reflexivity. Qed.

Lemma SEL_needs_header anc a :
  Forall (fun x => is_header x = false) anc ->
  Css.matches_selector SEL_parsed anc a = false.
Proof.
  intros H. unfold Css.matches_selector, SEL_parsed, Css.matches_complex. simpl.
  rewrite orb_false_r. apply andb_false_intro2.
  destruct H as [|p anc Hp Hanc]; [reflexivity|].
  apply andb_false_intro2.
  induction Hanc as [|x anc Hx _ IH]; [reflexivity|].
  rewrite IH, orb_false_r. unfold is_header in Hx.
  unfold Css.matches_compound. simpl. rewrite String.eqb_sym, Hx. reflexivity.
Qed.

Lemma SEL_in_full_header anc :
  Forall (fun x => is_header x = false) anc ->
  all_matches (Css.matches_selector SEL_parsed) anc full_header = [[0; 0]].
Proof.
  intros H. unfold full_header, new_header, setAttribute, set_cssText, set_id,
    createElement, on_attrs, insert_child. cbn [take drop app].
  cbn [all_matches]. rewrite (SEL_needs_header anc _ H). reflexivity.
Qed.

Lemma stub_chain_inv d h c i l :
  stub_chain d = Some (h, c, i, l) ->
  getElementById HEADER_ID d = Some h /\
  querySelector h ".container" d = Normal (Some c) /\
  querySelector c "div" d = Normal (Some i) /\
  lastChild i d = Normal (Some l).
Proof.
  unfold stub_chain.
  destruct (getElementById HEADER_ID d) as [h0|] eqn:E1; [|discriminate].
  destruct (querySelector h0 ".container" d) as [[c0|]|] eqn:E2; try discriminate.
  destruct (querySelector c0 "div" d) as [[i0|]|] eqn:E3; try discriminate.
  destruct (lastChild i0 d) as [[l0|]|] eqn:E4; try discriminate.
  intros [= <- <- <- <-]. repeat split; assumption.
Qed.

(** In a document that had no header, the guarded selector reaches the
    inner div of the created chain and nothing else. *)
Lemma fresh_selector d :
  getElementById HEADER_ID d = None -> documentElement d <> None ->
  document_querySelectorAll SEL (place_header full_header d).1 =
  Normal [below (place_header full_header d).2 [0; 0]].
Proof.
  intros Hn Hr. unfold document_querySelectorAll. rewrite parse_SEL. f_equal.
  rewrite getElementById_find in Hn.
  destruct (find is_header (document d)) as [|] eqn:F; [discriminate|]. clear Hn.
  unfold place_header. destruct (body d) as [b|] eqn:Eb.
  - destruct (body_elem d b Eb) as (a & ks & Hd & Hsp & _).
    destruct b as [sp p]. simpl in Hsp. subst sp. unfold update, child_ref, below; simpl.
    destruct (all_in_insert _ _ SEL_needs_header (document d) p a ks 0 full_header F Hd)
      as (anc' & Hanc' & ->); [lia|].
    rewrite (SEL_in_full_header anc' Hanc'). reflexivity.
  - destruct (documentElement d) as [r|] eqn:Er; [|congruence].
    destruct (documentElement_elem d r Er) as (a & ks & Hd & Hsp). rewrite Hd.
    destruct r as [sp p]. simpl in Hsp. subst sp. unfold update, child_ref, below; simpl.
    destruct (all_in_insert _ _ SEL_needs_header (document d) p a ks (length ks) full_header
                F Hd) as (anc' & Hanc' & ->); [lia|].
    rewrite (SEL_in_full_header anc' Hanc'). reflexivity.
Qed.

Lemma fresh_querySelector d :
  getElementById HEADER_ID d = None -> documentElement d <> None ->
  document_querySelector SEL (place_header full_header d).1 =
  Normal (Some (below (place_header full_header d).2 [0; 0])).
Proof.
  intros Hn Hr. pose proof (fresh_selector d Hn Hr) as H.
  unfold document_querySelector, document_querySelectorAll in *.
  rewrite parse_SEL in *. rewrite first_in_head.
  assert (forall (l : list path) (x : nref),
             Normal (map (NRef InDocument) l) = Normal [x] ->
             option_map (NRef InDocument) (head l) = Some x) as Hhead.
  { intros [|q qs] x E; simpl in *; congruence. }
  rewrite (Hhead _ _ H). reflexivity.
Qed.

Lemma fresh_instances d :
  getElementById HEADER_ID d = None -> documentElement d <> None ->
  stub_instances (place_header full_header d).1 =
  [below (place_header full_header d).2 [0; 0]].
Proof.
  intros Hn Hr. unfold stub_instances. rewrite (fresh_selector d Hn Hr).
  pose proof (stub_chain_fresh d Hn Hr) as Hc. simpl in Hc.
  apply stub_chain_inv in Hc as (_ & _ & _ & Hl).
  simpl. unfold has_lastChild. rewrite Hl. reflexivity.
Qed.

End GuardFacts.

(** * The properties of ensureStub *)

Module EnsureStub.
Import Dom Js Guard Spec DomFacts GuardFacts.

Lemma ensureStub_keeps_chain s :
  has_chain (doc s) -> doc (ensureStub s).2 = doc s.
Proof.
  intros [[[[h c] i] l] H]. rewrite ensureStub_unfold.
  rewrite (ensureStub_try_chain s h c i l H). reflexivity.
Qed.

Lemma ensureStub_has_chain s :
  documentElement (doc s) <> None -> has_chain (doc (ensureStub s).2).
Proof.
  intros Hr. destruct (ensureStub_run s) as (d' & logs & Hrun & _ & Hch).
  rewrite Hrun. simpl. auto.
Qed.

Lemma ensureStub_sets_flag s : stubEnsured (ensureStub s).2 = true.
Proof.
  destruct (ensureStub_run s) as (d' & logs & Hrun & _). rewrite Hrun. reflexivity.
Qed.

Lemma run_steps_app s t1 t2 :
  run_steps s (t1 ++ t2) = run_steps (run_steps s t1) t2.
Proof. apply foldl_app. Qed.

Lemma repeat_calls_keep s n :
  has_chain (doc s) -> doc (run_steps s (repeat CallEnsureStub n)) = doc s.
Proof.
  revert s. induction n as [|n IH]; intros s H; [reflexivity|].
  simpl. unfold run_steps in *. rewrite IH.
  - simpl. apply ensureStub_keeps_chain, H.
  - simpl. rewrite (ensureStub_keeps_chain s H). exact H.
Qed.

(** C1, as the specification states it, fails: on a page whose own header
    holds two [.container > div] elements, one call of [ensureStub] leaves
    two elements reached by the guarded selector, not one. *)
Lemma ensureStub_two_instances :
  length (stub_instances (doc (run_steps (State two_divs false []) [CallEnsureStub]))) = 2.
Proof. vm_compute. reflexivity. Qed.

(** C1 (amended). After any calls and external changes, a call of
    [ensureStub] on a document that has a document element leaves the
    chain as [ensureStub] looks for it, and [n] further calls leave the
    document, hence its number of nodes, as it is; when the document had no
    element with the header id before that call, the guarded selector then
    reaches exactly one element with a last child.  A call on a document
    where the chain exists changes nothing in it. *)
Theorem ensureStub_idempotent (s : state) (t : list step) (n : nat) :
  documentElement (doc (run_steps s t)) <> None ->
  let s1 := run_steps s (t ++ [CallEnsureStub]) in
  let s2 := run_steps s1 (repeat CallEnsureStub n) in
  has_chain (doc s1) /\
  doc s2 = doc s1 /\
  fsize (document (doc s2)) = fsize (document (doc s1)) /\
  (getElementById HEADER_ID (doc (run_steps s t)) = None ->
   length (stub_instances (doc s2)) = 1) /\
  (forall s', has_chain (doc s') ->
     doc (ensureStub s').2 = doc s' /\
     fsize (document (doc (ensureStub s').2)) = fsize (document (doc s'))).
Proof.
  intros Hr s1 s2.
  assert (doc s1 = doc (ensureStub (run_steps s t)).2) as E1.
  { unfold s1. rewrite run_steps_app. reflexivity. }
  assert (has_chain (doc s1)) as Hch.
  { rewrite E1. apply ensureStub_has_chain, Hr. }
  assert (doc s2 = doc s1) as E2.
  { unfold s2. apply repeat_calls_keep, Hch. }
  split; [exact Hch|]. split; [exact E2|]. split; [rewrite E2; reflexivity|].
  split.
  - intros Hn. rewrite E2, E1. rewrite ensureStub_unfold.
    rewrite (ensureStub_try_fresh _ Hn). simpl.
    rewrite (fresh_instances _ Hn Hr). reflexivity.
  - intros s' H'. rewrite (ensureStub_keeps_chain s' H'). split; reflexivity.
Qed.

Lemma ensureStub_idempotent_witness :
  documentElement (doc (run_steps (State empty_page false []) [])) <> None /\
  has_chain (doc (run_steps (State empty_page false []) [CallEnsureStub])).
Proof.
  split; [discriminate|].
  apply (ensureStub_idempotent (State empty_page false []) [] 0). discriminate.
Defined.

(** ** A page that has broken host calls *)

Lemma dom_extends_refl d : dom_extends d d.
Proof. split; apply extends_list_refl. Qed.

Lemma grown_refl s : grown s s.
Proof.
  split; [reflexivity|]. split; [|apply dom_extends_refl].
  exists []. symmetry. apply app_nil_r.
Qed.

Lemma grown_trans s1 s2 s3 : grown s1 s2 -> grown s2 s3 -> grown s1 s3.
Proof.
  intros (F1 & (l1 & C1) & D1) (F2 & (l2 & C2) & D2). split; [congruence|]. split.
  - exists (l1 ++ l2). rewrite C2, C1, app_assoc. reflexivity.
  - eapply dom_extends_trans; eauto.
Qed.

Lemma grown_update s r g :
  (forall k, extends k (g k)) -> grown s (set_doc (update (doc s) r g) s).
Proof.
  intros Hg. split; [reflexivity|]. split; [|apply update_extends, Hg].
  exists []. symmetry. apply app_nil_r.
Qed.

Lemma steady_ret {A} (a : A) : steady (ret a).
Proof. intros s. apply grown_refl. Qed.

Lemma steady_thrown {A} e : steady (@throw A e).
Proof. intros s. apply grown_refl. Qed.

Lemma steady_query {A} (f : dom -> completion A) : steady (query f).
Proof. intros s. apply grown_refl. Qed.

Lemma steady_log args : steady (console_log args).
Proof.
  intros s. split; [reflexivity|]. split; [|apply dom_extends_refl].
  eexists. reflexivity.
Qed.

Lemma steady_appendChild parent child : steady (appendChild parent child).
Proof.
  intros s. unfold appendChild.
  destruct (deref (doc s) parent) as [[a ks|t]|]; try apply grown_refl.
  apply grown_update. intros k. apply insert_child_extends.
Qed.

Lemma steady_insertBefore parent child reference :
  steady (insertBefore parent child reference).
Proof.
  destruct reference as [c|]; [|apply steady_appendChild].
  intros s. unfold insertBefore.
  destruct (deref (doc s) parent) as [[a ks|t]|]; try apply grown_refl;
    destruct (last (ref_path c)); try apply grown_refl.
  destruct (_ && _); [|apply grown_refl].
  apply grown_update. intros k. apply insert_child_extends.
Qed.

Lemma steady_keep_detached n : steady (keep_detached n).
Proof.
  intros s. split; [reflexivity|]. split.
  - exists []. symmetry. apply app_nil_r.
  - split; [apply extends_list_refl|apply extends_list_snoc].
Qed.

Lemma steady_bind {A B} (c : M A) (k : A -> M B) :
  steady c -> (forall a, steady (k a)) -> steady (bind c k).
Proof.
  intros Hc Hk s. unfold bind. specialize (Hc s).
  destruct (c s) as [[a|e] s1]; [|exact Hc].
  eapply grown_trans; [exact Hc|apply Hk].
Qed.

Lemma steady_throw_bind {A B} (c : M A) (k : A -> M B) :
  steady c -> (forall a, steady_throw (k a)) -> steady_throw (bind c k).
Proof.
  intros Hc Hk s e s' H. unfold bind in H. specialize (Hc s).
  destruct (c s) as [[a|e1] s1].
  - eapply grown_trans; [exact Hc|]. eapply Hk, H.
  - injection H as <- <-. exact Hc.
Qed.

Section Faults.
Variable faults : host_call -> option value.

Lemma steady_calling {A} c (m : M A) : steady m -> steady (calling faults c m).
Proof. intros H. unfold calling. destruct (faults c); [apply steady_thrown|exact H]. Qed.

Lemma follows_refl {A} (c : M A) : follows faults c c.
Proof. intros s. destruct (c s) as [[a|e] s']; [reflexivity|right; eauto]. Qed.

Lemma follows_calling {A} c (m : M A) :
  follows faults (calling faults c m) (calling no_faults c m).
Proof.
  intros s. unfold calling, no_faults.
  destruct (faults c) as [e|] eqn:E; [left; eauto|apply follows_refl].
Qed.

Lemma follows_bind {A B} (c c' : M A) (k k' : A -> M B) :
  follows faults c c' -> (forall a, follows faults (k a) (k' a)) ->
  follows faults (bind c k) (bind c' k').
Proof.
  intros Hc Hk s. unfold bind. specialize (Hc s).
  destruct (c s) as [[a|e] s1].
  - rewrite Hc. apply Hk.
  - destruct Hc as [Hf|(e' & s'' & Hc)]; [left; exact Hf|]. right. rewrite Hc. eauto.
Qed.

Ltac steady_step :=
  first [ apply steady_calling | apply steady_ret | apply steady_query
        | apply steady_log | apply steady_appendChild | apply steady_insertBefore
        | apply steady_keep_detached | apply steady_bind ].

Ltac bound x := intros x; try (destruct x as [?|]).

Lemma try_follows : follows faults (ensureStub_try_with faults) ensureStub_try.
Proof.
  unfold ensureStub_try, ensureStub_try_with.
  repeat first [ apply follows_calling | apply follows_refl | apply follows_bind
               | let x := fresh in bound x ].
Qed.

Lemma try_steady_throw : steady_throw (ensureStub_try_with faults).
Proof.
  unfold ensureStub_try_with.
  repeat (apply steady_throw_bind;
          [repeat first [steady_step | let x := fresh in bound x]|];
          let x := fresh in bound x).
  all: intros s e s' Hthrow; unfold bind, set_stubEnsured, console_log in Hthrow;
    discriminate Hthrow.
Qed.

End Faults.

Lemma lookup_shadowed faults e s :
  faults GetElementById = Some e -> ensureStub_with faults s = (false, failed e s).
Proof.
  intros H. unfold ensureStub_with, ensureStub_try_with, bind at 1, calling at 1.
  rewrite H. reflexivity.
Qed.

(** C4, as the specification states it, fails.  On a page with a body
    where an element named [getElementById] shadows that method of
    [document], the call is left by the [catch]: it answers [false] and the
    document has no chain afterwards.  And on a page whose header holds
    its [div] below the [.container] but not as a child of it, the call
    answers [true] and the guarded selector still reaches nothing. *)
Lemma chain_missing_after_call :
  (body empty_page <> None /\
   let r := ensureStub_with shadowed_lookup (State empty_page false []) in
   r.1 = false /\ doc r.2 = empty_page /\ stub_chain (doc r.2) = None) /\
  (body nested_div <> None /\
   let r := ensureStub (State nested_div false []) in
   r.1 = true /\ document_querySelector SEL (doc r.2) = Normal None /\
   stub_instances (doc r.2) = []).
Proof.
  split; (split; [discriminate|]); vm_compute; repeat split; reflexivity.
Qed.

(** C4 (amended). [ensureStub] answers for every document and whatever
    calls the page has broken.  When it answers [false], one of the broken
    calls has thrown: the exception is printed in a warning, the flag is as
    it was and the document has only gained nodes; every exception of the
    [try] block ends in that [catch].  When it answers [true], it has done
    what it does on a page with no broken call: the flag is set, and in a
    document that has a document element the chain as [ensureStub] looks
    for it is there, which is a chain the guarded selector reaches, and the
    only one, when no element had the header id before.  With no broken
    call it answers [true], also without a body; with a shadowed
    [getElementById] it answers [false] and leaves the document alone. *)
Theorem ensureStub_never_throws (faults : host_call -> option value) (s : state) :
  let r := ensureStub_with faults s in
  (if r.1
   then r = ensureStub s /\
        stubEnsured r.2 = true /\
        (documentElement (doc s) <> None -> has_chain (doc r.2)) /\
        (documentElement (doc s) <> None -> getElementById HEADER_ID (doc s) = None ->
         length (stub_instances (doc r.2)) = 1)
   else exists k e logs,
          faults k = Some e /\
          stubEnsured r.2 = stubEnsured s /\
          console r.2 =
            console s ++ logs ++
            [Entry Warn [VStr TAG; VStr "ensureStub error (will retry):"; e]] /\
          dom_extends (doc s) (doc r.2)) /\
  (forall e s', ensureStub_try_with faults s = (Throw e, s') -> r = (false, failed e s')) /\
  ((forall k, faults k = None) -> r = ensureStub s /\ r.1 = true) /\
  (forall e, faults GetElementById = Some e -> r = (false, failed e s)).
Proof.
  intros r.
  assert (forall e s', ensureStub_try s <> (Throw e, s')) as Hstd.
  { intros e s' He. destruct (ensureStub_run s) as (d' & logs & Hrun & _).
    rewrite ensureStub_unfold, He in Hrun. discriminate. }
  pose proof (try_follows faults s) as Hf.
  pose proof (try_steady_throw faults s) as Hs.
  unfold r, ensureStub_with.
  destruct (ensureStub_try_with faults s) as [[[]|e] s'] eqn:E.
  - assert (ensureStub s = (true, s')) as Hrun
        by (rewrite ensureStub_unfold, Hf; reflexivity).
    cbn [fst snd]. split; [|split; [intros e0 s0 [=]|split]].
    + split; [symmetry; exact Hrun|].
      split; [pose proof (ensureStub_sets_flag s) as H; rewrite Hrun in H; exact H|].
      split.
      * intros Hr. pose proof (ensureStub_has_chain s Hr) as H. rewrite Hrun in H. exact H.
      * intros Hr Hn. rewrite ensureStub_unfold, (ensureStub_try_fresh _ Hn) in Hrun.
        injection Hrun as <-. cbn [doc ensured]. rewrite (fresh_instances _ Hn Hr).
        reflexivity.
    + intros _. split; [symmetry; exact Hrun|reflexivity].
    + intros e He. pose proof (lookup_shadowed faults e s He) as H.
      unfold ensureStub_with in H. rewrite E in H. discriminate H.
  - cbn [fst snd doc stubEnsured console].
    split; [|split; [intros e0 s0 [= <- <-]; reflexivity|split]].
    + destruct Hf as [(k & Hk)|(e' & s'' & He)]; [|destruct (Hstd _ _ He)].
      destruct (Hs e s' eq_refl) as (Hflag & (logs & Hlogs) & Hext).
      exists k, e, logs. split; [exact Hk|]. split; [exact Hflag|].
      split; [|exact Hext]. rewrite Hlogs, <- app_assoc. reflexivity.
    + intros Hnone. destruct Hf as [(k & Hk)|(e' & s'' & He)]; [|destruct (Hstd _ _ He)].
      rewrite Hnone in Hk. discriminate.
    + intros e0 He0. pose proof (lookup_shadowed faults e0 s He0) as H.
      unfold ensureStub_with in H. rewrite E in H. exact H.
Qed.

Lemma ensureStub_never_throws_witness :
  ensureStub_with shadowed_lookup (State empty_page false []) =
  (false,
   failed (VError "TypeError" "document.getElementById is not a function")
     (State empty_page false [])).
Proof.
  apply (ensureStub_never_throws shadowed_lookup (State empty_page false [])).
  reflexivity.
Defined.

(** C9. [ensureStub] only inserts: every node of the document, and of the
    trees outside it, is there after the call with its attributes or text
    and its children in their order. *)
Theorem ensureStub_only_inserts (s : state) :
  dom_extends (doc s) (doc (ensureStub s).2).
Proof.
  destruct (ensureStub_run s) as (d' & logs & Hrun & Hext & _).
  rewrite Hrun. exact Hext.
Qed.

End EnsureStub.

(** * The properties of the guards *)

Module Guards.
Import Dom Js Guard Spec DomFacts GuardFacts EnsureStub.

(** ** Wrapped functions *)

Lemma logged_logged l1 l2 s : logged l2 (logged l1 s) = logged (l1 ++ l2) s.
Proof. unfold logged. simpl. rewrite app_assoc. reflexivity. Qed.

Lemma logged_nil s : logged [] s = s.
Proof. destruct s. unfold logged. simpl. rewrite app_nil_r. reflexivity. Qed.

Lemma wrap_fold_lookup (l : list string) (w : gmap string global) (s : state) (x : string) :
  NoDup l ->
  (foldl wrap_if_function (w, s) l).1 !! x =
  if bool_decide (x ∈ l) then wrapped x <$> (w !! x) else w !! x.
Proof.
  revert w s. induction l as [|y l IH]; intros w s Hnd; [reflexivity|].
  apply NoDup_cons in Hnd as [Hy Hnd]. simpl.
  assert (forall w' s', w' !! x = (if bool_decide (x = y) then wrapped x <$> (w !! x) else w !! x) ->
            (foldl wrap_if_function (w', s') l).1 !! x =
            if bool_decide (x ∈ y :: l) then wrapped x <$> (w !! x) else w !! x) as Hstep.
  { intros w' s' Hw'. rewrite (IH w' s' Hnd), Hw'.
    destruct (bool_decide_reflect (x = y)) as [->|Hne].
    - rewrite (bool_decide_eq_false_2 (y ∈ l)) by exact Hy.
      rewrite (bool_decide_eq_true_2 (y ∈ y :: l)) by (left). reflexivity.
    - destruct (bool_decide_reflect (x ∈ l)) as [Hin|Hnin].
      + rewrite (bool_decide_eq_true_2 (x ∈ y :: l)) by (right; exact Hin).
        reflexivity.
      + rewrite (bool_decide_eq_false_2 (x ∈ y :: l)); [reflexivity|].
        intros Hin. apply elem_of_cons in Hin as [?|?]; contradiction. }
  unfold wrap_if_function at 2. simpl.
  destruct (w !! y) as [[f|v]|] eqn:Ey; apply Hstep.
  - destruct (bool_decide_reflect (x = y)) as [->|Hne].
    + rewrite lookup_insert_eq, Ey. reflexivity.
    + rewrite lookup_insert_ne by congruence. reflexivity.
  - destruct (bool_decide_reflect (x = y)) as [->|Hne]; [rewrite Ey|]; reflexivity.
  - destruct (bool_decide_reflect (x = y)) as [->|Hne]; [rewrite Ey|]; reflexivity.
Qed.

Lemma wrap_one_state (w : gmap string global) (s : state) (y : string) :
  exists logs, (wrap_if_function (w, s) y).2 = logged logs s.
Proof.
  unfold wrap_if_function. cbn [fst snd].
  destruct (w !! y) as [[f|v]|].
  - eexists [_]. reflexivity.
  - exists []. symmetry. apply logged_nil.
  - exists []. symmetry. apply logged_nil.
Qed.

Lemma wrap_fold_state (l : list string) (w : gmap string global) (s : state) :
  exists logs, (foldl wrap_if_function (w, s) l).2 = logged logs s.
Proof.
  revert w s. induction l as [|y l IH]; intros w s.
  - exists []. symmetry. apply logged_nil.
  - change (foldl wrap_if_function (w, s) (y :: l))
      with (foldl wrap_if_function (wrap_if_function (w, s) y) l).
    destruct (wrap_one_state w s y) as (l1 & H1).
    destruct (wrap_if_function (w, s) y) as [w1 s1]. simpl in H1. subst s1.
    destruct (IH w1 (logged l1 s)) as (l2 & ->).
    exists (l1 ++ l2). apply logged_logged.
Qed.

Lemma legacyFunctions_NoDup : NoDup legacyFunctions.
Proof.
  unfold legacyFunctions.
  repeat (apply NoDup_cons; split;
          [rewrite ?not_elem_of_cons; repeat split; try discriminate; apply not_elem_of_nil|]).
  apply NoDup_nil_2.
Qed.

Lemma wrapLegacyFunctions_window p x :
  window (wrapLegacyFunctions p) !! x =
  if bool_decide (x ∈ legacyFunctions) then wrapped x <$> (window p !! x)
  else window p !! x.
Proof.
  unfold wrapLegacyFunctions.
  pose proof (wrap_fold_lookup legacyFunctions (window p) (st p) x legacyFunctions_NoDup) as H.
  destruct (foldl wrap_if_function (window p, st p) legacyFunctions) as [w s]. exact H.
Qed.

(** C6. A guarded name that holds a function holds, after
    [wrapLegacyFunctions], the wrapper of that function; the wrapper calls
    [ensureStub], then the original with the same [this] and arguments,
    answers what the original answers, and when the original throws it logs
    the exception as a warning and answers [null]. *)
Theorem wrapped_function_safe (p : page) (fname : string) (f : jsfun) :
  fname ∈ legacyFunctions ->
  window p !! fname = Some (GFun f) ->
  window (wrapLegacyFunctions p) !! fname = Some (GFun (safeWrap f fname)) /\
  forall (this : value) (args : list value) (s : state),
    safeWrap f fname this args s =
    match f this args (ensureStub s).2 with
    | (Normal v, s') => (Normal v, s')
    | (Throw err, s') => (Normal VNull, caught fname err s')
    end.
Proof.
  intros Hin Hf. split.
  - rewrite wrapLegacyFunctions_window, Hf.
    rewrite bool_decide_eq_true_2 by exact Hin. reflexivity.
  - intros this args s. unfold safeWrap, try_catch, bind, run_ensureStub.
    destruct (ensureStub s) as [ok s1]. simpl.
    destruct (f this args s1) as [[v|err] s2]; reflexivity.
Qed.

Lemma wrapped_function_safe_witness :
  window (wrapLegacyFunctions
            (Page (State empty_page false []) Complete
               {[ "updateTabletBadge" := GFun (fun _ _ => throw (VError "TypeError" "null is not an object")) ]}
               None false false [] [] [] [] [] false))
    !! "updateTabletBadge"
  = Some (GFun (safeWrap (fun _ _ => throw (VError "TypeError" "null is not an object"))
                  "updateTabletBadge")).
Proof.
  apply (wrapped_function_safe _ "updateTabletBadge").
  - unfold legacyFunctions. constructor.
  - apply lookup_singleton_eq.
Defined.

(** ** The patched querySelector *)

(** ** The mutation observer and the periodic check *)

Lemma is_or_holds_header_total n : exists b, is_or_holds_header n = Normal b.
Proof.
  destruct n as [a ks|t]; [|eexists; reflexivity]. unfold is_or_holds_header.
  destruct (String.eqb (id a) HEADER_ID); [eauto|].
  rewrite (querySelector_in_simple _ _ _ _ simple_header).
  destruct (find is_header ks); eauto.
Qed.

Lemma scan_removed_run nodes s :
  exists b logs,
    scan_removed nodes s = (Normal b, logged logs s) /\
    (b = true <-> exists n, In n nodes /\ is_or_holds_header n = Normal true).
Proof.
  revert s. induction nodes as [|n nodes IH]; intros s.
  - exists false, []. rewrite logged_nil. split; [reflexivity|].
    split; [discriminate|]. intros (n & [] & _).
  - simpl. unfold bind, query. destruct (is_or_holds_header_total n) as [[|] Hb]; rewrite Hb.
    + eexists true, _. split; [reflexivity|]. split; [|reflexivity].
      intros _. exists n. split; [left; reflexivity|exact Hb].
    + destruct (IH s) as (b & logs & Hrun & Hiff). exists b, logs.
      split; [exact Hrun|]. rewrite Hiff. split.
      * intros (n' & Hin & Hn'). exists n'. split; [right; exact Hin|exact Hn'].
      * intros (n' & [<-|Hin] & Hn'); [congruence|]. exists n'. auto.
Qed.

Lemma scan_mutations_run ms acc s :
  exists b logs,
    scan_mutations ms acc s = (Normal b, logged logs s) /\
    (b = true <->
     acc = true \/
     exists m n, In m ms /\ mtype m = ChildList /\ In n (removedNodes m) /\
                 is_or_holds_header n = Normal true).
Proof.
  revert acc s. induction ms as [|m ms IH]; intros acc s.
  - exists acc, []. rewrite logged_nil. split; [reflexivity|].
    split; [auto|]. intros [?|(m & n & [] & _)]. assumption.
  - simpl. destruct (mtype m) eqn:Em.
    + unfold bind. destruct (scan_removed_run (removedNodes m) s) as (hit & l1 & Hr & Hhit).
      rewrite Hr. destruct (IH (hit || acc) (logged l1 s)) as (b & l2 & Hrun & Hiff).
      exists b, (l1 ++ l2). rewrite Hrun, logged_logged. split; [reflexivity|].
      rewrite Hiff, orb_true_iff, Hhit. split.
      * intros [[(n & Hin & Hn)|Hacc]|(m' & n & Hm' & Ht & Hin & Hn)].
        -- right. exists m, n. auto.
        -- left. exact Hacc.
        -- right. exists m', n. auto.
      * intros [Hacc|(m' & n & [<-|Hm'] & Ht & Hin & Hn)].
        -- left. right. exact Hacc.
        -- left. left. exists n. auto.
        -- right. exists m', n. auto.
    + destruct (IH acc s) as (b & logs & Hrun & Hiff). exists b, logs.
      split; [exact Hrun|]. rewrite Hiff. split.
      * intros [?|(m' & n & Hm' & Ht & Hin & Hn)]; [auto|]. right. exists m', n. auto.
      * intros [?|(m' & n & [<-|Hm'] & Ht & Hin & Hn)]; [auto|congruence|].
        right. exists m', n. auto.
    + destruct (IH acc s) as (b & logs & Hrun & Hiff). exists b, logs.
      split; [exact Hrun|]. rewrite Hiff. split.
      * intros [?|(m' & n & Hm' & Ht & Hin & Hn)]; [auto|]. right. exists m', n. auto.
      * intros [?|(m' & n & [<-|Hm'] & Ht & Hin & Hn)]; [auto|congruence|].
        right. exists m', n. auto.
Qed.

(** The callback repairs when a record holds the header among its removed
    nodes, and does not touch the document otherwise. *)
Lemma observer_callback_run ms s :
  (exists m n, In m ms /\ mtype m = ChildList /\ In n (removedNodes m) /\
               is_or_holds_header n = Normal true) ->
  exists logs,
    (observer_callback ms s).2 =
    (ensureStub (State (doc s) false (console s ++ logs))).2.
Proof.
  intros H. unfold observer_callback, bind.
  destruct (scan_mutations_run ms false s) as (b & logs & Hrun & Hiff).
  rewrite Hrun. assert (b = true) as -> by (apply Hiff; right; exact H).
  exists logs. unfold set_stubEnsured, run_ensureStub, logged. simpl.
  destruct (ensureStub _) as [ok s1]. reflexivity.
Qed.

Lemma observer_callback_idle ms s :
  ~ (exists m n, In m ms /\ mtype m = ChildList /\ In n (removedNodes m) /\
                 is_or_holds_header n = Normal true) ->
  doc (observer_callback ms s).2 = doc s.
Proof.
  intros H. unfold observer_callback, bind.
  destruct (scan_mutations_run ms false s) as (b & logs & Hrun & Hiff).
  rewrite Hrun. destruct b; [|reflexivity].
  exfalso. destruct (proj1 Hiff eq_refl) as [?|?]; [discriminate|auto].
Qed.

Lemma first_match_None_get P anc n q a ks :
  first_match (fun _ => P) anc n = None ->
  get_at q n = Some (Element a ks) -> P a = false.
Proof.
  revert anc n. induction q as [|j q IH]; intros anc n Hn Hg.
  - simpl in Hg. injection Hg as ->. apply first_match_None in Hn as [Hp _]. exact Hp.
  - destruct n as [a' ks'|t]; [|discriminate]. simpl in Hg.
    destruct (ks' !! j) as [k|] eqn:Hk; [|discriminate].
    apply first_match_None in Hn as [_ Hks]. apply first_in_None in Hks.
    eapply Forall_lookup_1 in Hks; eauto.
Qed.

(** A tree that is the header or holds it is seen as such by the callback. *)
Lemma holds_header x q a ks :
  get_at q x = Some (Element a ks) -> is_header a = true ->
  is_or_holds_header x = Normal true.
Proof.
  intros Hg Ha. destruct x as [a' ks'|t].
  - unfold is_or_holds_header. destruct (String.eqb (id a') HEADER_ID) eqn:E; [reflexivity|].
    rewrite (querySelector_in_simple _ _ _ _ simple_header).
    destruct (find is_header ks') as [|] eqn:F; [reflexivity|]. exfalso.
    destruct q as [|j q].
    + simpl in Hg. injection Hg as -> ->. unfold is_header in Ha. congruence.
    + simpl in Hg. destruct (ks' !! j) as [k|] eqn:Hk; [|discriminate].
      apply first_in_None in F. eapply Forall_lookup_1 in F; eauto.
      pose proof (first_match_None_get _ _ _ _ _ _ F Hg). congruence.
  - destruct q; simpl in Hg; discriminate.
Qed.

Lemma periodic_check_repairs s :
  documentElement (doc s) <> None ->
  stubEnsured s = false \/ getElementById HEADER_ID (doc s) = None ->
  has_chain (doc (periodic_check s).2).
Proof.
  intros Hr Hc. unfold periodic_check.
  assert (negb (stubEnsured s) ||
          match getElementById HEADER_ID (doc s) with Some _ => false | None => true end
          = true) as ->.
  { destruct Hc as [-> | ->]; [reflexivity|apply orb_true_r]. }
  unfold bind, console_warn, run_ensureStub.
  pose proof (ensureStub_has_chain
                (State (doc s) (stubEnsured s)
                   (console s ++ [Entry Warn [VStr TAG;
                      VStr "Periodic check found stub missing, recreating..."]])) Hr) as H.
  destruct (ensureStub _) as [ok s1]. exact H.
Qed.

(** C2, as the specification states it, fails: after the stub container is
    removed from the guarded page, neither the observer callback called
    with that removal nor the periodic check puts it back. *)
Lemma container_removal_not_repaired :
  has_chain (doc guarded_state) /\
  deref (doc guarded_state) stub_container = Some full_container /\
  stub_chain (doc (observer_callback [Mutation ChildList [full_container]]
                     without_container).2) = None /\
  stub_chain (doc (periodic_check without_container).2) = None.
Proof.
  split; [|split; [|split]].
  - eexists. vm_compute. reflexivity.
  - vm_compute. reflexivity.
  - vm_compute. reflexivity.
  - vm_compute. reflexivity.
Qed.

(** C2 (amended). When the chain exists and the header, or a tree [x]
    that holds it, is removed while a document element stays: the observer
    callback called with that removal puts the chain back, and so does the
    periodic check when no element with the header id is left.  Removals
    that do not take the header with them leave the callback idle, and the
    periodic check is idle while the flag is set and an element with the
    header id is in the document. *)
Theorem header_removal_repaired (s : state) (h c i l r : nref) (q : path) (x : node) :
  stub_chain (doc s) = Some (h, c, i, l) ->
  h = below r q ->
  deref (doc s) r = Some x ->
  documentElement (remove r (doc s)) <> None ->
  let s' := set_doc (remove r (doc s)) s in
  has_chain (doc (observer_callback [Mutation ChildList [x]] s').2) /\
  (getElementById HEADER_ID (doc s') = None ->
   has_chain (doc (periodic_check s').2)) /\
  (forall s0 ms,
     (forall m n, In m ms -> In n (removedNodes m) ->
                  is_or_holds_header n = Normal false) ->
     doc (observer_callback ms s0).2 = doc s0) /\
  (forall s0,
     stubEnsured s0 = true -> getElementById HEADER_ID (doc s0) <> None ->
     periodic_check s0 = (Normal tt, s0)).
Proof.
  intros Hch -> Hx Hr s'. split; [|split; [|split]].
  - apply stub_chain_inv in Hch as (Hh & _).
    destruct (getElementById_elem _ _ Hh) as (a & ks & Hd & Hid & _).
    rewrite deref_below, Hx in Hd by (eapply deref_elem_path; eauto). simpl in Hd.
    assert (is_or_holds_header x = Normal true) as Hhit.
    { eapply holds_header; eauto. unfold is_header. rewrite Hid. apply String.eqb_refl. }
    destruct (observer_callback_run [Mutation ChildList [x]] s') as (logs & ->).
    { exists (Mutation ChildList [x]), x. simpl. auto. }
    apply ensureStub_has_chain. exact Hr.
  - intros Hn. apply periodic_check_repairs; [exact Hr|right; exact Hn].
  - intros s0 ms Hno. apply observer_callback_idle.
    intros (m & n & Hm & _ & Hn & Hhit). rewrite (Hno m n Hm Hn) in Hhit. discriminate.
  - intros s0 Hflag Hhead. unfold periodic_check. rewrite Hflag.
    destruct (getElementById HEADER_ID (doc s0)); [reflexivity|congruence].
Qed.

Lemma header_removal_repaired_witness :
  has_chain (doc (observer_callback [Mutation ChildList [full_header]] without_header).2) /\
  has_chain (doc (periodic_check without_header).2).
Proof.
  destruct (header_removal_repaired guarded_state stub_header stub_container
              (NRef InDocument [0; 1; 0; 0; 0]) (NRef InDocument [0; 1; 0; 0; 0; 0])
              stub_header [] full_header) as (H1 & H2 & _).
  - vm_compute. reflexivity.
  - reflexivity.
  - vm_compute. reflexivity.
  - vm_compute. discriminate.
  - split; [exact H1|]. apply H2. vm_compute. reflexivity.
Defined.

(** ** The click guard *)

Lemma parse_join_selector :
  Css.parse join_selector =
  Some [Css.Complex [Css.STag "button"] []; Css.Complex [Css.STag "a"] [];
        Css.Complex [Css.SAttrEq "role" "button"] []].
Proof. reflexivity. Qed.

Lemma join_click_run p t :
  clickCapture p = [JoinSessionClick] ->
  isJoinButton t (doc (st p)) = Normal true ->
  exists logs,
    dispatch_click t p =
    setTimeout DelayedEnsure 500
      (setTimeout DelayedEnsure 100 (with_st p (ensureStub (logged logs (st p))).2)).
Proof.
  intros Hc Hj. unfold dispatch_click. rewrite Hc. simpl.
  unfold join_click_listener, bind, query, console_log, run_ensureStub. rewrite Hj.
  simpl. exists [Entry Log [VStr TAG; VStr "Join session click detected, ensuring stub..."]].
  unfold logged. destruct (ensureStub _) as [ok s1]. reflexivity.
Qed.

(** C3, as the specification states it, fails: a click on a [span] whose
    text is exactly "Join session" does not make the guard call
    [ensureStub], and no stub is there after the dispatch. *)
Lemma span_click_not_guarded :
  (exists a ks, deref span_page first_in_body = Some (Element a ks) /\
                textContent (Element a ks) = "Join session") /\
  stub_chain (doc (st (dispatch_click first_in_body (click_guarded span_page)))) = None.
Proof.
  split.
  - eexists _, _. split; reflexivity.
  - vm_compute. reflexivity.
Qed.

(** C3 (amended). A click on an element that is itself a [button], an
    [a] or has the role [button], and whose text holds "Join session",
    makes the capture listener call [ensureStub] before the dispatch
    returns, so that the chain is there afterwards in a document with a
    document element, and schedules the two delayed calls. *)
Theorem join_click_ensures (p : page) (target : nref) (a : attrs) (ks : list node) :
  clickCapture p = [JoinSessionClick] ->
  documentElement (doc (st p)) <> None ->
  deref (doc (st p)) target = Some (Element a ks) ->
  tagName a = "button" \/ tagName a = "a" \/
    Css.assoc "role" (attributes a) = Some "button" ->
  Str.includes "Join session" (textContent (Element a ks)) = true ->
  has_chain (doc (st (dispatch_click target p))) /\
  timeouts (dispatch_click target p) =
  timeouts p ++ [(100, DelayedEnsure); (500, DelayedEnsure)].
Proof.
  intros Hc Hr Hd Hkind Htext.
  assert (isJoinButton target (doc (st p)) = Normal true) as Hj.
  { unfold isJoinButton, element_matches. rewrite parse_join_selector, Hd, Htext.
    f_equal. rewrite orb_true_l, andb_true_r.
    unfold Css.matches_selector, Css.matches_complex, Css.matches_compound. simpl.
    rewrite !andb_true_r.
    destruct Hkind as [-> | [-> | ->]].
    - reflexivity.
    - apply orb_true_r.
    - rewrite !orb_true_r. reflexivity. }
  destruct (join_click_run p target Hc Hj) as (logs & ->). split.
  - simpl. apply ensureStub_has_chain. exact Hr.
  - simpl. rewrite <- app_assoc. reflexivity.
Qed.

Lemma join_click_ensures_witness :
  has_chain (doc (st (dispatch_click first_in_body (click_guarded button_page)))).
Proof.
  eapply (join_click_ensures (click_guarded button_page) first_in_body).
  - reflexivity.
  - discriminate.
  - reflexivity.
  - left. reflexivity.
  - reflexivity.
Defined.

(** ** init *)

#[local] Arguments fire_DOMContentLoaded : simpl never.
#[local] Arguments call_all : simpl never.
#[local] Arguments ensureStub : simpl never.
#[local] Arguments run_ensureStub : simpl never.

Lemma setupMutationObserver_some p : is_Some (observer (setupMutationObserver p)).
Proof.
  unfold setupMutationObserver. destruct (observer p) as [o|] eqn:E.
  - rewrite E. eauto.
  - destruct (body (doc (st p))); simpl; eauto.
Qed.

Lemma setupMutationObserver_fields p :
  definePropertyPatched (setupMutationObserver p) = definePropertyPatched p /\
  querySelectorPatched (setupMutationObserver p) = querySelectorPatched p /\
  clickCapture (setupMutationObserver p) = clickCapture p /\
  loadListeners (setupMutationObserver p) = loadListeners p /\
  intervals (setupMutationObserver p) = intervals p /\
  readyState (setupMutationObserver p) = readyState p /\
  domContentLoadedListeners (setupMutationObserver p) = domContentLoadedListeners p.
Proof.
  unfold setupMutationObserver. destruct (observer p); [repeat split|].
  destruct (body (doc (st p))); repeat split.
Qed.

Lemma setupMutationObserver_state p :
  stubEnsured (st (setupMutationObserver p)) = stubEnsured (st p) /\
  doc (st (setupMutationObserver p)) = doc (st p) /\
  consoleErrorPatched (setupMutationObserver p) = consoleErrorPatched p /\
  exists logs, console (st (setupMutationObserver p)) = console (st p) ++ logs.
Proof.
  unfold setupMutationObserver. destruct (observer p).
  - repeat split. exists []. rewrite app_nil_r. reflexivity.
  - destruct (body (doc (st p))); repeat split; simpl; eauto.
    exists []. rewrite app_nil_r. reflexivity.
Qed.

Lemma wrapLegacyFunctions_shape p :
  exists w logs,
    wrapLegacyFunctions p =
    Page (logged logs (st p)) (readyState p) w (observer p) true (querySelectorPatched p)
      (clickCapture p) (domContentLoadedListeners p) (loadListeners p)
      (intervals p) (timeouts p) (consoleErrorPatched p).
Proof.
  unfold wrapLegacyFunctions.
  destruct (wrap_fold_state legacyFunctions (window p) (st p)) as (logs & H).
  destruct (foldl _ _ _) as [w s]. simpl in H. subst s. eauto.
Qed.

Lemma setupMutationObserver_intervals p :
  intervals (setupMutationObserver p) = intervals p.
Proof.
  unfold setupMutationObserver. destruct (observer p); [reflexivity|].
  destruct (body (doc (st p))); reflexivity.
Qed.

Lemma call_intervals c t p : intervals (call c t p) = intervals p.
Proof.
  destruct c; simpl; try reflexivity.
  - rewrite setupMutationObserver_intervals. reflexivity.
  - destruct (join_click_listener t (st p)) as [[[|]|e] s']; reflexivity.
Qed.

Lemma call_observer_mono c t p :
  is_Some (observer p) -> is_Some (observer (call c t p)).
Proof.
  intros H. destruct c; simpl; try exact H.
  - apply setupMutationObserver_some.
  - destruct (join_click_listener t (st p)) as [[[|]|e] s']; exact H.
Qed.

Lemma call_all_intervals cs t p : intervals (call_all cs t p) = intervals p.
Proof.
  revert p. induction cs as [|c cs IH]; intros p; [reflexivity|].
  change (call_all (c :: cs) t p) with (call_all cs t (call c t p)).
  rewrite IH. apply call_intervals.
Qed.

Lemma call_all_observer_mono cs t p :
  is_Some (observer p) -> is_Some (observer (call_all cs t p)).
Proof.
  revert p. induction cs as [|c cs IH]; intros p H; [exact H|].
  change (call_all (c :: cs) t p) with (call_all cs t (call c t p)).
  apply IH, call_observer_mono, H.
Qed.

Lemma call_all_observer cs t p :
  In OnDomContentLoaded cs -> is_Some (observer (call_all cs t p)).
Proof.
  revert p. induction cs as [|c cs IH]; intros p; [intros []|].
  change (call_all (c :: cs) t p) with (call_all cs t (call c t p)).
  intros [->|Hin].
  - apply call_all_observer_mono. simpl. apply setupMutationObserver_some.
  - apply IH, Hin.
Qed.

(** C5, as the specification states it, fails: on a page that is still
    loading, [init] has started the periodic check although
    [DOMContentLoaded] has not fired and no observer exists. *)
Lemma init_starts_periodic_while_loading :
  readyState (init (blank empty_page Loading)) = Loading /\
  observer (init (blank empty_page Loading)) = None /\
  intervals (init (blank empty_page Loading)) = [(2000, PeriodicCheck)].
Proof. repeat split; reflexivity. Qed.

(** C5 (amended). [init] installs at once the function guards, the
    patched [querySelector], the click guard, the load listener and the
    periodic check.  On a loading page it creates no observer and
    registers the [DOMContentLoaded] listener, whose firing creates the
    observer and leaves the timers as they are; on a page past loading it
    creates the observer at once. *)
Theorem init_stages (p : page) :
  observer p = None ->
  let p' := init p in
  stubEnsured (st p') = true /\
  definePropertyPatched p' = true /\
  querySelectorPatched p' = true /\
  clickCapture p' = clickCapture p ++ [JoinSessionClick] /\
  loadListeners p' = loadListeners p ++ [OnLoad] /\
  intervals p' = intervals p ++ [(2000, PeriodicCheck)] /\
  readyState p' = readyState p /\
  match readyState p with
  | Loading =>
      observer p' = None /\
      domContentLoadedListeners p' = domContentLoadedListeners p ++ [OnDomContentLoaded] /\
      is_Some (observer (fire_DOMContentLoaded p')) /\
      intervals (fire_DOMContentLoaded p') = intervals p'
  | _ =>
      is_Some (observer p') /\
      domContentLoadedListeners p' = domContentLoadedListeners p
  end.
Proof.
  intros Ho p'. subst p'. unfold init.
  set (p1 := run run_ensureStub
               (run (console_log [VStr TAG; VStr "Initializing Enhanced Legacy Notif Guard v4..."]) p)).
  assert (stubEnsured (st p1) = true) as Hflag.
  { unfold p1, run, with_st, run_ensureStub. cbn [st snd].
    pose proof (ensureStub_sets_flag
                  (console_log [VStr TAG; VStr "Initializing Enhanced Legacy Notif Guard v4..."]
                     (st p)).2) as H.
    destruct (ensureStub _) as [ok s0]. exact H. }
  destruct (wrapLegacyFunctions_shape p1) as (w & logs & ->).
  change (readyState p1) with (readyState p). change (observer p1) with (observer p).
  change (querySelectorPatched p1) with (querySelectorPatched p).
  change (clickCapture p1) with (clickCapture p).
  change (domContentLoadedListeners p1) with (domContentLoadedListeners p).
  change (loadListeners p1) with (loadListeners p).
  change (intervals p1) with (intervals p). change (timeouts p1) with (timeouts p).
  change (consoleErrorPatched p1) with (consoleErrorPatched p).
  clearbody p1. unfold patchQuerySelector, setupJoinSessionGuard, add_clickCapture.
  cbn [st readyState window observer definePropertyPatched querySelectorPatched clickCapture
       domContentLoadedListeners loadListeners intervals timeouts consoleErrorPatched
       run with_st].
  destruct (readyState p) eqn:Er.
  - cbn [st readyState window observer definePropertyPatched querySelectorPatched
         clickCapture domContentLoadedListeners loadListeners intervals timeouts
         consoleErrorPatched run with_st add_domContentLoaded add_load setInterval].
    rewrite Ho. repeat split; try reflexivity.
    + exact Hflag.
    + unfold fire_DOMContentLoaded. apply call_all_observer.
      cbn [domContentLoadedListeners]. apply in_or_app. right. left. reflexivity.
    + unfold fire_DOMContentLoaded. rewrite call_all_intervals. reflexivity.
  - match goal with |- context [setupMutationObserver ?q] =>
      pose proof (setupMutationObserver_some q) as Hs;
      pose proof (setupMutationObserver_fields q) as (Hf1 & Hf2 & Hf3 & Hf4 & Hf5 & Hf6 & Hf7);
      pose proof (setupMutationObserver_state q) as (Hg1 & _);
      assert (stubEnsured (st q) = true) as Hq
        by (cbn [st run with_st]; unfold run_ensureStub;
            match goal with |- context [ensureStub ?x] =>
              pose proof (ensureStub_sets_flag x) as Hx; destruct (ensureStub x); exact Hx
            end);
      set (p2 := setupMutationObserver q) in *
    end.
    cbn [st readyState window observer definePropertyPatched querySelectorPatched
         clickCapture domContentLoadedListeners loadListeners intervals timeouts
         consoleErrorPatched run with_st add_domContentLoaded add_load setInterval
         console_log snd stubEnsured] in *.
    rewrite Hf1, Hf2, Hf3, Hf4, Hf5, Hf6, Hf7, Hg1. repeat split; try reflexivity.
    + exact Hq.
    + exact Hs.
  - match goal with |- context [setupMutationObserver ?q] =>
      pose proof (setupMutationObserver_some q) as Hs;
      pose proof (setupMutationObserver_fields q) as (Hf1 & Hf2 & Hf3 & Hf4 & Hf5 & Hf6 & Hf7);
      pose proof (setupMutationObserver_state q) as (Hg1 & _);
      assert (stubEnsured (st q) = true) as Hq
        by (cbn [st run with_st]; unfold run_ensureStub;
            match goal with |- context [ensureStub ?x] =>
              pose proof (ensureStub_sets_flag x) as Hx; destruct (ensureStub x); exact Hx
            end);
      set (p2 := setupMutationObserver q) in *
    end.
    cbn [st readyState window observer definePropertyPatched querySelectorPatched
         clickCapture domContentLoadedListeners loadListeners intervals timeouts
         consoleErrorPatched run with_st add_domContentLoaded add_load setInterval
         console_log snd stubEnsured] in *.
    rewrite Hf1, Hf2, Hf3, Hf4, Hf5, Hf6, Hf7, Hg1. repeat split; try reflexivity.
    + exact Hq.
    + exact Hs.
Qed.

Lemma init_stages_witness :
  observer (init (blank empty_page Loading)) = None /\
  is_Some (observer (fire_DOMContentLoaded (init (blank empty_page Loading)))).
Proof.
  pose proof (init_stages (blank empty_page Loading) eq_refl) as H.
  cbv zeta in H. destruct H as (_ & _ & _ & _ & _ & _ & _ & H).
  change (readyState (blank empty_page Loading)) with Loading in H.
  destruct H as (H1 & _ & H2 & _). split; [exact H1|exact H2].
Defined.

(** ** The console.error override *)

Lemma init_flags p :
  consoleErrorPatched (init p) = consoleErrorPatched p /\
  querySelectorPatched (init p) = true.
Proof.
  unfold init.
  set (p1 := run run_ensureStub
               (run (console_log [VStr TAG; VStr "Initializing Enhanced Legacy Notif Guard v4..."]) p)).
  destruct (wrapLegacyFunctions_shape p1) as (w & logs & ->).
  change (consoleErrorPatched p1) with (consoleErrorPatched p). clearbody p1.
  unfold patchQuerySelector, setupJoinSessionGuard, add_clickCapture.
  cbn [st readyState window observer definePropertyPatched querySelectorPatched clickCapture
       domContentLoadedListeners loadListeners intervals timeouts consoleErrorPatched
       run with_st].
  destruct (readyState p1); try (split; reflexivity).
  - match goal with |- context [setupMutationObserver ?q] =>
      pose proof (setupMutationObserver_state q) as (_ & _ & Hc & _);
      pose proof (setupMutationObserver_fields q) as (_ & Hq & _);
      set (p2 := setupMutationObserver q) in *
    end.
    cbn [consoleErrorPatched querySelectorPatched add_load setInterval run with_st] in *.
    split; assumption.
  - match goal with |- context [setupMutationObserver ?q] =>
      pose proof (setupMutationObserver_state q) as (_ & _ & Hc & _);
      pose proof (setupMutationObserver_fields q) as (_ & Hq & _);
      set (p2 := setupMutationObserver q) in *
    end.
    cbn [consoleErrorPatched querySelectorPatched add_load setInterval run with_st] in *.
    split; assumption.
Qed.

(** C7, as the specification states it, fails.  In a document without a
    document element [ensureStub] inserts its header nowhere, so the
    second lookup of the patched [querySelector] finds nothing either; and
    on a page whose header holds its [div] below the [.container] but not
    as a child of it, [ensureStub] adds nothing that the guarded selector
    reaches. *)
Lemma repair_returns_null :
  (patched_querySelector SEL (State no_root false [])).1 = Normal None /\
  (patched_querySelector SEL (State nested_div false [])).1 = Normal None.
Proof. split; vm_compute; reflexivity. Qed.

(** C7 (amended). Once the script has run, [document.querySelector] is
    the patched one.  Whatever the lookup it replaces answers, the patched
    function answers the same; only when that is nothing and the selector
    text holds the header id does it print a warning, call [ensureStub]
    and answer what one more lookup answers.  For the guarded selector on
    a document with a document element and no element with the header id,
    the answer is the inner div that [ensureStub] has just created. *)
Theorem patched_querySelector_repairs (p : page)
  (original : string -> dom -> completion (option nref)) (selector : string) (s : state) :
  page_querySelector original (guard_script p) selector = patched original selector /\
  (match original selector (doc s) with
   | Normal None =>
       if Str.includes "home-header2" selector then
         let s1 := (ensureStub
                      (warned [VStr TAG;
                               VStr ("querySelector returned null for: " +:+ selector +:+
                                     ", ensuring stub...")] s)).2 in
         patched original selector s = (original selector (doc s1), s1)
       else patched original selector s = (Normal None, s)
   | found => patched original selector s = (found, s)
   end) /\
  (documentElement (doc s) <> None ->
   getElementById HEADER_ID (doc s) = None ->
   exists s',
     let innerDiv := below (place_header full_header (doc s)).2 [0; 0] in
     patched_querySelector SEL s = (Normal (Some innerDiv), s') /\
     doc s' = (place_header full_header (doc s)).1 /\
     deref (doc s') innerDiv = Some (Guard.insert_child 0 new_stub new_innerDiv)).
Proof.
  split; [|split].
  - unfold page_querySelector, guard_script.
    rewrite (proj2 (init_flags _)). reflexivity.
  - unfold patched, bind, query, run_ensureStub, console_warn, warned.
    destruct (original selector (doc s)) as [[r|]|e]; try reflexivity.
    destruct (Str.includes "home-header2" selector); [|reflexivity].
    simpl. destruct (ensureStub _) as [ok s1]. reflexivity.
  - intros Hr Hn.
    assert (document_querySelector SEL (doc s) = Normal None) as Hq.
    { unfold document_querySelector. rewrite parse_SEL.
      rewrite getElementById_find in Hn.
      destruct (find is_header (document (doc s))) as [|] eqn:F; [discriminate|].
      rewrite first_in_head.
      rewrite (all_in_none _ _ SEL_needs_header [] [] _ 0 (Forall_nil_2 _) F).
      reflexivity. }
    unfold patched_querySelector, patched, bind, query, run_ensureStub, console_warn.
    rewrite Hq. simpl. rewrite ensureStub_unfold.
    rewrite ensureStub_try_fresh by exact Hn. simpl.
    rewrite (fresh_querySelector _ Hn Hr).
    eexists. split; [reflexivity|]. simpl. split; [reflexivity|].
    rewrite place_header_deref. reflexivity.
Qed.

Lemma patched_querySelector_repairs_witness :
  exists s',
    patched_querySelector SEL (State empty_page false []) =
    (Normal (Some (NRef InDocument [0; 1; 0; 0; 0])), s').
Proof.
  destruct (patched_querySelector_repairs
              (Page (State empty_page false []) Loading ∅ None false false [] [] [] [] [] false)
              document_querySelector SEL (State empty_page false []))
    as (_ & _ & H).
  destruct H as (s' & H & _); [discriminate|reflexivity|].
  exists s'. exact H.
Defined.





End Guards.

(** * The redirect round trip *)

Module RedirectFacts.
Import Redirect RedirectSpec.

#[local] Arguments String.eqb : simpl never.

#[local] Open Scope string_scope.

Lemma append_cons x (a b : string) : String x a +:+ b = String x (a +:+ b).
Proof. reflexivity. Qed.

Lemma append_nil_l (a : string) : "" +:+ a = a.
Proof. reflexivity. Qed.

Lemma append_assoc (a b c : string) : (a +:+ b) +:+ c = a +:+ (b +:+ c).
Proof.
  induction a as [|x a IH]; [reflexivity|]. rewrite !append_cons, IH. reflexivity.
Qed.

Lemma append_nil_r (a : string) : a +:+ "" = a.
Proof.
  induction a as [|x a IH]; [reflexivity|]. rewrite append_cons, IH. reflexivity.
Qed.

(** *** One byte *)

Lemma decode_encode_byte c rest :
  percent_decode (plus_to_space (encode_byte c +:+ rest)) =
  String c (percent_decode (plus_to_space rest)).
Proof.
  destruct c as [b0 b1 b2 b3 b4 b5 b6 b7].
  destruct b0, b1, b2, b3, b4, b5, b6, b7; reflexivity.
Qed.

Lemma encode_byte_plain c : all_chars plain (encode_byte c) = true.
Proof.
  destruct c as [b0 b1 b2 b3 b4 b5 b6 b7].
  destruct b0, b1, b2, b3, b4, b5, b6, b7; reflexivity.
Qed.

(** *** Names and values *)

Lemma decode_encode s : decode_component (encode s) = s.
Proof.
  unfold decode_component. induction s as [|c s IH]; [reflexivity|].
  change (encode (String c s)) with (encode_byte c +:+ encode s).
  rewrite decode_encode_byte, IH. reflexivity.
Qed.

Lemma all_chars_app P (a b : string) :
  all_chars P (a +:+ b) = all_chars P a && all_chars P b.
Proof.
  induction a as [|x a IH]; [reflexivity|].
  rewrite append_cons. simpl. rewrite IH, andb_assoc. reflexivity.
Qed.

Lemma all_chars_impl (P Q : ascii -> bool) s :
  (forall c, P c = true -> Q c = true) ->
  all_chars P s = true -> all_chars Q s = true.
Proof.
  intros H. induction s as [|c s IH]; [reflexivity|]. simpl.
  rewrite !andb_true_iff. intros [Hc Hs]. auto.
Qed.

Lemma encode_plain s : all_chars plain (encode s) = true.
Proof.
  induction s as [|c s IH]; [reflexivity|].
  change (encode (String c s)) with (encode_byte c +:+ encode s).
  rewrite all_chars_app, encode_byte_plain, IH. reflexivity.
Qed.

Lemma plain_not c x :
  x = "&"%char \/ x = "="%char \/ x = "?"%char \/ x = "#"%char ->
  plain c = true -> is_not x c = true.
Proof.
  unfold plain. rewrite !andb_true_iff. intros [->|[->|[->| ->]]]; tauto.
Qed.

Lemma encode_not x s :
  x = "&"%char \/ x = "="%char \/ x = "?"%char \/ x = "#"%char ->
  all_chars (is_not x) (encode s) = true.
Proof.
  intros Hx. apply (all_chars_impl plain); [|apply encode_plain].
  intros c. apply plain_not, Hx.
Qed.

(** *** Splitting *)

Lemma snoc_append cur c (s : string) : Str.snoc cur c +:+ s = cur +:+ String c s.
Proof. unfold Str.snoc. rewrite append_assoc. reflexivity. Qed.

Lemma split_plain sep cur s :
  all_chars (is_not sep) s = true -> split sep cur s = [cur +:+ s].
Proof.
  revert cur. induction s as [|c s IH]; intros cur; simpl.
  - rewrite append_nil_r. reflexivity.
  - unfold is_not at 1. rewrite andb_true_iff, negb_true_iff. intros [-> Hs].
    rewrite IH by exact Hs. rewrite snoc_append. reflexivity.
Qed.

Lemma split_app sep cur s r :
  all_chars (is_not sep) s = true ->
  split sep cur (s +:+ String sep r) = (cur +:+ s) :: split sep "" r.
Proof.
  revert cur. induction s as [|c s IH]; intros cur.
  - intros _. rewrite append_nil_l, append_nil_r. simpl.
    rewrite Ascii.eqb_refl. reflexivity.
  - rewrite append_cons. simpl. unfold is_not at 1.
    rewrite andb_true_iff, negb_true_iff. intros [Hc Hs].
    rewrite Hc, IH by exact Hs. rewrite snoc_append. reflexivity.
Qed.

Lemma name_value_app name s r :
  all_chars (is_not "=") s = true ->
  name_value name (s +:+ String "=" r) = (name +:+ s, r).
Proof.
  revert name. induction s as [|c s IH]; intros name.
  - intros _. rewrite append_nil_l, append_nil_r. reflexivity.
  - rewrite append_cons. simpl. unfold is_not at 1.
    rewrite andb_true_iff, negb_true_iff. intros [Hc Hs].
    rewrite Hc, IH by exact Hs. rewrite snoc_append. reflexivity.
Qed.

Lemma parse_pair_text k v : parse_pair (pair_text k v) = (k, v).
Proof.
  unfold parse_pair, pair_text.
  change ("=" +:+ encode v) with (String "=" (encode v)).
  rewrite name_value_app by (apply encode_not; auto).
  rewrite append_nil_l, !decode_encode. reflexivity.
Qed.

Lemma pair_text_not x k v :
  x = "&"%char \/ x = "?"%char \/ x = "#"%char ->
  all_chars (is_not x) (pair_text k v) = true.
Proof.
  intros Hx. unfold pair_text. rewrite !all_chars_app, !encode_not by tauto.
  destruct Hx as [->|[->| ->]]; reflexivity.
Qed.

Lemma pair_text_nonempty k v : String.eqb (pair_text k v) "" = false.
Proof.
  unfold pair_text. destruct (encode k); reflexivity.
Qed.

Lemma serialize_cons k v p rest :
  serialize ((k, v) :: p :: rest) = pair_text k v +:+ String "&" (serialize (p :: rest)).
Proof.
  unfold pair_text. change (serialize ((k, v) :: p :: rest))
    with (encode k +:+ "=" +:+ encode v +:+ "&" +:+ serialize (p :: rest)).
  rewrite !append_assoc. reflexivity.
Qed.

Lemma serialize_one k v : serialize [(k, v)] = pair_text k v.
Proof. reflexivity. Qed.

(** Parsing what the serializer wrote gives the pairs back. *)
Lemma parse_serialize ps : parse (serialize ps) = ps.
Proof.
  induction ps as [|[k v] ps IH]; [reflexivity|].
  destruct ps as [|p rest].
  - rewrite serialize_one. unfold parse.
    rewrite split_plain by (apply pair_text_not; auto).
    rewrite append_nil_l. simpl. rewrite pair_text_nonempty. simpl.
    rewrite parse_pair_text. reflexivity.
  - rewrite serialize_cons. unfold parse in *.
    rewrite split_app by (apply pair_text_not; auto).
    rewrite append_nil_l. simpl. rewrite pair_text_nonempty. simpl.
    rewrite parse_pair_text. f_equal. exact IH.
Qed.

Lemma serialize_not x ps :
  x = "?"%char \/ x = "#"%char -> all_chars (is_not x) (serialize ps) = true.
Proof.
  intros Hx. induction ps as [|[k v] ps IH]; [reflexivity|].
  destruct ps as [|p rest].
  - rewrite serialize_one. apply pair_text_not. tauto.
  - rewrite serialize_cons, all_chars_app, pair_text_not by tauto.
    cbn [all_chars andb]. rewrite IH. destruct Hx as [->| ->]; reflexivity.
Qed.

Lemma serialize_nonempty p ps : exists x r, serialize (p :: ps) = String x r.
Proof.
  destruct p as [k v]. destruct ps as [|p' rest].
  - rewrite serialize_one. unfold pair_text. destruct (encode k); simpl; eauto.
  - rewrite serialize_cons. unfold pair_text. destruct (encode k); simpl; eauto.
Qed.

(** *** The address *)

Lemma until_hash_plain s : all_chars (is_not "#") s = true -> until_hash s = s.
Proof.
  induction s as [|c s IH]; [reflexivity|]. simpl. unfold is_not at 1.
  rewrite andb_true_iff, negb_true_iff. intros [-> Hs]. rewrite IH by exact Hs.
  reflexivity.
Qed.

Lemma query_of_app a r :
  all_chars (is_not "?") a = true ->
  query_of (a +:+ String "?" r) = Some r.
Proof.
  induction a as [|c a IH]; [reflexivity|]. rewrite append_cons. simpl.
  unfold is_not at 1. rewrite andb_true_iff, negb_true_iff. intros [-> Ha].
  apply IH, Ha.
Qed.

Lemma escape_query_plain s :
  all_chars (fun c => negb (query_escaped c)) s = true -> escape_query s = s.
Proof.
  induction s as [|c s IH]; [reflexivity|]. simpl.
  rewrite andb_true_iff, negb_true_iff. intros [-> Hs]. rewrite IH by exact Hs.
  reflexivity.
Qed.

Lemma encode_byte_unescaped c :
  all_chars (fun c => negb (query_escaped c)) (encode_byte c) = true.
Proof.
  destruct c as [b0 b1 b2 b3 b4 b5 b6 b7].
  destruct b0, b1, b2, b3, b4, b5, b6, b7; reflexivity.
Qed.

Lemma encode_unescaped s :
  all_chars (fun c => negb (query_escaped c)) (encode s) = true.
Proof.
  induction s as [|c s IH]; [reflexivity|].
  change (encode (String c s)) with (encode_byte c +:+ encode s).
  rewrite all_chars_app, encode_byte_unescaped, IH. reflexivity.
Qed.

(** The address parser leaves a serialized query as it is. *)
Lemma serialize_unescaped ps :
  all_chars (fun c => negb (query_escaped c)) (serialize ps) = true.
Proof.
  induction ps as [|[k v] ps IH]; [reflexivity|].
  destruct ps as [|p rest].
  - rewrite serialize_one. unfold pair_text.
    rewrite !all_chars_app, !encode_unescaped. reflexivity.
  - rewrite serialize_cons. unfold pair_text.
    rewrite !all_chars_app, !encode_unescaped. cbn [all_chars andb].
    rewrite IH. reflexivity.
Qed.

(** The query the meeting page reads is the one the handler wrote. *)
Lemma search_of_address origin p ps :
  origin_like origin = true ->
  URLSearchParams (location_search (URL_toString (MkURL origin "/meeting" (p :: ps))))
  = p :: ps.
Proof.
  unfold origin_like. rewrite andb_true_iff. intros [Hq Hh].
  unfold URL_toString. cbn [url_origin pathname searchParams].
  change ("?" +:+ serialize (p :: ps)) with (String "?" (serialize (p :: ps))).
  unfold location_search.
  rewrite until_hash_plain.
  - rewrite <- append_assoc, query_of_app.
    + rewrite escape_query_plain by apply serialize_unescaped.
      destruct (serialize_nonempty p ps) as (x & r & E).
      rewrite E. unfold URLSearchParams. rewrite Ascii.eqb_refl. rewrite <- E.
      apply parse_serialize.
    + rewrite all_chars_app, Hq. reflexivity.
  - rewrite !all_chars_app, Hh. cbn [all_chars andb].
    rewrite (serialize_not "#") by tauto. reflexivity.
Qed.

(** *** A meeting address is not blank *)

Lemma includes_has x needle s :
  Str.includes (String x needle) s = true -> all_chars (is_not x) s = false.
Proof.
  induction s as [|c s IH]; [discriminate|]. simpl.
  destruct (ascii_dec x c) as [->|Hne].
  - intros _. unfold is_not. rewrite Ascii.eqb_refl. reflexivity.
  - simpl. intros H. rewrite IH by exact H. apply andb_false_r.
Qed.

Lemma code_not_z c : nat_of_ascii c <> 122 -> is_not "z" c = true.
Proof.
  intros H. unfold is_not. apply negb_true_iff, Ascii.eqb_neq.
  intros ->. apply H. reflexivity.
Qed.

Lemma trim_space1_not_z c : trim_space1 c = true -> is_not "z" c = true.
Proof.
  unfold trim_space1, Str.is_space.
  rewrite !orb_true_iff, !Nat.eqb_eq. intros H. apply code_not_z. lia.
Qed.

Lemma trim_space2_not_z c c1 :
  trim_space2 c c1 = true -> is_not "z" c = true /\ is_not "z" c1 = true.
Proof.
  unfold trim_space2. rewrite andb_true_iff, !Nat.eqb_eq.
  intros [H H1]. split; apply code_not_z; lia.
Qed.

Lemma trim_space3_not_z c c1 c2 :
  trim_space3 c c1 c2 = true ->
  is_not "z" c = true /\ is_not "z" c1 = true /\ is_not "z" c2 = true.
Proof.
  unfold trim_space3.
  rewrite !orb_true_iff, !andb_true_iff, !orb_true_iff, !andb_true_iff,
    !Nat.eqb_eq, !Nat.leb_le.
  intros H. repeat split; apply code_not_z; lia.
Qed.

Lemma blank_no_z n s :
  String.length s <= n -> blank s = true -> all_chars (is_not "z") s = true.
Proof.
  revert s. induction n as [|n IH]; intros s Hn.
  - destruct s; [reflexivity|simpl in Hn; lia].
  - destruct s as [|c rest]; [reflexivity|]. simpl in Hn. cbn [blank all_chars].
    destruct (trim_space1 c) eqn:E1.
    + intros Hb. rewrite (trim_space1_not_z c E1). apply IH; [lia|exact Hb].
    + destruct rest as [|c1 rest1]; [discriminate|]. simpl in Hn. cbn [all_chars].
      destruct (trim_space2 c c1) eqn:E2.
      * intros Hb. destruct (trim_space2_not_z c c1 E2) as [-> ->].
        apply IH; [lia|exact Hb].
      * destruct rest1 as [|c2 rest2]; [discriminate|]. simpl in Hn. cbn [all_chars].
        destruct (trim_space3 c c1 c2) eqn:E3; [|discriminate].
        intros Hb. destruct (trim_space3_not_z c c1 c2 E3) as (-> & -> & ->).
        apply IH; [lia|exact Hb].
Qed.

Lemma meeting_address_accepted url :
  Str.includes "zoom.us" url = true ->
  negb (truthy (Some url)) || blank url = false.
Proof.
  intros H. pose proof (includes_has _ _ _ H) as Hz.
  destruct (blank url) eqn:Eb.
  - rewrite (blank_no_z (String.length url) url) in Hz; [discriminate|lia|exact Eb].
  - destruct url; [discriminate|reflexivity].
Qed.

Lemma handle_accepts new_URL w url sid u :
  negb (truthy (Some url)) || blank url = false ->
  new_URL "/meeting" (location_origin w) = Js.Normal u ->
  handleJoinSession new_URL (Some url) sid w =
  let address :=
    URL_toString
      (MkURL (url_origin u) (pathname u)
         (match sid with
          | Some x =>
              if truthy sid
              then set "sessionId" x (set "meetingUrl" url (searchParams u))
              else set "meetingUrl" url (searchParams u)
          | None => set "meetingUrl" url (searchParams u)
          end)) in
  (Js.Normal tt,
   Window (location_origin w) address
     (console w ++
      [Js.Entry Js.Log [Js.VStr TAG; Js.VStr "Join session clicked"];
       Js.Entry Js.Log [Js.VStr TAG; Js.VStr "Zoom URL:"; show (Some url)];
       Js.Entry Js.Log [Js.VStr TAG; Js.VStr "Session ID:"; show sid];
       Js.Entry Js.Log [Js.VStr TAG; Js.VStr "Redirecting to:"; Js.VStr address]])
     (alerts w)).
Proof.
  intros Hb Hu. unfold handleJoinSession. rewrite Hb.
  cbn [log location_origin location_href console alerts]. rewrite Hu.
  destruct sid as [x|]; [destruct (truthy (Some x)) eqn:Et|];
    cbn [log location_origin location_href console alerts url_origin pathname searchParams];
    rewrite <- !app_assoc; reflexivity.
Qed.

Lemma handle_refused new_URL w url sid e :
  negb (truthy (Some url)) || blank url = false ->
  new_URL "/meeting" (location_origin w) = Js.Throw e ->
  handleJoinSession new_URL (Some url) sid w =
  (Js.Throw e,
   Window (location_origin w) (location_href w)
     (console w ++
      [Js.Entry Js.Log [Js.VStr TAG; Js.VStr "Join session clicked"];
       Js.Entry Js.Log [Js.VStr TAG; Js.VStr "Zoom URL:"; show (Some url)];
       Js.Entry Js.Log [Js.VStr TAG; Js.VStr "Session ID:"; show sid]])
     (alerts w)).
Proof.
  intros Hb Hu. unfold handleJoinSession. rewrite Hb.
  cbn [log location_origin location_href console alerts]. rewrite Hu.
  unfold log. cbn [location_origin location_href console alerts].
  rewrite <- !app_assoc. reflexivity.
Qed.

(** C8, as the specification states it, fails for an empty session
    identifier: the handler leaves the parameter out and the meeting page
    reads [null], not the empty string. *)
Lemma empty_session_id_lost :
  Str.includes "zoom.us" "https://zoom.us/j/1" = true /\
  sessionId (location_href
               (handleJoinSession example_URL (Some "https://zoom.us/j/1") (Some "")
                  example_window).2)
  = None.
Proof. split; reflexivity. Qed.

(** C8 (amended). On a page whose origin the URL constructor takes as a
    base, for a meeting address that holds the vendor domain, the address
    the handler navigates to gives back, read as the meeting page reads
    it, that meeting address byte for byte, and the session identifier
    when one that is not empty was given; without one, or with the empty
    one, the meeting page reads no session identifier.  The strings are
    well-formed: they are given by their UTF-8 bytes. *)
Theorem redirect_round_trip (new_URL : string -> string -> Js.completion URL)
  (w : window) (url : string) (sid : option string) :
  well_formed url = true ->
  well_formed_option sid = true ->
  Str.includes "zoom.us" url = true ->
  new_URL "/meeting" (location_origin w) =
    Js.Normal (MkURL (location_origin w) "/meeting" []) ->
  origin_like (location_origin w) = true ->
  let r := handleJoinSession new_URL (Some url) sid w in
  r.1 = Js.Normal tt /\
  meetingUrl (location_href r.2) = Some url /\
  sessionId (location_href r.2) = (if truthy sid then sid else None).
Proof.
  intros _ _ Hurl Hu Ho r. subst r.
  rewrite (handle_accepts new_URL w url sid _ (meeting_address_accepted url Hurl) Hu).
  cbn [fst snd location_href url_origin pathname searchParams].
  change (set "meetingUrl" url []) with [("meetingUrl", url)].
  split; [reflexivity|]. unfold meetingUrl, sessionId.
  destruct sid as [x|]; [destruct (truthy (Some x)) eqn:Et|].
  - change (set "sessionId" x [("meetingUrl", url)])
      with [("meetingUrl", url); ("sessionId", x)].
    rewrite (search_of_address _ _ _ Ho). split; reflexivity.
  - rewrite (search_of_address _ _ _ Ho). split; reflexivity.
  - rewrite (search_of_address _ _ _ Ho). split; reflexivity.
Qed.

Lemma redirect_round_trip_witness :
  meetingUrl (location_href
                (handleJoinSession example_URL (Some "https://zoom.us/j/123?pwd=a b&x=1")
                   (Some "s 1+2") example_window).2)
  = Some "https://zoom.us/j/123?pwd=a b&x=1".
Proof.
  apply (redirect_round_trip example_URL example_window "https://zoom.us/j/123?pwd=a b&x=1"
           (Some "s 1+2")); reflexivity.
Defined.

End RedirectFacts.

(** * More on the guard script *)

Module GuardEvents.
Import Dom Js Guard Spec Events DomFacts GuardFacts EnsureStub Guards.

#[local] Arguments ensureStub : simpl never.
#[local] Arguments run_ensureStub : simpl never.
#[local] Arguments String.eqb : simpl never.

(** ** What each piece does to the state *)

Lemma st_run {A} (c : M A) p : st (run c p) = (c (st p)).2.
Proof. reflexivity. Qed.

Lemma run_ensureStub_state s : (run_ensureStub s).2 = (ensureStub s).2.
Proof. unfold run_ensureStub. destruct (ensureStub s). reflexivity. Qed.

Lemma then_ensure_state args s :
  ((console_log args;;; run_ensureStub) s).2 = (ensureStub (logged [Entry Log args] s)).2.
Proof. unfold bind, console_log. apply run_ensureStub_state. Qed.

Lemma setupMutationObserver_st p :
  exists logs, st (setupMutationObserver p) = logged logs (st p).
Proof.
  unfold setupMutationObserver. destruct (observer p).
  - exists []. symmetry. apply logged_nil.
  - destruct (body (doc (st p))).
    + eexists [_]. reflexivity.
    + exists []. symmetry. apply logged_nil.
Qed.

Lemma guarded_logged s s' logs :
  guarded_from s s' -> guarded_from s (logged logs s').
Proof.
  intros H. destruct H as [s0 l0 Hd|s1 s0 l0 H1 Hd]; rewrite logged_logged.
  - apply guarded_ensure, Hd.
  - eapply guarded_again; eauto.
Qed.

Lemma ensure_after s s' :
  quiet_or_guarded s s' -> guarded_from s (ensureStub s').2.
Proof.
  intros [[logs ->]|H].
  - rewrite <- (logged_nil (ensureStub _).2). apply guarded_ensure. reflexivity.
  - rewrite <- (logged_nil (ensureStub _).2). eapply guarded_again; eauto.
Qed.

Lemma quiet_logged s s' logs :
  quiet_or_guarded s s' -> quiet_or_guarded s (logged logs s').
Proof.
  intros [[l0 ->]|H].
  - left. exists (l0 ++ logs). apply logged_logged.
  - right. apply guarded_logged, H.
Qed.

Lemma quiet_refl s : quiet_or_guarded s s.
Proof. left. exists []. symmetry. apply logged_nil. Qed.

Lemma periodic_check_shape s : quiet_or_guarded s (periodic_check s).2.
Proof.
  unfold periodic_check.
  destruct (negb (stubEnsured s) || _).
  - right. unfold bind, console_warn. cbn [fst snd].
    match goal with |- context [run_ensureStub ?x] =>
      pose proof (run_ensureStub_state x) as H; destruct (run_ensureStub x) as [[ok|e] s1]
    end; cbn [snd] in *; subst s1;
    rewrite <- (logged_nil (ensureStub _).2); apply guarded_ensure; reflexivity.
  - apply quiet_refl.
Qed.

Lemma join_click_listener_shape t s :
  quiet_or_guarded s (join_click_listener t s).2.
Proof.
  destruct t as [t|]; [|apply quiet_refl].
  unfold join_click_listener, bind, query.
  destruct (isJoinButton t (doc s)) as [[|]|e]; try apply quiet_refl.
  unfold console_log. cbn [fst snd].
  match goal with |- context [run_ensureStub ?x] =>
    pose proof (run_ensureStub_state x) as H; destruct (run_ensureStub x) as [[ok|e] s1]
  end; cbn [snd] in *; subst s1; right;
  rewrite <- (logged_nil (ensureStub _).2); apply guarded_ensure; reflexivity.
Qed.

Lemma call_shape c t p : quiet_or_guarded (st p) (st (call c t p)).
Proof.
  destruct c; cbn [call].
  - destruct (setupMutationObserver_st
                (run (console_log [VStr TAG; VStr "DOM ready, re-ensuring stub..."];;;
                      run_ensureStub) p)) as (logs & ->).
    rewrite st_run, then_ensure_state. right. apply guarded_ensure. reflexivity.
  - rewrite st_run, then_ensure_state. right.
    rewrite <- (logged_nil (ensureStub _).2). apply guarded_ensure. reflexivity.
  - rewrite st_run. apply periodic_check_shape.
  - rewrite st_run, run_ensureStub_state. right.
    rewrite <- (logged_nil (ensureStub _).2). apply guarded_ensure. reflexivity.
  - pose proof (join_click_listener_shape t (st p)) as H.
    destruct (join_click_listener t (st p)) as [[[|]|e] s']; exact H.
Qed.

Lemma observer_callback_shape ms s :
  quiet_or_guarded s (observer_callback ms s).2.
Proof.
  unfold observer_callback, bind.
  destruct (scan_mutations_run ms false s) as (b & logs & -> & _).
  destruct b.
  - unfold set_stubEnsured. cbn [fst snd].
    match goal with |- context [run_ensureStub ?x] =>
      pose proof (run_ensureStub_state x) as H; destruct (run_ensureStub x) as [[ok|e] s1]
    end; cbn [snd] in *; subst s1; right;
    rewrite <- (logged_nil (ensureStub _).2); apply guarded_ensure; reflexivity.
  - left. exists logs. reflexivity.
Qed.

(** ** What is kept *)

Lemma guarded_flag s s' : guarded_from s s' -> stubEnsured s' = true.
Proof. intros [s0 logs _|s1 s0 logs _ _]; apply ensureStub_sets_flag. Qed.

Lemma quiet_flag s s' :
  quiet_or_guarded s s' -> stubEnsured s = true -> stubEnsured s' = true.
Proof.
  intros [[logs ->]|H] Hs; [exact Hs|]. eapply guarded_flag; eauto.
Qed.

Lemma guarded_chain s s' :
  guarded_from s s' -> has_chain (doc s) -> doc s' = doc s.
Proof.
  intros H Hc. induction H as [s0 logs Hd|s1 s0 logs H1 IH Hd]; cbn [logged doc].
  - rewrite <- Hd. apply ensureStub_keeps_chain. rewrite Hd. exact Hc.
  - rewrite <- IH, <- Hd. apply ensureStub_keeps_chain. rewrite Hd, IH. exact Hc.
Qed.

Lemma quiet_chain s s' :
  quiet_or_guarded s s' -> has_chain (doc s) -> doc s' = doc s.
Proof.
  intros [[logs ->]|H] Hc; [reflexivity|]. eapply guarded_chain; eauto.
Qed.

Lemma first_element_extends ks ks' :
  extends_list ks ks' ->
  forall i j, first_element ks i <> None -> first_element ks' j <> None.
Proof.
  induction 1 as [|k k' ks ks' Hk Hks IH|k' ks ks' Hks IH]; intros i j Hi.
  - exact Hi.
  - destruct Hk as [t|a c c' Hc]; simpl in *; [|discriminate]. eapply IH; eauto.
  - destruct k' as [a c|t]; simpl; [discriminate|]. eapply IH; eauto.
Qed.

Lemma documentElement_extends d d' :
  dom_extends d d' -> documentElement d <> None -> documentElement d' <> None.
Proof.
  intros [Hd _] Hr. unfold documentElement in *.
  destruct (first_element (document d) 0) as [i|] eqn:E; [|simpl in Hr; congruence].
  pose proof (first_element_extends _ _ Hd 0 0) as H. rewrite E in H.
  destruct (first_element (document d') 0); [simpl; discriminate|].
  exfalso. exact (H ltac:(discriminate) eq_refl).
Qed.

Lemma ensureStub_root s :
  documentElement (doc s) <> None -> documentElement (doc (ensureStub s).2) <> None.
Proof.
  intros Hr. destruct (ensureStub_run s) as (d' & logs & Hrun & Hext & _).
  rewrite Hrun. eapply documentElement_extends; eauto.
Qed.

Lemma guarded_has_chain s s' :
  guarded_from s s' -> documentElement (doc s) <> None -> has_chain (doc s').
Proof.
  intros H Hr.
  assert (has_chain (doc s') /\ documentElement (doc s') <> None) as [Hc _]; [|exact Hc].
  induction H as [s0 logs Hd|s1 s0 logs H1 IH Hd]; cbn [logged doc].
  - rewrite <- Hd in Hr. split; [apply ensureStub_has_chain|apply ensureStub_root]; exact Hr.
  - destruct IH as [_ Hr1]. rewrite <- Hd in Hr1.
    split; [apply ensureStub_has_chain|apply ensureStub_root]; exact Hr1.
Qed.

(** ** init, taken apart *)

Lemma init_unfold p :
  exists w s1,
    guarded_from (st p) s1 /\
    init p =
    run (console_log complete)
      (setInterval PeriodicCheck 2000
         (add_load OnLoad
            (let q := Page s1 (readyState p) w (observer p) true true
                        (clickCapture p ++ [JoinSessionClick]) (domContentLoadedListeners p)
                        (loadListeners p) (intervals p) (timeouts p)
                        (consoleErrorPatched p) in
             match readyState p with
             | Loading => add_domContentLoaded OnDomContentLoaded q
             | _ => setupMutationObserver (run run_ensureStub q)
             end))).
Proof.
  unfold init.
  set (p1 := run run_ensureStub
               (run (console_log [VStr TAG; VStr "Initializing Enhanced Legacy Notif Guard v4..."]) p)).
  assert (guarded_from (st p) (st p1)) as Hg.
  { unfold p1. rewrite st_run, run_ensureStub_state, st_run.
    rewrite <- (logged_nil (ensureStub _).2). apply guarded_ensure. reflexivity. }
  destruct (wrapLegacyFunctions_shape p1) as (w & logs & ->).
  change (readyState p1) with (readyState p). change (observer p1) with (observer p).
  change (querySelectorPatched p1) with (querySelectorPatched p).
  change (clickCapture p1) with (clickCapture p).
  change (domContentLoadedListeners p1) with (domContentLoadedListeners p).
  change (loadListeners p1) with (loadListeners p).
  change (intervals p1) with (intervals p). change (timeouts p1) with (timeouts p).
  change (consoleErrorPatched p1) with (consoleErrorPatched p).
  clearbody p1.
  exists w, (logged [Entry Log [VStr TAG; VStr "Join session guard installed"]]
               (logged logs (st p1))).
  split; [apply guarded_logged, guarded_logged, Hg|].
  unfold patchQuerySelector, setupJoinSessionGuard, add_clickCapture.
  cbn [st readyState window observer definePropertyPatched querySelectorPatched clickCapture
       domContentLoadedListeners loadListeners intervals timeouts consoleErrorPatched
       run with_st].
  reflexivity.
Qed.

Lemma init_guarded p : guarded_from (st p) (st (init p)).
Proof.
  destruct (init_unfold p) as (w & s1 & Hg & ->).
  rewrite st_run. unfold console_log at 1. cbn [snd].
  change (State (doc ?s) (stubEnsured ?s) (console ?s ++ [Entry Log complete]))
    with (logged [Entry Log complete] s).
  apply guarded_logged. cbn [setInterval add_load st].
  destruct (readyState p); cbn [add_domContentLoaded st]; [exact Hg| |].
  - match goal with |- context [setupMutationObserver ?q] =>
      destruct (setupMutationObserver_st q) as (logs & ->)
    end.
    apply guarded_logged. rewrite st_run, run_ensureStub_state.
    apply ensure_after. right. exact Hg.
  - match goal with |- context [setupMutationObserver ?q] =>
      destruct (setupMutationObserver_st q) as (logs & ->)
    end.
    apply guarded_logged. rewrite st_run, run_ensureStub_state.
    apply ensure_after. right. exact Hg.
Qed.

Lemma setupMutationObserver_observer p :
  observer (setupMutationObserver p) =
  match observer p with
  | Some o => Some o
  | None => Some (has_body (doc (st (setupMutationObserver p))))
  end.
Proof.
  unfold setupMutationObserver, has_body. destruct (observer p) as [o|] eqn:E.
  - exact E.
  - destruct (body (doc (st p))) eqn:Eb; cbn [observer st console_log snd doc]; rewrite Eb;
      reflexivity.
Qed.

Lemma init_listeners p :
  clickCapture (init p) = clickCapture p ++ [JoinSessionClick] /\
  loadListeners (init p) = loadListeners p ++ [OnLoad] /\
  intervals (init p) = intervals p ++ [(2000, PeriodicCheck)] /\
  readyState (init p) = readyState p /\
  timeouts (init p) = timeouts p /\
  domContentLoadedListeners (init p) =
    match readyState p with
    | Loading => domContentLoadedListeners p ++ [OnDomContentLoaded]
    | _ => domContentLoadedListeners p
    end /\
  observer (init p) =
    match readyState p, observer p with
    | Loading, o => o
    | _, Some o => Some o
    | _, None => Some (has_body (doc (st (init p))))
    end.
Proof.
  destruct (init_unfold p) as (w & s1 & Hg & ->).
  cbn [run with_st setInterval add_load clickCapture loadListeners intervals readyState
       timeouts domContentLoadedListeners observer st console_log snd doc].
  destruct (readyState p);
    [cbn [add_domContentLoaded clickCapture loadListeners intervals readyState timeouts
          domContentLoadedListeners observer]; repeat split; reflexivity| |].
  - match goal with |- context [setupMutationObserver ?q] =>
      pose proof (setupMutationObserver_fields q) as (Hf1 & Hf2 & Hf3 & Hf4 & Hf5 & Hf6 & Hf7);
      pose proof (setupMutationObserver_observer q) as Ho;
      assert (timeouts (setupMutationObserver q) = timeouts q) as Ht
        by (unfold setupMutationObserver; destruct (observer q); [reflexivity|];
            destruct (body (doc (st q))); reflexivity);
      set (p2 := setupMutationObserver q) in *
    end.
    cbn [run with_st clickCapture loadListeners intervals readyState timeouts
         domContentLoadedListeners observer] in *.
    rewrite Hf3, Hf4, Hf5, Hf6, Hf7, Ht, Ho. repeat split; reflexivity.
  - match goal with |- context [setupMutationObserver ?q] =>
      pose proof (setupMutationObserver_fields q) as (Hf1 & Hf2 & Hf3 & Hf4 & Hf5 & Hf6 & Hf7);
      pose proof (setupMutationObserver_observer q) as Ho;
      assert (timeouts (setupMutationObserver q) = timeouts q) as Ht
        by (unfold setupMutationObserver; destruct (observer q); [reflexivity|];
            destruct (body (doc (st q))); reflexivity);
      set (p2 := setupMutationObserver q) in *
    end.
    cbn [run with_st clickCapture loadListeners intervals readyState timeouts
         domContentLoadedListeners observer] in *.
    rewrite Hf3, Hf4, Hf5, Hf6, Hf7, Ht, Ho. repeat split; reflexivity.
Qed.

(** ** Events *)

Lemma after_shape p e :
  own e = true -> quiet_or_guarded (st p) (st (after p e)).
Proof.
  destruct e as [c t|ms|change]; intros He; [| |discriminate].
  - apply call_shape.
  - cbn [after]. rewrite st_run. apply observer_callback_shape.
Qed.

Lemma after_flag p e :
  stubEnsured (st p) = true -> stubEnsured (st (after p e)) = true.
Proof.
  intros H. destruct e as [c t|ms|change].
  - eapply quiet_flag; [apply (after_shape p (Calls c t))|exact H]. reflexivity.
  - eapply quiet_flag; [apply (after_shape p (Observes ms))|exact H]. reflexivity.
  - exact H.
Qed.

Lemma after_all_flag es p :
  stubEnsured (st p) = true -> stubEnsured (st (after_all p es)) = true.
Proof.
  revert p. induction es as [|e es IH]; intros p H; [exact H|].
  apply (IH (after p e)), after_flag, H.
Qed.

Lemma after_all_chain es p :
  forallb own es = true -> has_chain (doc (st p)) ->
  doc (st (after_all p es)) = doc (st p).
Proof.
  revert p. induction es as [|e es IH]; intros p Hes Hc; [reflexivity|].
  cbn [forallb] in Hes. apply andb_true_iff in Hes as [He Hes].
  pose proof (quiet_chain _ _ (after_shape p e He) Hc) as Hd.
  change (after_all p (e :: es)) with (after_all (after p e) es).
  rewrite (IH (after p e) Hes); [exact Hd|]. rewrite Hd. exact Hc.
Qed.

Lemma quiet_root s s' :
  quiet_or_guarded s s' -> documentElement (doc s) <> None ->
  documentElement (doc s') <> None.
Proof.
  intros [[logs ->]|H] Hr; [exact Hr|].
  induction H as [s0 logs Hd|s1 s0 logs H1 IH Hd]; cbn [logged doc].
  - apply ensureStub_root. rewrite Hd. exact Hr.
  - apply ensureStub_root. rewrite Hd. exact IH.
Qed.

(** The callbacks that call [ensureStub] whatever the state. *)
Lemma call_ensures c t p :
  c = OnDomContentLoaded \/ c = OnLoad \/ c = DelayedEnsure ->
  guarded_from (st p) (st (call c t p)).
Proof.
  intros [->|[->| ->]]; cbn [call].
  - match goal with |- context [setupMutationObserver ?q] =>
      destruct (setupMutationObserver_st q) as (logs & ->)
    end.
    rewrite st_run, then_ensure_state. apply guarded_ensure. reflexivity.
  - rewrite st_run, then_ensure_state.
    rewrite <- (logged_nil (ensureStub _).2). apply guarded_ensure. reflexivity.
  - rewrite st_run, run_ensureStub_state.
    rewrite <- (logged_nil (ensureStub _).2). apply guarded_ensure. reflexivity.
Qed.

Lemma call_all_kept cs t p :
  has_chain (doc (st p)) -> has_chain (doc (st (call_all cs t p))).
Proof.
  revert p. induction cs as [|c cs IH]; intros p Hc; [exact Hc|].
  change (call_all (c :: cs) t p) with (call_all cs t (call c t p)).
  apply IH. rewrite (quiet_chain _ _ (call_shape c t p) Hc). exact Hc.
Qed.

Lemma call_all_restores cs t p c :
  In c cs -> c = OnDomContentLoaded \/ c = OnLoad \/ c = DelayedEnsure ->
  documentElement (doc (st p)) <> None ->
  has_chain (doc (st (call_all cs t p))).
Proof.
  revert p. induction cs as [|c' cs IH]; intros p Hin Hc Hr; [destruct Hin|].
  change (call_all (c' :: cs) t p) with (call_all cs t (call c' t p)).
  destruct Hin as [->|Hin].
  - apply call_all_kept. eapply guarded_has_chain; [apply call_ensures, Hc|exact Hr].
  - apply IH; [exact Hin|exact Hc|]. eapply quiet_root; [apply call_shape|exact Hr].
Qed.

Lemma call_all_flag cs t p :
  stubEnsured (st p) = true -> stubEnsured (st (call_all cs t p)) = true.
Proof.
  revert p. induction cs as [|c cs IH]; intros p H; [exact H|].
  change (call_all (c :: cs) t p) with (call_all cs t (call c t p)).
  apply IH. eapply quiet_flag; [apply call_shape|exact H].
Qed.

Lemma chain_header d : has_chain d -> getElementById HEADER_ID d <> None.
Proof.
  intros [x H]. unfold stub_chain in H.
  destruct (getElementById HEADER_ID d); [discriminate|discriminate].
Qed.

(** X1. Once the script has run, [stubEnsured] is set and stays set
    through every callback the script registered, every batch the
    observer is given and every change other code makes to the document;
    hence the periodic check does nothing whenever an element with the
    header id is in the document. *)
Theorem flag_stays_set (p : page) (es : list event) :
  let p' := after_all (guard_script p) es in
  stubEnsured (st p') = true /\
  (getElementById HEADER_ID (doc (st p')) <> None ->
   periodic_check (st p') = (Normal tt, st p')).
Proof.
  intros p'.
  assert (stubEnsured (st p') = true) as Hf.
  { apply after_all_flag. eapply guarded_flag. apply init_guarded. }
  split; [exact Hf|]. intros Hh. unfold periodic_check. rewrite Hf.
  destruct (getElementById HEADER_ID (doc (st p'))); [reflexivity|congruence].
Qed.

Lemma flag_stays_set_witness :
  periodic_check
    (st (after_all (guard_script (blank empty_page Complete))
           [Calls OnLoad None; Observes []; Calls PeriodicCheck None])) =
  (Normal tt,
   st (after_all (guard_script (blank empty_page Complete))
         [Calls OnLoad None; Observes []; Calls PeriodicCheck None])).
Proof.
  apply (flag_stays_set (blank empty_page Complete)
           [Calls OnLoad None; Observes []; Calls PeriodicCheck None]).
  vm_compute. discriminate.
Defined.

(** X2. On a page where the chain is there, the script and everything
    it registered leave the document as it is: [init], the callbacks and
    the observer callback insert nothing. *)
Theorem guard_idle_on_chain (p : page) (es : list event) :
  has_chain (doc (st p)) -> forallb own es = true ->
  doc (st (guard_script p)) = doc (st p) /\
  doc (st (after_all (guard_script p) es)) = doc (st p).
Proof.
  intros Hc Hes.
  assert (doc (st (guard_script p)) = doc (st p)) as Hd.
  { unfold guard_script. apply (guarded_chain (st (install_console_error p))).
    - apply init_guarded.
    - exact Hc. }
  split; [exact Hd|]. rewrite after_all_chain; [exact Hd|exact Hes|].
  rewrite Hd. exact Hc.
Qed.

Lemma guard_idle_on_chain_witness :
  doc (st (after_all (guard_script (blank (doc guarded_state) Loading))
             [Calls OnDomContentLoaded None; Calls PeriodicCheck None;
              Observes [Mutation ChildList [Text "x"]]])) =
  doc guarded_state.
Proof.
  apply (guard_idle_on_chain (blank (doc guarded_state) Loading)
           [Calls OnDomContentLoaded None; Calls PeriodicCheck None;
            Observes [Mutation ChildList [Text "x"]]]).
  - vm_compute. eauto.
  - reflexivity.
Defined.

Lemma status_when_ready q :
  has_chain (doc (st q)) -> stubEnsured (st q) = true ->
  is_Some (observer q) \/ In OnDomContentLoaded (domContentLoadedListeners q) ->
  getStatus (fire_DOMContentLoaded q) = Status true true true.
Proof.
  intros Hc Hf Ho. unfold getStatus, fire_DOMContentLoaded.
  set (q1 := set_readyState Interactive q).
  assert (has_chain (doc (st (call_all (domContentLoadedListeners q) None q1)))) as Hc1
    by (apply call_all_kept; exact Hc).
  rewrite (call_all_flag _ _ q1 Hf).
  destruct (getElementById HEADER_ID _) eqn:E; [|exfalso; exact (chain_header _ Hc1 E)].
  assert (is_Some (observer (call_all (domContentLoadedListeners q) None q1))) as [o ->];
    [|reflexivity].
  destruct Ho as [Ho|Ho].
  - apply call_all_observer_mono. exact Ho.
  - apply call_all_observer. exact Ho.
Qed.

(** X3. [getStatus] after the script has run on a page with a document
    element and no observer yet: [stubEnsured] and [headerExists] are
    true; [observerActive] is false while the page is loading and true
    otherwise, and it is true once [DOMContentLoaded] has fired, whether
    or not the document has a body to observe. *)
Theorem getStatus_after_script (p : page) :
  documentElement (doc (st p)) <> None ->
  observer p = None ->
  getStatus (guard_script p) =
    Status true true (match readyState p with Loading => false | _ => true end) /\
  getStatus (fire_DOMContentLoaded (guard_script p)) = Status true true true.
Proof.
  intros Hr Ho. unfold guard_script.
  set (p0 := install_console_error p).
  assert (has_chain (doc (st (init p0)))) as Hc.
  { eapply guarded_has_chain; [apply init_guarded|exact Hr]. }
  assert (stubEnsured (st (init p0)) = true) as Hf.
  { eapply guarded_flag. apply init_guarded. }
  destruct (init_listeners p0) as (_ & _ & _ & _ & _ & Hdl & Hob).
  change (readyState p0) with (readyState p) in *.
  change (observer p0) with (observer p) in *.
  change (domContentLoadedListeners p0) with (domContentLoadedListeners p) in *.
  rewrite Ho in Hob. split.
  - unfold getStatus. rewrite Hf, Hob.
    destruct (getElementById HEADER_ID (doc (st (init p0)))) eqn:E;
      [|exfalso; exact (chain_header _ Hc E)].
    destruct (readyState p); reflexivity.
  - apply status_when_ready; [exact Hc|exact Hf|].
    rewrite Hdl, Hob. destruct (readyState p); [right|left; eauto|left; eauto].
    apply in_or_app. right. left. reflexivity.
Qed.

Lemma getStatus_after_script_witness :
  getStatus (guard_script (blank empty_page Loading)) = Status true true false /\
  getStatus (fire_DOMContentLoaded (guard_script (blank empty_page Loading))) =
  Status true true true.
Proof.
  apply (getStatus_after_script (blank empty_page Loading)).
  - discriminate.
  - reflexivity.
Defined.

Lemma call_observer_kept c t p o :
  observer p = Some o -> observer (call c t p) = Some o.
Proof.
  intros H. destruct c; cbn [call]; try exact H.
  - unfold setupMutationObserver. cbn [run with_st observer]. rewrite H. exact H.
  - destruct (join_click_listener t (st p)) as [[[|]|e] s']; exact H.
Qed.

Lemma after_all_observer_kept es p o :
  observer p = Some o -> observer (after_all p es) = Some o.
Proof.
  revert p. induction es as [|e es IH]; intros p H; [exact H|].
  apply (IH (after p e)). destruct e as [c t|ms|change]; [|exact H|exact H].
  apply call_observer_kept, H.
Qed.

(** X4. [setupMutationObserver] on a document without a body creates
    the observer without telling it to observe anything, and no later
    callback makes up for it, even after other code has added a body: the
    early return on an existing observer keeps it idle, while [getStatus]
    reports it as active. *)
Theorem observer_without_body (p : page) (es : list event) :
  observer p = None -> body (doc (st p)) = None ->
  let p' := setupMutationObserver p in
  observer p' = Some false /\
  st p' = st p /\
  observer (after_all p' es) = Some false /\
  observerActive (getStatus (after_all p' es)) = true.
Proof.
  intros Ho Hb p'.
  assert (observer p' = Some false /\ st p' = st p) as [H1 H2].
  { unfold p', setupMutationObserver. rewrite Ho, Hb. split; reflexivity. }
  split; [exact H1|]. split; [exact H2|].
  pose proof (after_all_observer_kept es p' false H1) as H3.
  split; [exact H3|]. unfold getStatus. cbn [observerActive]. rewrite H3. reflexivity.
Qed.

Lemma observer_without_body_witness :
  observer
    (after_all (setupMutationObserver (blank (Dom [el "html" "" [] []] []) Complete))
       [Changes (fun _ => empty_page); Calls OnDomContentLoaded None]) = Some false.
Proof.
  apply (observer_without_body (blank (Dom [el "html" "" [] []] []) Complete)
           [Changes (fun _ => empty_page); Calls OnDomContentLoaded None]);
    reflexivity.
Defined.

Lemma changed_listeners q change :
  loadListeners (after q (Changes change)) = loadListeners q.
Proof. reflexivity. Qed.

Lemma changed_ready_listeners q change :
  domContentLoadedListeners (after q (Changes change)) = domContentLoadedListeners q.
Proof. reflexivity. Qed.

Lemma restore_when_listening q (L : Prop) :
  documentElement (doc (st q)) <> None ->
  In OnLoad (loadListeners q) ->
  (L -> In OnDomContentLoaded (domContentLoadedListeners q)) ->
  has_chain (doc (st (fire_load q))) /\
  (L -> has_chain (doc (st (fire_DOMContentLoaded q)))) /\
  has_chain (doc (st (call DelayedEnsure None q))).
Proof.
  intros Hr Hl Hd. split; [|split].
  - unfold fire_load. apply (call_all_restores _ _ _ OnLoad); [exact Hl|auto|exact Hr].
  - intros HL. unfold fire_DOMContentLoaded.
    apply (call_all_restores _ _ _ OnDomContentLoaded); [exact (Hd HL)|auto|exact Hr].
  - eapply guarded_has_chain; [apply call_ensures; auto|exact Hr].
Qed.

(** X5. Whatever other code did to the document after the script has
    run, as long as a document element is left: the chain is there after
    the [load] event, after [DOMContentLoaded] on a page that was loading
    when the script ran, and after each delayed call a join click has
    scheduled. *)
Theorem events_restore (p : page) (change : dom -> dom) :
  let p1 := after (guard_script p) (Changes change) in
  documentElement (doc (st p1)) <> None ->
  has_chain (doc (st (fire_load p1))) /\
  (readyState p = Loading -> has_chain (doc (st (fire_DOMContentLoaded p1)))) /\
  has_chain (doc (st (call DelayedEnsure None p1))).
Proof.
  intros p1.
  destruct (init_listeners (install_console_error p)) as (_ & Hl & _ & _ & _ & Hdl & _).
  change (readyState (install_console_error p)) with (readyState p) in Hdl.
  fold (guard_script p) in Hl, Hdl.
  rewrite <- (changed_listeners (guard_script p) change) in Hl.
  rewrite <- (changed_ready_listeners (guard_script p) change) in Hdl.
  fold p1 in Hl, Hdl. clearbody p1. intros Hr.
  apply restore_when_listening; [exact Hr| |].
  - rewrite Hl. apply in_or_app. right. left. reflexivity.
  - intros El. rewrite Hdl, El. apply in_or_app. right. left. reflexivity.
Qed.

Lemma events_restore_witness :
  has_chain
    (doc (st (fire_load
                (after (guard_script (blank empty_page Loading))
                   (Changes (fun _ => empty_page)))))).
Proof.
  apply (events_restore (blank empty_page Loading) (fun _ => empty_page)).
  vm_compute. discriminate.
Defined.

End GuardEvents.

Module GuardParts.
Import Dom Js Guard Spec Events DomFacts GuardFacts EnsureStub Guards GuardEvents.

#[local] Arguments ensureStub : simpl never.
#[local] Arguments run_ensureStub : simpl never.

(** An update that is told the node it will find. *)
Lemma fupdate_at_node p g h f n :
  fget p f = Some n -> g n = h n -> fupdate p g f = fupdate p h f.
Proof.
  intros Hd Hg. destruct p as [|i p]; [reflexivity|]. cbn [fupdate fget] in *.
  destruct (f !! i) as [k|] eqn:Ek; [|discriminate].
  apply list_eq. intros j. rewrite !list_lookup_alter.
  destruct (decide (i = j)) as [<-|Hne]; [|reflexivity].
  rewrite Ek. cbn [fmap option_fmap option_map]. f_equal.
  clear Ek. revert k Hd. induction p as [|i' p IH]; intros k Hd.
  - cbn [get_at] in Hd. injection Hd as ->. exact Hg.
  - destruct k as [a ks|t]; [|reflexivity]. cbn [get_at children] in Hd.
    destruct (ks !! i') as [k'|] eqn:Ek'; [|discriminate].
    cbn [update_at]. f_equal. apply list_eq. intros j'. rewrite !list_lookup_alter.
    destruct (decide (i' = j')) as [<-|Hne]; [|reflexivity].
    rewrite Ek'. cbn [fmap option_fmap option_map]. f_equal. apply IH, Hd.
Qed.

Lemma update_at_node d r g h n :
  deref d r = Some n -> g n = h n -> update d r g = update d r h.
Proof.
  intros Hd Hg. unfold update. f_equal. eapply fupdate_at_node; eauto.
Qed.

(** ** The click listener *)

Lemma zoom_not_empty h : Str.includes "zoom" h = true -> String.eqb h "" = false.
Proof. destruct h; [discriminate|reflexivity]. Qed.

Lemma matches_join_selector anc a :
  Css.matches_selector
    [Css.Complex [Css.STag "button"] []; Css.Complex [Css.STag "a"] [];
     Css.Complex [Css.SAttrEq "role" "button"] []] anc a =
  String.eqb "button" (tagName a) || String.eqb "a" (tagName a) ||
  match Css.assoc "role" (attributes a) with
  | Some v => String.eqb "button" v
  | None => false
  end.
Proof.
  unfold Css.matches_selector, Css.matches_complex, Css.matches_compound.
  cbn [existsb forallb Css.subject Css.context Css.matches_context Css.matches_simple].
  rewrite !andb_true_r, orb_false_r, orb_assoc. reflexivity.
Qed.

(** X6. The click listener is also set off by the text "Start meeting"
    and, whatever the text, by a resolved [href] that holds "zoom": a
    click on such a [button], [a] or element of role [button] calls
    [ensureStub] before the dispatch returns and schedules the two delayed
    calls. *)
Theorem start_meeting_and_zoom_links (p : page) (target : nref) (a : attrs)
  (ks : list node) :
  clickCapture p = [JoinSessionClick] ->
  documentElement (doc (st p)) <> None ->
  deref (doc (st p)) target = Some (Element a ks) ->
  tagName a = "button" \/ tagName a = "a" \/
    Css.assoc "role" (attributes a) = Some "button" ->
  Str.includes "Start meeting" (textContent (Element a ks)) = true \/
    (exists h, href a = Some h /\ Str.includes "zoom" h = true) ->
  has_chain (doc (st (dispatch_click target p))) /\
  timeouts (dispatch_click target p) =
  timeouts p ++ [(100, DelayedEnsure); (500, DelayedEnsure)].
Proof.
  intros Hc Hr Hd Hkind Hwhy.
  assert (isJoinButton target (doc (st p)) = Normal true) as Hj.
  { unfold isJoinButton, element_matches. rewrite parse_join_selector, Hd.
    rewrite matches_join_selector. f_equal. apply andb_true_iff. split.
    - destruct Hkind as [-> | [-> | ->]]; [reflexivity|reflexivity|].
      rewrite String.eqb_refl. apply orb_true_r.
    - destruct Hwhy as [-> | (h & -> & Hz)].
      + rewrite orb_true_r. reflexivity.
      + rewrite Hz, (zoom_not_empty h Hz). apply orb_true_r. }
  destruct (join_click_run p target Hc Hj) as (logs & ->). split.
  - cbn [setTimeout st with_st]. apply ensureStub_has_chain. exact Hr.
  - cbn [setTimeout timeouts with_st]. rewrite <- app_assoc. reflexivity.
Qed.

Lemma start_meeting_and_zoom_links_witness :
  has_chain (doc (st (dispatch_click first_in_body (click_guarded zoom_link_page)))).
Proof.
  eapply (start_meeting_and_zoom_links (click_guarded zoom_link_page) first_in_body).
  - reflexivity.
  - discriminate.
  - reflexivity.
  - right. left. reflexivity.
  - right. eexists. split; reflexivity.
Defined.

(** X7. A click on an element that is no [button], no [a] and has not
    the role [button], or whose text holds neither phrase and whose
    resolved [href] holds no "zoom", changes nothing: nothing is printed,
    [ensureStub] is not called and no delayed call is scheduled. *)
Theorem other_clicks_ignored (p : page) (target : nref) (a : attrs) (ks : list node) :
  clickCapture p = [JoinSessionClick] ->
  deref (doc (st p)) target = Some (Element a ks) ->
  (tagName a <> "button" /\ tagName a <> "a" /\
   Css.assoc "role" (attributes a) <> Some "button") \/
  (Str.includes "Join session" (textContent (Element a ks)) = false /\
   Str.includes "Start meeting" (textContent (Element a ks)) = false /\
   forall h, href a = Some h -> Str.includes "zoom" h = false) ->
  dispatch_click target p = p.
Proof.
  intros Hc Hd Hno.
  assert (isJoinButton target (doc (st p)) = Normal false) as Hj.
  { unfold isJoinButton, element_matches. rewrite parse_join_selector, Hd.
    rewrite matches_join_selector. f_equal.
    destruct Hno as [(Hb & Ha & Hrole) | (H1 & H2 & H3)].
    - apply andb_false_iff. left.
      rewrite !orb_false_iff. repeat split.
      + apply String.eqb_neq. congruence.
      + apply String.eqb_neq. congruence.
      + destruct (Css.assoc "role" (attributes a)) as [v|]; [|reflexivity].
        apply String.eqb_neq. congruence.
    - apply andb_false_iff. right. rewrite H1, H2.
      destruct (href a) as [h|]; [|reflexivity].
      rewrite (H3 h eq_refl). apply andb_false_r. }
  unfold dispatch_click. rewrite Hc. unfold call_all. cbn [foldl call].
  unfold join_click_listener, bind, query. rewrite Hj. unfold ret.
  destruct p. reflexivity.
Qed.

Lemma other_clicks_ignored_witness :
  dispatch_click first_in_body (click_guarded span_page) = click_guarded span_page.
Proof.
  eapply (other_clicks_ignored (click_guarded span_page) first_in_body).
  - reflexivity.
  - reflexivity.
  - left. repeat split; discriminate.
Defined.

(** ** wrapLegacyFunctions and the late definitions *)

(** X8. [wrapLegacyFunctions] touches nothing but the listed names that
    hold a function: the document and [stubEnsured] are as before, no
    global appears or disappears, every other name keeps its value, and a
    listed name that holds something else than a function keeps it. *)
Theorem wrapLegacyFunctions_frame (p : page) :
  doc (st (wrapLegacyFunctions p)) = doc (st p) /\
  stubEnsured (st (wrapLegacyFunctions p)) = stubEnsured (st p) /\
  (forall x, is_Some (window (wrapLegacyFunctions p) !! x) <-> is_Some (window p !! x)) /\
  (forall x, x ∉ legacyFunctions ->
     window (wrapLegacyFunctions p) !! x = window p !! x) /\
  (forall x v, window p !! x = Some (GVal v) ->
     window (wrapLegacyFunctions p) !! x = Some (GVal v)).
Proof.
  destruct (wrapLegacyFunctions_shape p) as (w & logs & Hs).
  split; [rewrite Hs; reflexivity|]. split; [rewrite Hs; reflexivity|].
  split; [|split].
  - intros x. rewrite wrapLegacyFunctions_window.
    destruct (bool_decide (x ∈ legacyFunctions)); [|reflexivity].
    destruct (window p !! x) as [g|]; cbn [fmap option_fmap option_map].
    + split; eauto.
    + reflexivity.
  - intros x Hx. rewrite wrapLegacyFunctions_window.
    rewrite bool_decide_eq_false_2 by exact Hx. reflexivity.
  - intros x v Hv. rewrite wrapLegacyFunctions_window, Hv.
    destruct (bool_decide (x ∈ legacyFunctions)); reflexivity.
Qed.

Lemma wrapLegacyFunctions_frame_witness :
  window (wrapLegacyFunctions
            (Page (State empty_page false []) Complete
               {[ "updateTabletBadge" := GVal (VOther "3") ]} None false false [] [] [] [] []
               false)) !! "updateTabletBadge" = Some (GVal (VOther "3")).
Proof.
  apply (wrapLegacyFunctions_frame
           (Page (State empty_page false []) Complete
              {[ "updateTabletBadge" := GVal (VOther "3") ]} None false false [] [] [] [] []
              false)).
  reflexivity.
Defined.

Lemma safeWrap_run f name this args s :
  safeWrap f name this args s =
  match f this args (ensureStub s).2 with
  | (Normal x, s2) => (Normal x, s2)
  | (Throw err, s2) => (Normal VNull, caught name err s2)
  end.
Proof.
  unfold safeWrap, try_catch, bind, run_ensureStub.
  destruct (ensureStub s) as [ok s1]. cbn [fst snd].
  destruct (f this args s1) as [[v|err] s2]; reflexivity.
Qed.

(** X9. A function defined on [window] under a listed name through the
    replaced [Object.defineProperty] is stored wrapped: what is found
    under that name afterwards is [safeWrap] of the function and the name,
    and one line is printed.  So a call of it first calls [ensureStub],
    then the function with the same [this] and arguments, and answers
    what the function answers, or [null] after a warning when the function
    throws: it never throws.  Every other definition (another name, a
    value that is no function, another object) goes through as the native
    function does it; the document is never touched and no other global
    changes. *)
Theorem late_definitions (w : gmap string global) (s : state) (prop : string)
  (v : global) (on_window : bool) :
  let r := defineProperty on_window prop v (w, s) in
  doc r.2 = doc s /\
  (forall x, x <> prop -> r.1 !! x = w !! x) /\
  (on_window = false -> r = (w, s)) /\
  (on_window = true ->
   match v with
   | GFun f =>
       if bool_decide (prop ∈ legacyFunctions)
       then r = (<[prop := GFun (safeWrap f prop)]> w,
                 logged [Entry Log [VStr TAG;
                                    VStr ("Intercepting late-bound function: " +:+ prop)]] s) /\
            forall this args s0,
              safeWrap f prop this args s0 =
              match f this args (ensureStub s0).2 with
              | (Normal x, s2) => (Normal x, s2)
              | (Throw err, s2) => (Normal VNull, caught prop err s2)
              end
       else r = (<[prop := v]> w, s)
   | GVal _ => r = (<[prop := v]> w, s)
   end).
Proof.
  intros r. subst r. unfold defineProperty.
  destruct on_window, v as [f|x]; cbn [andb fst snd].
  - destruct (bool_decide (prop ∈ legacyFunctions)); cbn [fst snd].
    + split; [reflexivity|]. split; [intros y Hy; apply lookup_insert_ne; congruence|].
      split; [discriminate|]. intros _. split; [reflexivity|].
      intros this args s0. apply safeWrap_run.
    + split; [reflexivity|]. split; [intros y Hy; apply lookup_insert_ne; congruence|].
      split; [discriminate|]. reflexivity.
  - split; [reflexivity|]. split; [intros y Hy; apply lookup_insert_ne; congruence|].
    split; [discriminate|]. reflexivity.
  - split; [reflexivity|]. split; [reflexivity|]. split; [reflexivity|]. discriminate.
  - split; [reflexivity|]. split; [reflexivity|]. split; [reflexivity|]. discriminate.
Qed.

Lemma late_definitions_witness :
  (defineProperty true "refreshNotifications" (GFun (fun _ _ => throw VNull))
     (∅, State empty_page false [])).1 !! "refreshNotifications" =
  Some (GFun (safeWrap (fun _ _ => throw VNull) "refreshNotifications")) /\
  (safeWrap (fun _ _ => throw VNull) "refreshNotifications" VUndefined []
     (State empty_page false [])).1 = Normal VNull.
Proof.
  destruct (late_definitions ∅ (State empty_page false []) "refreshNotifications"
              (GFun (fun _ _ => throw VNull)) true) as (_ & _ & _ & H).
  destruct (H eq_refl) as [Hr Hcall]. split.
  - rewrite Hr. reflexivity.
  - rewrite Hcall. reflexivity.
Defined.

(** ** Where a new header goes *)

(** X10. On a document without an element of the header id,
    [ensureStub] answers [true] and puts the header it builds, with its
    three levels, before the first child of the body; without a body,
    after the last child of the document element; and without a document
    element nowhere: the document is then as before and still has no
    element of that id. *)
Theorem header_placement (s : state) :
  getElementById HEADER_ID (doc s) = None ->
  let d' := doc (ensureStub s).2 in
  (ensureStub s).1 = true /\
  match body (doc s), documentElement (doc s) with
  | Some b, _ =>
      exists a ks,
        deref (doc s) b = Some (Element a ks) /\
        d' = update (doc s) b (fun _ => Element a (full_header :: ks))
  | None, Some r =>
      exists a ks,
        deref (doc s) r = Some (Element a ks) /\
        d' = update (doc s) r (fun _ => Element a (ks ++ [full_header]))
  | None, None =>
      document d' = document (doc s) /\ getElementById HEADER_ID d' = None
  end.
Proof.
  intros Hn d'. subst d'. rewrite ensureStub_unfold. rewrite (ensureStub_try_fresh s Hn).
  split; [reflexivity|]. cbn [snd ensured doc]. unfold place_header.
  destruct (body (doc s)) as [b|] eqn:Eb.
  - destruct (body_elem _ b Eb) as (a & ks & Hd & _). exists a, ks. split; [exact Hd|].
    cbn [fst]. apply update_at_node with (n := Element a ks); [exact Hd|reflexivity].
  - destruct (documentElement (doc s)) as [r|] eqn:Er.
    + destruct (documentElement_elem _ r Er) as (a & ks & Hd & _). exists a, ks.
      split; [exact Hd|]. rewrite Hd. cbn [fst children].
      apply update_at_node with (n := Element a ks); [exact Hd|].
      cbn [Guard.insert_child]. rewrite take_ge, drop_ge by lia. reflexivity.
    + cbn [fst document]. split; [reflexivity|]. exact Hn.
Qed.

Lemma header_placement_witness :
  exists a ks,
    deref empty_page (NRef InDocument [0; 1]) = Some (Element a ks) /\
    doc (ensureStub (State empty_page false [])).2 =
    update empty_page (NRef InDocument [0; 1]) (fun _ => Element a (full_header :: ks)).
Proof.
  apply (header_placement (State empty_page false [])). reflexivity.
Defined.

(** ** What the script prints *)

Lemma wrap_quiet (l : list string) (w : gmap string global) (s : state) :
  (forall x f, x ∈ l -> w !! x <> Some (GFun f)) ->
  foldl wrap_if_function (w, s) l = (w, s).
Proof.
  induction l as [|y l IH]; intros H; [reflexivity|].
  cbn [foldl]. unfold wrap_if_function at 2. cbn [fst snd].
  destruct (w !! y) as [[f|v]|] eqn:E.
  - exfalso. apply (H y f); [left|exact E].
  - apply IH. intros x f Hx. apply H. right. exact Hx.
  - apply IH. intros x f Hx. apply H. right. exact Hx.
Qed.

Lemma ensureStub_first s :
  getElementById HEADER_ID (doc s) = None ->
  (ensureStub s).2 =
  State (place_header full_header (doc s)).1 true
    (console s ++ [line "Creating stub header element";
                   line "Stub structure verified/created successfully"]).
Proof.
  intros Hn. rewrite ensureStub_unfold. rewrite (ensureStub_try_fresh s Hn). reflexivity.
Qed.

Lemma ensureStub_next s :
  has_chain (doc s) ->
  (ensureStub s).2 =
  State (doc s) true (console s ++ [line "Stub structure verified/created successfully"]).
Proof.
  intros [[[[h c] i] l] H]. rewrite ensureStub_unfold.
  rewrite (ensureStub_try_chain s h c i l H). reflexivity.
Qed.

(** X23. On a page with a document element, no element of the header
    id, no observer and none of the five listed functions, the script
    prints exactly these lines, all through [console.log] and in this
    order: the opening line, the creation of the header, the success of
    [ensureStub], the installation of the click guard; on a page past
    loading the success of the second [ensureStub] and, when the document
    has a body, the activation of the observer; and the closing line. *)
Theorem script_transcript (p : page) :
  getElementById HEADER_ID (doc (st p)) = None ->
  documentElement (doc (st p)) <> None ->
  observer p = None ->
  (forall x f, x ∈ legacyFunctions -> window p !! x <> Some (GFun f)) ->
  console (st (guard_script p)) =
  console (st p) ++ transcript (readyState p) (has_body (doc (st (guard_script p)))).
Proof.
  intros Hn Hr Ho Hw. unfold guard_script, init.
  set (p1 := run run_ensureStub
               (run (console_log [VStr TAG; VStr "Initializing Enhanced Legacy Notif Guard v4..."])
                  (install_console_error p))).
  set (d1 := (place_header full_header (doc (st p))).1).
  assert (st p1 =
          State d1 true
            (console (st p) ++
             [line "Initializing Enhanced Legacy Notif Guard v4...";
              line "Creating stub header element";
              line "Stub structure verified/created successfully"])) as Hs1.
  { unfold p1. rewrite st_run, run_ensureStub_state, st_run.
    unfold console_log at 1. cbn [snd install_console_error st].
    rewrite ensureStub_first by exact Hn. cbn [doc console]. rewrite <- app_assoc.
    reflexivity. }
  assert (has_chain d1) as Hc1.
  { unfold has_chain, d1. rewrite (stub_chain_fresh _ Hn Hr). eauto. }
  assert (wrapLegacyFunctions p1 =
          Page (st p1) (readyState p) (window p) None true (querySelectorPatched p)
            (clickCapture p) (domContentLoadedListeners p) (loadListeners p)
            (intervals p) (timeouts p) true) as ->.
  { unfold wrapLegacyFunctions. change (window p1) with (window p).
    rewrite (wrap_quiet legacyFunctions (window p) (st p1) Hw).
    change (observer p1) with (observer p). rewrite Ho. reflexivity. }
  rewrite Hs1. clearbody p1. clear Hs1 p1.
  unfold patchQuerySelector, setupJoinSessionGuard, add_clickCapture.
  cbn [st readyState window observer definePropertyPatched querySelectorPatched clickCapture
       domContentLoadedListeners loadListeners intervals timeouts consoleErrorPatched
       run with_st console_log snd doc stubEnsured console].
  destruct (readyState p) eqn:Er.
  - cbn [add_domContentLoaded add_load setInterval st run with_st console_log snd console
         transcript]. rewrite <- !app_assoc. reflexivity.
  - match goal with |- context [run run_ensureStub ?q] => set (q0 := q) end.
    assert (st (run run_ensureStub q0) =
            State d1 true
              (console (st p) ++
               [line "Initializing Enhanced Legacy Notif Guard v4...";
                line "Creating stub header element";
                line "Stub structure verified/created successfully";
                line "Join session guard installed";
                line "Stub structure verified/created successfully"])) as Hs2.
    { rewrite st_run, run_ensureStub_state. unfold q0.
      cbn [st run with_st console_log snd doc stubEnsured console].
      rewrite ensureStub_next by exact Hc1. cbn [doc console]. rewrite <- !app_assoc.
      reflexivity. }
    unfold setupMutationObserver.
    change (observer (run run_ensureStub q0)) with (@None bool).
    rewrite Hs2. cbn [doc]. unfold has_body.
    destruct (body d1) eqn:Eb;
      cbn [add_load setInterval st run with_st console_log snd console doc transcript];
      rewrite Eb; rewrite <- !app_assoc; reflexivity.
  - match goal with |- context [run run_ensureStub ?q] => set (q0 := q) end.
    assert (st (run run_ensureStub q0) =
            State d1 true
              (console (st p) ++
               [line "Initializing Enhanced Legacy Notif Guard v4...";
                line "Creating stub header element";
                line "Stub structure verified/created successfully";
                line "Join session guard installed";
                line "Stub structure verified/created successfully"])) as Hs2.
    { rewrite st_run, run_ensureStub_state. unfold q0.
      cbn [st run with_st console_log snd doc stubEnsured console].
      rewrite ensureStub_next by exact Hc1. cbn [doc console]. rewrite <- !app_assoc.
      reflexivity. }
    unfold setupMutationObserver.
    change (observer (run run_ensureStub q0)) with (@None bool).
    rewrite Hs2. cbn [doc]. unfold has_body.
    destruct (body d1) eqn:Eb;
      cbn [add_load setInterval st run with_st console_log snd console doc transcript];
      rewrite Eb; rewrite <- !app_assoc; reflexivity.
Qed.

Lemma script_transcript_witness :
  console (st (guard_script (blank empty_page Complete))) =
  transcript Complete (has_body (doc (st (guard_script (blank empty_page Complete))))).
Proof.
  apply (script_transcript (blank empty_page Complete)).
  - reflexivity.
  - discriminate.
  - reflexivity.
  - intros x f _. unfold blank. cbn [window]. rewrite lookup_empty. discriminate.
Defined.

(** ** A header that lacks its container *)

Section Container.
Variable plug : node -> dom.
Variable c : nref.
Hypothesis plug_deref : forall x q, deref (plug x) (below c q) = get_at q x.
Hypothesis plug_update :
  forall x q g, update (plug x) (below c q) g = plug (update_at q g x).

(** The two levels below a container that has just been appended. *)
Lemma fill_container {B} (k : M B) s :
  doc s = plug new_container ->
  (let! found := query (querySelector c "div") in
   let! innerDiv :=
     match found with
     | Some i => ret i
     | None => appendChild c new_innerDiv
     end in
   let! last := query (lastChild innerDiv) in
   match last with
   | Some _ => ret tt
   | None => let! _ := appendChild innerDiv new_stub in ret tt
   end;;;
   k) s = k (set_doc (plug full_container) s).
Proof.
  intros Hdoc. rewrite <- (below_nil c). unfold bind, query. rewrite Hdoc.
  rewrite (plug_query plug c plug_deref new_container [] "div" is_div _ simple_div eq_refl).
  rewrite (plug_append plug c plug_deref plug_update new_container [] _ new_innerDiv s
             Hdoc eq_refl).
  cbn [doc set_doc app].
  set (c1 := update_at [] (Guard.insert_child 0 new_innerDiv) new_container).
  rewrite (plug_lastChild_none plug c plug_deref c1 [0] _ eq_refl).
  rewrite (plug_append plug c plug_deref plug_update c1 [0] _ new_stub
             (set_doc (plug c1) s) eq_refl eq_refl).
  cbn [fst snd ret set_doc doc]. destruct s; reflexivity.
Qed.

End Container.

(** X24. On a document whose element of the header id has no
    [.container] below it, [ensureStub] creates no header: it appends the
    container, with the inner div and the leaf in it, after the last child
    of that element, changes nothing else, prints only the success line
    and answers [true]; the element is still the one found by the id. *)
Theorem container_appended (s : state) (h : nref) (a : attrs) (ks : list node) :
  getElementById HEADER_ID (doc s) = Some h ->
  deref (doc s) h = Some (Element a ks) ->
  querySelector h ".container" (doc s) = Normal None ->
  ensureStub s =
  (true,
   State (update (doc s) h (fun _ => Element a (ks ++ [full_container]))) true
     (console s ++ [line "Stub structure verified/created successfully"])) /\
  getElementById HEADER_ID (doc (ensureStub s).2) = Some h.
Proof.
  intros Hh Hd Hq.
  assert (ensureStub s =
          (true,
           State (update (doc s) h (Guard.insert_child (length ks) full_container)) true
             (console s ++ [line "Stub structure verified/created successfully"]))) as Hrun.
  { rewrite ensureStub_unfold. rewrite ensureStub_try_unfold.
    unfold bind at 1, query at 1. rewrite Hh. unfold bind at 1, ret at 1.
    unfold fill_header. unfold bind at 1, query at 1. rewrite Hq.
    unfold bind at 1. rewrite (appendChild_run _ _ _ _ _ Hd).
    rewrite (fill_container
               (fun x => update (doc s) h (Guard.insert_child (length ks) x))
               (child_ref h (length ks))).
    - unfold bind, set_stubEnsured, console_log. cbn [fst snd set_doc doc stubEnsured console].
      reflexivity.
    - intros x q. eapply deref_inserted; [exact Hd|lia].
    - intros x q g. eapply update_inserted; [exact Hd|lia].
    - reflexivity. }
  rewrite Hrun. cbn [snd doc]. split.
  - f_equal. f_equal.
    apply update_at_node with (n := Element a ks); [exact Hd|].
    cbn [Guard.insert_child]. rewrite take_ge, drop_ge by lia. reflexivity.
  - apply getElementById_update_same; [apply insert_child_keeps|exact Hh].
Qed.

Lemma container_appended_witness :
  getElementById HEADER_ID
    (doc (ensureStub (State (Dom [el "html" "" [] [el "body" "" []
                                   [el "div" HEADER_ID [] [Text "badge"]]]] []) false [])).2) =
  Some (NRef InDocument [0; 0; 0]).
Proof.
  apply (container_appended
           (State (Dom [el "html" "" [] [el "body" "" []
                          [el "div" HEADER_ID [] [Text "badge"]]]] []) false [])
           (NRef InDocument [0; 0; 0]) (Attrs "div" HEADER_ID [] "" [] None) [Text "badge"]);
    reflexivity.
Defined.

End GuardParts.

(** * The meeting page *)

Module MeetingFacts.
Import Dom Js Guard Spec DomFacts GuardFacts MeetingSpec.

#[local] Arguments String.eqb : simpl never.

(** ** A loop over the matched elements is one pass over the tree *)

Section Pass.
Variable m : list attrs -> attrs -> bool.
Variable h : attrs -> attrs.

Lemma fold_into_child pre k ks qs :
  foldl (fun f p => fupdate p (on_attrs h) f) (pre ++ k :: ks)
    (map (cons (length pre)) qs) =
  pre ++ foldl (fun n q => update_at q (on_attrs h) n) k qs :: ks.
Proof.
  revert k. induction qs as [|q qs IH]; intros k; [reflexivity|].
  cbn [map foldl fupdate].
  replace (length pre) with (length pre + 0) at 1 by lia.
  rewrite alter_app_r. cbn [alter list_alter]. apply IH.
Qed.

Lemma fold_in_element a ks ps :
  Forall (fun p => p <> []) ps ->
  foldl (fun n p => update_at p (on_attrs h) n) (Element a ks) ps =
  Element a (foldl (fun f p => fupdate p (on_attrs h) f) ks ps).
Proof.
  intros Hps. revert ks. induction Hps as [|p ps Hp _ IH]; intros ks; [reflexivity|].
  destruct p as [|j q]; [congruence|]. cbn [foldl update_at fupdate]. apply IH.
Qed.

Lemma all_in_nonempty (F : node -> list path) ks i :
  Forall (fun p => p <> []) (all_in F ks i).
Proof.
  revert i. induction ks as [|k ks IH]; intros i; [constructor|].
  cbn [all_in]. apply Forall_app. split; [|apply IH].
  apply Forall_map. apply Forall_forall. intros. discriminate.
Qed.

Lemma fold_over_list (F : node -> list path) (R : node -> node) ks :
  Forall (fun k => foldl (fun n q => update_at q (on_attrs h) n) k (F k) = R k) ks ->
  forall pre,
    foldl (fun f p => fupdate p (on_attrs h) f) (pre ++ ks) (all_in F ks (length pre)) =
    pre ++ map R ks.
Proof.
  induction 1 as [|k ks Hk _ IH]; intros pre; [reflexivity|].
  cbn [all_in map]. rewrite foldl_app, fold_into_child, Hk.
  replace (pre ++ R k :: ks) with ((pre ++ [R k]) ++ ks) by (rewrite <- app_assoc; reflexivity).
  replace (S (length pre)) with (length (pre ++ [R k])) by (rewrite length_app; simpl; lia).
  rewrite IH, <- app_assoc. reflexivity.
Qed.

Lemma fold_is_pass anc n :
  foldl (fun n q => update_at q (on_attrs h) n) n (all_matches m anc n) =
  restyle m h anc n.
Proof.
  revert anc. induction n as [a ks IH|t] using node_induction; intros anc; [|reflexivity].
  cbn [all_matches restyle]. rewrite foldl_app.
  assert (forall a', foldl (fun n q => update_at q (on_attrs h) n) (Element a' ks)
                       (all_in (all_matches m (a :: anc)) ks 0) =
                     Element a' (map (restyle m h (a :: anc)) ks)) as Hks.
  { intros a'. rewrite fold_in_element by apply all_in_nonempty. f_equal.
    apply (fold_over_list _ (restyle m h (a :: anc)) ks) with (pre := []).
    eapply Forall_impl; [exact IH|]. intros k Hk. apply Hk. }
  destruct (m anc a); cbn [foldl update_at on_attrs]; apply Hks.
Qed.

Lemma fold_document d :
  foldl (fun d r => update d r (on_attrs h)) d
    (map (NRef InDocument) (all_in (all_matches m []) (document d) 0)) =
  Dom (map (restyle m h []) (document d)) (detached d).
Proof.
  assert (forall ps d,
            foldl (fun d r => update d r (on_attrs h)) d (map (NRef InDocument) ps) =
            Dom (foldl (fun f p => fupdate p (on_attrs h) f) (document d) ps) (detached d))
    as Hfold.
  { induction ps as [|p ps IHp]; intros [f x]; [reflexivity|].
    cbn [map foldl]. rewrite IHp. reflexivity. }
  rewrite Hfold. f_equal.
  apply (fold_over_list _ (restyle m h []) (document d)) with (pre := []).
  apply Forall_forall. intros k _. apply fold_is_pass.
Qed.

Lemma restyle_ext m' anc anc' n :
  (forall x y a, m x a = m' y a) -> restyle m h anc n = restyle m' h anc' n.
Proof.
  intros Hm. revert anc anc'.
  induction n as [a ks IH|t] using node_induction; intros anc anc'; [|reflexivity].
  cbn [restyle]. rewrite (Hm anc anc' a). f_equal.
  apply map_ext_Forall. eapply Forall_impl; [exact IH|]. intros k Hk. apply Hk.
Qed.

End Pass.

(** ** hideLoadingSpinner *)

Lemma parse_spinners :
  Css.parse ".spinner, .loading-spinner, [data-loading]" = Some spinner_selector.
Proof. reflexivity. Qed.

Lemma matches_spinner anc a : Css.matches_selector spinner_selector anc a = is_spinner a.
Proof.
  unfold Css.matches_selector, Css.matches_complex, Css.matches_compound, is_spinner.
  cbn [spinner_selector existsb forallb Css.subject Css.context Css.matches_context
       Css.matches_simple].
  rewrite !andb_true_r, orb_false_r, orb_assoc. reflexivity.
Qed.

Section Style.
Variable fragment : string -> list node.
Variable with_display : string -> string -> string.

Lemma hideLoadingSpinner_run s :
  MeetingPage.hideLoadingSpinner with_display s =
  (Normal tt, set_doc (hidden with_display (doc s)) s).
Proof.
  unfold MeetingPage.hideLoadingSpinner, bind, query, document_querySelectorAll.
  rewrite parse_spinners. cbn [doc]. f_equal. f_equal.
  rewrite fold_document. unfold hidden. f_equal.
  apply map_ext. intros n. apply restyle_ext. intros x y a. apply matches_spinner.
Qed.

Lemma pass_any anc n :
  restyle (fun _ => is_spinner) (MeetingPage.hide with_display) anc n = pass with_display n.
Proof. apply restyle_ext. reflexivity. Qed.

Lemma pass_element a ks :
  pass with_display (Element a ks) =
  Element (restyled with_display a) (map (pass with_display) ks).
Proof.
  unfold pass at 1. cbn [restyle]. f_equal. apply map_ext. intros k. apply pass_any.
Qed.

Lemma get_at_pass p n :
  get_at p (pass with_display n) = pass with_display <$> get_at p n.
Proof.
  revert n. induction p as [|i p IH]; intros n; [reflexivity|].
  destruct n as [a ks|t]; [|reflexivity]. rewrite pass_element. cbn [get_at children].
  rewrite list_lookup_fmap. destruct (ks !! i) as [k|]; [apply IH|reflexivity].
Qed.

Lemma deref_hidden d p :
  deref (hidden with_display d) (NRef InDocument p) =
  pass with_display <$> deref d (NRef InDocument p).
Proof.
  unfold deref, hidden. cbn [ref_path ref_space forest document]. destruct p as [|i p];
    [reflexivity|].
  cbn [fget]. rewrite list_lookup_fmap.
  destruct (document d !! i) as [k|]; [apply get_at_pass|reflexivity].
Qed.

Lemma first_match_pass x anc n :
  first_match (has_id x) anc (pass with_display n) = first_match (has_id x) anc n.
Proof.
  revert anc. induction n as [a ks IH|t] using node_induction; intros anc; [|reflexivity].
  rewrite pass_element. cbn [first_match].
  assert (has_id x anc (restyled with_display a) = has_id x anc a) as ->
    by (unfold has_id, restyled; destruct (is_spinner a); reflexivity).
  destruct (has_id x anc a); [reflexivity|].
  assert (forall i,
            first_in (first_match (has_id x) (restyled with_display a :: anc))
              (map (pass with_display) ks) i =
            first_in (first_match (has_id x) (a :: anc)) ks i) as H; [|apply H].
  induction IH as [|k ks Hk _ IHks]; intros i; [reflexivity|].
  cbn [map first_in]. rewrite Hk.
  rewrite (first_match_ext (has_id x) (has_id x) _ (a :: anc) k) by reflexivity.
  destruct (first_match (has_id x) (a :: anc) k); [reflexivity|apply IHks].
Qed.

Lemma getElementById_hidden x d :
  getElementById x (hidden with_display d) = getElementById x d.
Proof.
  unfold getElementById. destruct (String.eqb x ""); [reflexivity|]. f_equal.
  unfold hidden. cbn [document].
  change (restyle (fun _ => is_spinner) (MeetingPage.hide with_display) [])
    with (pass with_display).
  generalize 0.
  induction (document d) as [|k ks IH]; intros i; [reflexivity|].
  cbn [map first_in]. rewrite first_match_pass.
  destruct (first_match (has_id x) [] k); [reflexivity|apply IH].
Qed.

Lemma getElementById_any x d r :
  getElementById x d = Some r ->
  exists a ks p, r = NRef InDocument p /\ deref d r = Some (Element a ks) /\ id a = x.
Proof.
  unfold getElementById. destruct (String.eqb x ""); [discriminate|].
  destruct (first_in (first_match (has_id x) []) (document d) 0) as [p|] eqn:E;
    [|discriminate].
  intros [= <-]. apply (find_get (fun a => String.eqb (id a) x)) in E as (a & ks & Hg & Hid).
  exists a, ks, p. split; [reflexivity|]. split; [exact Hg|]. apply String.eqb_eq, Hid.
Qed.

Lemma getElementById_kept x d c g :
  keeps_attrs g -> getElementById x d = Some c ->
  getElementById x (update d c g) = Some c.
Proof.
  intros Hg. unfold getElementById. destruct (String.eqb x ""); [discriminate|].
  destruct (first_in (first_match (has_id x) []) (document d) 0) as [p|] eqn:E;
    [|discriminate].
  intros [= <-]. unfold update. cbn [ref_space ref_path forest set_forest document].
  rewrite <- (app_nil_r p) at 1. rewrite first_in_update; auto.
Qed.

Lemma set_children_keeps ks : keeps_attrs (MeetingPage.set_children ks).
Proof. intros [a c|t]; reflexivity. Qed.

End Style.

(** ** initializeZoomIframe *)

Lemma iframe_no_spinner with_display url :
  pass with_display (MeetingPage.new_iframe url) = MeetingPage.new_iframe url.
Proof. reflexivity. Qed.

Lemma error_markup_cons message :
  exists c rest, MeetingPage.error_markup message = String c rest.
Proof. eexists _, _. reflexivity. Qed.

Lemma update_twice d r g1 g2 :
  update (update d r g1) r g2 = update d r (fun x => g2 (g1 x)).
Proof.
  destruct r as [[|] p]; unfold update;
    cbn [ref_space ref_path set_forest forest document detached];
    rewrite fupdate_compose; reflexivity.
Qed.

Lemma update_pointwise d r g h :
  (forall x, g x = h x) -> update d r g = update d r h.
Proof.
  intros H. unfold update. f_equal. apply fupdate_ext. intros x _. apply H.
Qed.

Lemma shown_run fragment with_display s c a ks url :
  getElementById container_id (doc s) = Some c ->
  deref (doc s) c = Some (Element a ks) ->
  url <> "" ->
  MeetingPage.initializeZoomIframe fragment with_display (Some url) s =
  (Normal tt,
   State (hidden with_display
            (update (doc s) c (MeetingPage.set_children [MeetingPage.new_iframe url])))
     (stubEnsured s)
     (console s ++ [Entry Log [VStr MeetingPage.TAG; VStr "Zoom iframe created successfully"]])).
Proof.
  intros Hc Hd Hu. unfold MeetingPage.initializeZoomIframe.
  unfold bind at 1, query at 1. fold container_id. rewrite Hc.
  destruct url as [|x url]; [congruence|].
  unfold bind at 1, MeetingPage.set_innerHTML at 1. rewrite Hd.
  unfold bind at 1, appendChild at 1. cbn [doc set_doc].
  rewrite deref_update_same, Hd. cbn [fmap option_fmap option_map MeetingPage.set_children].
  unfold bind at 1, console_log at 1. cbn [length set_doc doc stubEnsured console fst snd].
  rewrite hideLoadingSpinner_run. cbn [set_doc doc stubEnsured console].
  rewrite update_twice.
  rewrite (update_pointwise _ _ _
             (MeetingPage.set_children [MeetingPage.new_iframe (String x url)]));
    [reflexivity|].
  intros [a0 k0|t]; reflexivity.
Qed.

Lemma error_run fragment with_display s c a ks meetingUrl :
  getElementById container_id (doc s) = Some c ->
  deref (doc s) c = Some (Element a ks) ->
  Redirect.truthy meetingUrl = false ->
  MeetingPage.initializeZoomIframe fragment with_display meetingUrl s =
  (Normal tt,
   State (hidden with_display
            (update (doc s) c
               (MeetingPage.set_children
                  (fragment (MeetingPage.error_markup
                               "No meeting URL provided. Please try joining the meeting again.")))))
     (stubEnsured s)
     (console s ++ [Entry Error [VStr MeetingPage.TAG; VStr "No meeting URL provided"]])).
Proof.
  intros Hc Hd Hu. unfold MeetingPage.initializeZoomIframe.
  unfold bind at 1, query at 1. fold container_id. rewrite Hc.
  assert (forall k1 (k2 : M unit),
            match meetingUrl with
            | Some (String _ _ as url) => k1 url
            | _ => k2
            end = k2) as ->.
  { intros k1 k2. destruct meetingUrl as [[|x u]|]; try reflexivity. discriminate. }
  unfold bind at 1, MeetingPage.console_error at 1, native_console.
  unfold MeetingPage.showError. unfold bind at 1 2, query at 1. fold container_id.
  cbn [doc]. rewrite Hc. unfold MeetingPage.set_innerHTML. cbn [doc]. rewrite Hd.
  destruct (error_markup_cons
              "No meeting URL provided. Please try joining the meeting again.")
    as (x & rest & ->).
  rewrite hideLoadingSpinner_run. reflexivity.
Qed.

Lemma nowhere_run fragment with_display s meetingUrl :
  getElementById container_id (doc s) = None ->
  MeetingPage.initializeZoomIframe fragment with_display meetingUrl s =
  (Normal tt,
   State (hidden with_display (doc s)) (stubEnsured s)
     (console s ++ [Entry Error [VStr MeetingPage.TAG;
                                 VStr "Zoom meeting container not found!"]])).
Proof.
  intros Hc. unfold MeetingPage.initializeZoomIframe.
  unfold bind at 1, query at 1. fold container_id. rewrite Hc.
  unfold bind at 1, MeetingPage.console_error at 1, native_console.
  unfold MeetingPage.showError. unfold bind at 1 2, query at 1. fold container_id.
  cbn [doc]. rewrite Hc. unfold ret. rewrite hideLoadingSpinner_run. reflexivity.
Qed.

Lemma container_after with_display d c a ks ks' :
  getElementById container_id d = Some c ->
  deref d c = Some (Element a ks) ->
  let d' := hidden with_display (update d c (MeetingPage.set_children ks')) in
  getElementById container_id d' = Some c /\
  deref d' c = Some (Element (restyled with_display a) (map (pass with_display) ks')).
Proof.
  intros Hc Hd d'. subst d'. split.
  - rewrite getElementById_hidden. apply getElementById_kept; [|exact Hc].
    apply set_children_keeps.
  - destruct (getElementById_any _ _ _ Hc) as (a0 & k0 & p & -> & _).
    rewrite deref_hidden, deref_update_same, Hd.
    cbn [fmap option_fmap option_map MeetingPage.set_children]. rewrite pass_element.
    reflexivity.
Qed.

(** X11. With the container on the page and a meeting address that is
    not empty, [initializeZoomIframe] leaves in the container exactly one
    child, the iframe whose [src] is that address, whatever the container
    held before; the container is still the element found by its id,
    nothing else changes but the style of the spinners, and no error is
    printed. *)
Theorem iframe_shown (fragment : string -> list node)
  (with_display : string -> string -> string) (s : state) (c : nref) (url : string) :
  getElementById container_id (doc s) = Some c ->
  url <> "" ->
  let r := MeetingPage.initializeZoomIframe fragment with_display (Some url) s in
  exists a ks,
    deref (doc s) c = Some (Element a ks) /\
    r.1 = Normal tt /\
    doc r.2 =
      hidden with_display
        (update (doc s) c (MeetingPage.set_children [MeetingPage.new_iframe url])) /\
    deref (doc r.2) c =
      Some (Element (restyled with_display a) [MeetingPage.new_iframe url]) /\
    getElementById container_id (doc r.2) = Some c /\
    console r.2 =
      console s ++
      [Entry Log [VStr MeetingPage.TAG; VStr "Zoom iframe created successfully"]].
Proof.
  intros Hc Hu r. subst r.
  destruct (getElementById_any _ _ _ Hc) as (a & ks & p & _ & Hd & _).
  exists a, ks. rewrite (shown_run fragment with_display s c a ks url Hc Hd Hu).
  cbn [fst snd doc console].
  destruct (container_after with_display (doc s) c a ks [MeetingPage.new_iframe url] Hc Hd)
    as [H1 H2].
  split; [exact Hd|]. split; [reflexivity|]. split; [reflexivity|].
  split; [exact H2|]. split; [exact H1|reflexivity].
Qed.

Lemma iframe_shown_witness :
  exists a ks,
    deref meeting_document meeting_container = Some (Element a ks) /\
    deref (doc (MeetingPage.initializeZoomIframe as_text display_only
                  (Some "https://zoom.us/j/1") (State meeting_document false [])).2)
      meeting_container =
    Some (Element (restyled display_only a) [MeetingPage.new_iframe "https://zoom.us/j/1"]).
Proof.
  destruct (iframe_shown as_text display_only (State meeting_document false [])
              meeting_container "https://zoom.us/j/1") as (a & ks & H1 & _ & _ & H2 & _).
  - reflexivity.
  - discriminate.
  - exists a, ks. split; [exact H1|exact H2].
Defined.

(** X12. With the container on the page and no meeting address ([null]
    or the empty string), [initializeZoomIframe] creates no iframe: it
    prints one error and replaces what the container held by the error
    markup with the fixed message. *)
Theorem no_address_shows_error (fragment : string -> list node)
  (with_display : string -> string -> string) (s : state) (c : nref)
  (meetingUrl : option string) :
  getElementById container_id (doc s) = Some c ->
  Redirect.truthy meetingUrl = false ->
  let r := MeetingPage.initializeZoomIframe fragment with_display meetingUrl s in
  let shown :=
    fragment (MeetingPage.error_markup
                "No meeting URL provided. Please try joining the meeting again.") in
  exists a ks,
    deref (doc s) c = Some (Element a ks) /\
    r.1 = Normal tt /\
    doc r.2 = hidden with_display (update (doc s) c (MeetingPage.set_children shown)) /\
    deref (doc r.2) c =
      Some (Element (restyled with_display a) (map (pass with_display) shown)) /\
    console r.2 =
      console s ++ [Entry Error [VStr MeetingPage.TAG; VStr "No meeting URL provided"]].
Proof.
  intros Hc Hu r shown. subst r shown.
  destruct (getElementById_any _ _ _ Hc) as (a & ks & p & _ & Hd & _).
  exists a, ks. rewrite (error_run fragment with_display s c a ks meetingUrl Hc Hd Hu).
  cbn [fst snd doc console].
  destruct (container_after with_display (doc s) c a ks
              (fragment (MeetingPage.error_markup
                 "No meeting URL provided. Please try joining the meeting again.")) Hc Hd)
    as [H1 H2].
  split; [exact Hd|]. split; [reflexivity|]. split; [reflexivity|].
  split; [exact H2|reflexivity].
Qed.

Lemma no_address_shows_error_witness :
  console (MeetingPage.initializeZoomIframe as_text display_only (Some "")
             (State meeting_document false [])).2 =
  [Entry Error [VStr MeetingPage.TAG; VStr "No meeting URL provided"]].
Proof.
  destruct (no_address_shows_error as_text display_only (State meeting_document false [])
              meeting_container (Some "")) as (a & ks & _ & _ & _ & _ & H).
  - reflexivity.
  - reflexivity.
  - exact H.
Defined.

(** X13. Without the container, [initializeZoomIframe] prints one error
    and shows nothing: [showError] looks for the same container and does
    not find it, so the document only has its spinners hidden, and the
    container is still missing afterwards, whatever the meeting address.
    The error goes to the native [console.error] also through the guard's
    override. *)
Theorem no_container_shows_nothing (fragment : string -> list node)
  (with_display : string -> string -> string) (s : state) (meetingUrl : option string) :
  getElementById container_id (doc s) = None ->
  let r := MeetingPage.initializeZoomIframe fragment with_display meetingUrl s in
  r.1 = Normal tt /\
  doc r.2 = hidden with_display (doc s) /\
  getElementById container_id (doc r.2) = None /\
  console r.2 =
    console s ++
    [Entry Error [VStr MeetingPage.TAG; VStr "Zoom meeting container not found!"]] /\
  Guard.console_error [VStr MeetingPage.TAG; VStr "Zoom meeting container not found!"]
    (console s) =
    (Normal tt,
     console s ++
     [Entry Error [VStr MeetingPage.TAG; VStr "Zoom meeting container not found!"]]).
Proof.
  intros Hc r. subst r. rewrite (nowhere_run fragment with_display s meetingUrl Hc).
  cbn [fst snd doc console]. split; [reflexivity|]. split; [reflexivity|].
  split; [|split; reflexivity]. rewrite getElementById_hidden. exact Hc.
Qed.

Lemma no_container_shows_nothing_witness :
  doc (MeetingPage.initializeZoomIframe as_text display_only (Some "https://zoom.us/j/1")
         (State bare_document false [])).2 =
  hidden display_only bare_document.
Proof.
  apply (no_container_shows_nothing as_text display_only (State bare_document false [])
           (Some "https://zoom.us/j/1")).
  reflexivity.
Defined.

(** X14. [hideLoadingSpinner] never fails and changes nothing but the
    inline style of the elements of class [spinner] or [loading-spinner]
    or with a [data-loading] attribute: every node of the document stays
    at its place with its tag, id, classes, attributes and text, and
    every element is found by its id as before. *)
Theorem hideLoadingSpinner_only_styles (with_display : string -> string -> string)
  (s : state) :
  let r := MeetingPage.hideLoadingSpinner with_display s in
  r.1 = Normal tt /\
  stubEnsured r.2 = stubEnsured s /\ console r.2 = console s /\
  detached (doc r.2) = detached (doc s) /\
  (forall p,
     deref (doc r.2) (NRef InDocument p) =
     match deref (doc s) (NRef InDocument p) with
     | Some (Element a ks) =>
         Some (Element
                 (Attrs (tagName a) (id a) (classList a)
                    (if is_spinner a then with_display "none" (cssText a) else cssText a)
                    (attributes a) (href a))
                 (map (pass with_display) ks))
     | Some (Text t) => Some (Text t)
     | None => None
     end) /\
  (forall x, getElementById x (doc r.2) = getElementById x (doc s)).
Proof.
  intros r. subst r. rewrite hideLoadingSpinner_run. cbn [fst snd set_doc doc stubEnsured console].
  split; [reflexivity|]. split; [reflexivity|]. split; [reflexivity|].
  split; [reflexivity|]. split.
  - intros p. rewrite deref_hidden.
    destruct (deref (doc s) (NRef InDocument p)) as [[a ks|t]|]; try reflexivity.
    cbn [fmap option_fmap option_map]. rewrite pass_element. unfold restyled.
    destruct (is_spinner a); [reflexivity|]. destruct a; reflexivity.
  - intros x. apply getElementById_hidden.
Qed.

End MeetingFacts.

(** * More on the redirect *)

Module RedirectMore.
Import Redirect RedirectSpec RedirectFacts JoinSpec.

#[local] Arguments String.eqb : simpl never.

Lemma not_blank_accepted url :
  blank url = false -> negb (truthy (Some url)) || blank url = false.
Proof. intros H. rewrite H. destruct url; [discriminate|reflexivity]. Qed.

Lemma handle_navigates new_URL w url sid :
  blank url = false ->
  new_URL "/meeting" (location_origin w) =
    Js.Normal (MkURL (location_origin w) "/meeting" []) ->
  handleJoinSession new_URL (Some url) sid w =
  let address := URL_toString (MkURL (location_origin w) "/meeting" (written url sid)) in
  (Js.Normal tt,
   Window (location_origin w) address
     (console w ++ entry_lines (Some url) sid ++
      [Js.Entry Js.Log [Js.VStr TAG; Js.VStr "Redirecting to:"; Js.VStr address]])
     (alerts w)).
Proof.
  intros Hb Hu.
  rewrite (handle_accepts new_URL w url sid _ (not_blank_accepted url Hb) Hu).
  cbn [url_origin pathname searchParams].
  change (set "meetingUrl" url []) with [("meetingUrl", url)].
  unfold written, entry_lines.
  destruct sid as [x|]; [destruct (truthy (Some x)) eqn:Et|]; reflexivity.
Qed.

Lemma handle_throws new_URL w url sid e :
  blank url = false ->
  new_URL "/meeting" (location_origin w) = Js.Throw e ->
  handleJoinSession new_URL (Some url) sid w =
  (Js.Throw e,
   Window (location_origin w) (location_href w)
     (console w ++ entry_lines (Some url) sid) (alerts w)).
Proof.
  intros Hb Hu. apply (handle_refused new_URL w url sid e (not_blank_accepted url Hb) Hu).
Qed.

Lemma search_of_query base ps :
  origin_like base = true ->
  URLSearchParams (location_search (base +:+ String "?" (serialize ps))) = ps.
Proof.
  unfold origin_like. rewrite andb_true_iff. intros [Hq Hh].
  unfold location_search. rewrite until_hash_plain.
  - rewrite query_of_app by exact Hq.
    destruct ps as [|p ps]; [reflexivity|].
    rewrite escape_query_plain by apply serialize_unescaped.
    destruct (serialize_nonempty p ps) as (x & r & E).
    rewrite E. unfold URLSearchParams. rewrite Ascii.eqb_refl. rewrite <- E.
    apply parse_serialize.
  - rewrite all_chars_app, Hh. cbn [all_chars andb].
    rewrite (serialize_not "#") by tauto. reflexivity.
Qed.

Lemma no_query s : all_chars (is_not "?") s = true -> query_of s = None.
Proof.
  induction s as [|c s IH]; [reflexivity|]. cbn [all_chars query_of].
  unfold is_not at 1. rewrite andb_true_iff, negb_true_iff. intros [-> Hs]. apply IH, Hs.
Qed.

Lemma until_hash_keeps P s : all_chars P s = true -> all_chars P (until_hash s) = true.
Proof.
  induction s as [|c s IH]; [reflexivity|]. cbn [all_chars until_hash].
  rewrite andb_true_iff. intros [Hc Hs]. destruct (Ascii.eqb c "#"); [reflexivity|].
  cbn [all_chars]. rewrite Hc. apply IH, Hs.
Qed.

Lemma search_without_query address :
  all_chars (is_not "?") address = true -> location_search address = "".
Proof.
  intros H. unfold location_search. rewrite no_query; [reflexivity|].
  apply until_hash_keeps, H.
Qed.

(** X15. Without a meeting address, or with one that is empty or holds
    only white space, [handleJoinSession] does not navigate: it returns
    before it builds any URL, the page address stays, one error is printed
    after the three opening lines and one alert is shown. *)
Theorem blank_address_rejected (new_URL : string -> string -> Js.completion URL)
  (w : window) (url sid : option string) :
  match url with Some u => blank u = true | None => True end ->
  let r := handleJoinSession new_URL url sid w in
  r.1 = Js.Normal tt /\
  location_href r.2 = location_href w /\
  location_origin r.2 = location_origin w /\
  alerts r.2 = alerts w ++ [no_address] /\
  console r.2 =
    console w ++ entry_lines url sid ++
    [Js.Entry Js.Error [Js.VStr TAG; Js.VStr "No meeting URL provided"]].
Proof.
  intros Hu r. subst r. unfold handleJoinSession.
  destruct url as [u|].
  - rewrite Hu, orb_true_r.
    cbn [fst snd log location_origin location_href console alerts].
    unfold entry_lines. rewrite <- !app_assoc. repeat split; reflexivity.
  - cbn [fst snd log location_origin location_href console alerts].
    unfold entry_lines. rewrite <- !app_assoc. repeat split; reflexivity.
Qed.

Lemma blank_address_rejected_witness :
  location_href (handleJoinSession example_URL (Some "  ") (Some "s1") example_window).2 =
  location_href example_window.
Proof.
  apply (blank_address_rejected example_URL example_window (Some "  ") (Some "s1")).
  reflexivity.
Defined.

(** X16. Every meeting address that is not blank is passed on as it
    is, whatever it holds (the handler tests no domain and trims
    nothing).  On a page whose origin the URL constructor takes as a base,
    the page goes to the origin followed by [/meeting?meetingUrl=] and the
    encoded address, then [&sessionId=] and the encoded identifier when
    one that is not empty was given; no alert is shown, and the meeting
    page reads both back unchanged (they are well-formed strings, and the
    origin has no [?] and [#]).  When the URL constructor throws, as it
    does for the origin [null] of a page with an opaque origin, the
    handler is left by that exception after its three opening lines: the
    page address stays and no alert is shown. *)
Theorem any_address_forwarded (new_URL : string -> string -> Js.completion URL)
  (w : window) (url : string) (sid : option string) :
  blank url = false ->
  let r := handleJoinSession new_URL (Some url) sid w in
  (new_URL "/meeting" (location_origin w) =
     Js.Normal (MkURL (location_origin w) "/meeting" []) ->
   r.1 = Js.Normal tt /\
   location_href r.2 =
     location_origin w +:+ "/meeting?meetingUrl=" +:+ encode url +:+
     match sid with
     | Some x => if truthy sid then "&sessionId=" +:+ encode x else ""
     | None => ""
     end /\
   alerts r.2 = alerts w /\
   (well_formed url = true -> well_formed_option sid = true ->
    origin_like (location_origin w) = true ->
    meetingUrl (location_href r.2) = Some url /\
    sessionId (location_href r.2) = (if truthy sid then sid else None))) /\
  (forall e,
     new_URL "/meeting" (location_origin w) = Js.Throw e ->
     r.1 = Js.Throw e /\
     location_href r.2 = location_href w /\
     alerts r.2 = alerts w /\
     console r.2 = console w ++ entry_lines (Some url) sid).
Proof.
  intros Hb r. subst r. split.
  - intros Hu. rewrite (handle_navigates new_URL w url sid Hb Hu).
    cbn [fst snd location_href alerts]. split; [reflexivity|].
    split; [|split; [reflexivity|]].
    + unfold URL_toString, written. cbn [url_origin pathname searchParams].
      destruct sid as [x|]; [destruct (truthy (Some x))|];
        cbn [serialize]; rewrite ?append_assoc, ?append_cons, ?append_nil_l, ?append_nil_r;
        reflexivity.
    + intros _ _ Ho. unfold meetingUrl, sessionId, written.
      rewrite (search_of_address _ _ _ Ho).
      destruct sid as [x|]; [destruct (truthy (Some x)) eqn:Et|]; split; reflexivity.
  - intros e Hu. rewrite (handle_throws new_URL w url sid e Hb Hu).
    cbn [fst snd location_href alerts console]. repeat split; reflexivity.
Qed.

Lemma any_address_forwarded_witness :
  meetingUrl (location_href
                (handleJoinSession example_URL (Some " javascript:void(0) #x") None
                   example_window).2) =
  Some " javascript:void(0) #x" /\
  (handleJoinSession example_URL (Some "https://zoom.us/j/1") None
     (Window "null" "about:srcdoc" [] [])).1 =
  Js.Throw (Js.VError "TypeError" "Invalid URL").
Proof.
  split.
  - apply (any_address_forwarded example_URL example_window " javascript:void(0) #x" None);
      reflexivity.
  - apply (any_address_forwarded example_URL (Window "null" "about:srcdoc" [] [])
             "https://zoom.us/j/1" None); reflexivity.
Defined.

End RedirectMore.

(** * The join-session button *)

Module JoinFacts.
Import Dom Js Guard Spec DomFacts GuardFacts.
Import Redirect RedirectSpec RedirectFacts JoinSpec RedirectMore JoinSession.

#[local] Arguments String.eqb : simpl never.

(** ** The caregiver identifier *)

(** X17. [getCaregiverIdFromUrl] on a page whose query was written by
    [URLSearchParams] from the pairs [ps] answers the first value of
    [caregiver_id] when it is not empty, else the first value of
    [caregiverId] when it is not empty, else the first value of [id] as it
    is, empty or missing; every value comes back as it was written,
    whatever bytes it holds.  On an address without a query it answers
    [null]. *)
Theorem caregiver_id_from_query (w : window) (base : string)
  (ps : list (string * string)) :
  (origin_like base = true ->
   location_href w = base +:+ String "?" (serialize ps) ->
   getCaregiverIdFromUrl w =
     if truthy (get "caregiver_id" ps) then get "caregiver_id" ps
     else if truthy (get "caregiverId" ps) then get "caregiverId" ps
     else get "id" ps) /\
  (all_chars (is_not "?") (location_href w) = true -> getCaregiverIdFromUrl w = None).
Proof.
  split.
  - intros Hb Hw. unfold getCaregiverIdFromUrl. rewrite Hw, (search_of_query base ps Hb).
    unfold or_else.
    destruct (truthy (get "caregiver_id" ps)) eqn:E1; cbv iota; [rewrite E1; reflexivity|].
    destruct (truthy (get "caregiverId" ps)) eqn:E2; reflexivity.
  - intros Hq. unfold getCaregiverIdFromUrl. rewrite (search_without_query _ Hq).
    reflexivity.
Qed.

Lemma caregiver_id_from_query_witness :
  getCaregiverIdFromUrl
    (Window "https://app.example.com"
       ("https://app.example.com/caregiver" +:+
        String "?" (serialize [("caregiver_id", ""); ("id", "a&b=c d")])) [] []) =
  Some "a&b=c d".
Proof.
  apply (caregiver_id_from_query
           (Window "https://app.example.com"
              ("https://app.example.com/caregiver" +:+
               String "?" (serialize [("caregiver_id", ""); ("id", "a&b=c d")])) [] [])
           "https://app.example.com/caregiver"
           [("caregiver_id", ""); ("id", "a&b=c d")]); reflexivity.
Defined.

(** ** Where the meeting address comes from *)

Lemma parse_data_selector :
  Css.parse "[data-zoom-url]" = Some [Css.Complex [Css.SAttr "data-zoom-url"] []].
Proof. reflexivity. Qed.

Lemma parse_hidden_input :
  Css.parse hidden_input_selector =
  Some [Css.Complex [Css.STag "input"; Css.SAttrEq "name" "zoom_meeting_url"] [];
        Css.Complex [Css.STag "input"; Css.SAttrEq "name" "meetingUrl"] []].
Proof. reflexivity. Qed.

Lemma data_element d e :
  document_querySelector "[data-zoom-url]" d = Normal (Some e) ->
  exists a ks v,
    deref d e = Some (Element a ks) /\ Css.assoc "data-zoom-url" (attributes a) = Some v.
Proof.
  unfold document_querySelector. rewrite parse_data_selector.
  rewrite (first_in_ext _ (fun _ => has_data) [] []).
  - destruct (first_in (first_match (fun _ => has_data) []) (document d) 0) as [q|] eqn:E;
      [|discriminate].
    intros [= <-]. apply (find_get has_data) in E as (a & ks & Hg & Ha).
    unfold has_data in Ha.
    destruct (Css.assoc "data-zoom-url" (attributes a)) as [v|] eqn:Ev; [|discriminate].
    exists a, ks, v. split; [exact Hg|exact Ev].
  - intros x y a. unfold Css.matches_selector, Css.matches_complex, Css.matches_compound,
      has_data.
    cbn [existsb forallb Css.subject Css.context Css.matches_context Css.matches_simple].
    rewrite !andb_true_r, orb_false_r. reflexivity.
Qed.

Lemma first_source value_of p e :
  document_querySelector "[data-zoom-url]" (tree p) = Normal (Some e) ->
  exists a ks v,
    deref (tree p) e = Some (Element a ks) /\
    Css.assoc "data-zoom-url" (attributes a) = Some v /\
    getZoomMeetingUrl value_of p = (Normal (Some v), p).
Proof.
  intros He. destruct (data_element _ _ He) as (a & ks & v & Hd & Hv).
  exists a, ks, v. split; [exact Hd|]. split; [exact Hv|].
  unfold getZoomMeetingUrl. rewrite He. unfold property. rewrite Hd.
  cbn [getAttribute]. rewrite Hv. reflexivity.
Qed.

(** X18. [getZoomMeetingUrl] never throws and changes neither the
    document nor the page address.  The first element with a
    [data-zoom-url] attribute decides: its value is the answer, also when
    it is empty, whatever inputs, Softr data and links the page has.  With
    no such element, no such input, no Softr address and no link to
    [zoom.us], the answer is [null] and one warning is printed.  The
    guard's patched [querySelector] answers the two selector texts as the
    native one does. *)
Theorem meeting_address_sources (value_of : nref -> string) (p : page) :
  (exists v p',
     getZoomMeetingUrl value_of p = (Normal v, p') /\ tree p' = tree p /\
     softr_zoomMeetingUrl p' = softr_zoomMeetingUrl p /\
     location_href (win p') = location_href (win p) /\
     alerts (win p') = alerts (win p)) /\
  (forall e,
     document_querySelector "[data-zoom-url]" (tree p) = Normal (Some e) ->
     exists a ks v,
       deref (tree p) e = Some (Element a ks) /\
       Css.assoc "data-zoom-url" (attributes a) = Some v /\
       getZoomMeetingUrl value_of p = (Normal (Some v), p)) /\
  (document_querySelector "[data-zoom-url]" (tree p) = Normal None ->
   document_querySelector hidden_input_selector (tree p) = Normal None ->
   truthy (softr_zoomMeetingUrl p) = false ->
   query_zoom_link (tree p) = None ->
   getZoomMeetingUrl value_of p =
   (Normal None,
    with_win p
      (log Warn [VStr JoinSession.TAG; VStr "Could not find Zoom meeting URL on page"]
         (win p)))) /\
  (forall s text,
     text = "[data-zoom-url]" \/ text = hidden_input_selector ->
     patched_querySelector text s = (document_querySelector text (doc s), s)).
Proof.
  split; [|split; [|split]].
  - unfold getZoomMeetingUrl.
    destruct (document_querySelector "[data-zoom-url]" (tree p)) as [[e|]|err] eqn:E1.
    + eexists _, p. repeat split; reflexivity.
    + destruct (document_querySelector hidden_input_selector (tree p)) as [[i|]|err] eqn:E2.
      * eexists _, p. repeat split; reflexivity.
      * destruct (truthy (softr_zoomMeetingUrl p)); [eexists _, p; repeat split; reflexivity|].
        destruct (query_zoom_link (tree p)); eexists _, _; repeat split; reflexivity.
      * unfold document_querySelector in E2. rewrite parse_hidden_input in E2. discriminate.
    + unfold document_querySelector in E1. rewrite parse_data_selector in E1. discriminate.
  - intros e He. apply first_source, He.
  - intros H1 H2 H3 H4. unfold getZoomMeetingUrl. rewrite H1, H2, H3, H4. reflexivity.
  - intros s text [-> | ->]; unfold patched_querySelector, patched, bind, query.
    + destruct (document_querySelector "[data-zoom-url]" (doc s)) as [[e|]|err];
        reflexivity.
    + destruct (document_querySelector hidden_input_selector (doc s)) as [[e|]|err];
        reflexivity.
Qed.

Lemma meeting_address_sources_witness :
  exists a ks v,
    deref (caregiver_document "") (NRef InDocument [0; 0; 0]) = Some (Element a ks) /\
    Css.assoc "data-zoom-url" (attributes a) = Some v /\
    getZoomMeetingUrl (fun _ => "") (caregiver_page "") = (Normal (Some v), caregiver_page "").
Proof.
  apply (meeting_address_sources (fun _ => "") (caregiver_page "")). reflexivity.
Defined.

(** ** The click listener *)

(** X19. A click on a button of a page whose first [data-zoom-url]
    element holds a meeting address that is not blank: the listener stops
    the event and shows no alert.  When the URL constructor takes the
    origin of the page as a base, it sends the page to the meeting page,
    which reads back that address and, as session identifier, the
    button's [data-session-id] when it is not empty, else the caregiver
    identifier of the page address when that is not empty, else none
    (both well-formed strings, the origin without [?] and [#]).  When the
    URL constructor throws, as on a page with an opaque origin, the
    exception leaves the listener and the page stays where it is. *)
Theorem click_redirects (new_URL : string -> string -> completion URL)
  (value_of : nref -> string) (button : nref) (p : page) (e : nref) (url : string) :
  document_querySelector "[data-zoom-url]" (tree p) = Normal (Some e) ->
  property (getAttribute "data-zoom-url") e (tree p) = Some url ->
  blank url = false ->
  let sid :=
    or_else (property (getAttribute "data-session-id") button (tree p))
      (getCaregiverIdFromUrl (win p)) in
  let r := on_click new_URL value_of button p in
  (new_URL "/meeting" (location_origin (win p)) =
     Normal (MkURL (location_origin (win p)) "/meeting" []) ->
   r.1 = (Click true true, Normal tt) /\
   tree r.2 = tree p /\
   alerts (win r.2) = alerts (win p) /\
   (well_formed url = true -> well_formed_option sid = true ->
    origin_like (location_origin (win p)) = true ->
    meetingUrl (location_href (win r.2)) = Some url /\
    sessionId (location_href (win r.2)) = (if truthy sid then sid else None))) /\
  (forall err,
     new_URL "/meeting" (location_origin (win p)) = Throw err ->
     r.1 = (Click true true, Throw err) /\
     tree r.2 = tree p /\
     location_href (win r.2) = location_href (win p) /\
     alerts (win r.2) = alerts (win p)).
Proof.
  intros He Hv Hb sid r. subst r.
  assert (getZoomMeetingUrl value_of p = (Normal (Some url), p)) as Hg.
  { destruct (first_source value_of p e He)
      as (a & ks & v & Hd & Ha & Hrun).
    unfold property in Hv. rewrite Hd in Hv. cbn [getAttribute] in Hv.
    rewrite Hrun. congruence. }
  unfold on_click. rewrite Hg.
  assert (truthy (Some url) = true) as -> by (destruct url; [discriminate|reflexivity]).
  cbn [negb]. fold sid. split.
  - intros Hu. rewrite (handle_navigates new_URL (win p) url sid Hb Hu).
    cbn [fst snd with_win win tree location_href alerts].
    split; [reflexivity|]. split; [reflexivity|]. split; [reflexivity|].
    intros _ _ Ho. unfold meetingUrl, sessionId, written.
    rewrite (search_of_address _ _ _ Ho).
    destruct sid as [x|]; [destruct (truthy (Some x)) eqn:Et|]; split; reflexivity.
  - intros err Hu. rewrite (handle_throws new_URL (win p) url sid err Hb Hu).
    cbn [fst snd with_win win tree location_href alerts]. repeat split; reflexivity.
Qed.

Lemma click_redirects_witness :
  meetingUrl
    (location_href
       (win (on_click example_URL (fun _ => "") the_button
               (caregiver_page "https://zoom.us/j/5?pwd=x y")).2)) =
  Some "https://zoom.us/j/5?pwd=x y" /\
  sessionId
    (location_href
       (win (on_click example_URL (fun _ => "") the_button
               (caregiver_page "https://zoom.us/j/5?pwd=x y")).2)) =
  Some "s-42".
Proof.
  destruct (click_redirects example_URL (fun _ => "") the_button
              (caregiver_page "https://zoom.us/j/5?pwd=x y")
              (NRef InDocument [0; 0; 0]) "https://zoom.us/j/5?pwd=x y")
    as ((_ & _ & _ & H) & _); try reflexivity.
  destruct H as [H1 H2]; try reflexivity.
  split; [exact H1|exact H2].
Defined.

(** X20. When [getZoomMeetingUrl] answers nothing or the empty string,
    the click listener stops the event, shows the alert and does not
    navigate.  That is the case whenever the first [data-zoom-url]
    element has an empty value, also on a page that holds a link to
    [zoom.us] or a Softr address. *)
Theorem click_without_address (new_URL : string -> string -> completion URL)
  (value_of : nref -> string) (button : nref) (p : page) :
  (forall v p',
     getZoomMeetingUrl value_of p = (Normal v, p') -> truthy v = false ->
     on_click new_URL value_of button p =
     (Click true true, Normal tt, with_win p' (alert not_found (win p')))) /\
  (forall e,
     document_querySelector "[data-zoom-url]" (tree p) = Normal (Some e) ->
     property (getAttribute "data-zoom-url") e (tree p) = Some "" ->
     on_click new_URL value_of button p =
     (Click true true, Normal tt, with_win p (alert not_found (win p))) /\
     location_href (win (on_click new_URL value_of button p).2) = location_href (win p)).
Proof.
  assert (forall v p',
            getZoomMeetingUrl value_of p = (Normal v, p') -> truthy v = false ->
            on_click new_URL value_of button p =
            (Click true true, Normal tt, with_win p' (alert not_found (win p')))) as H.
  { intros v p' Hg Hv. unfold on_click. rewrite Hg, Hv. reflexivity. }
  split; [exact H|]. intros e He Hv.
  destruct (first_source value_of p e He) as (a & ks & v & Hd & Ha & Hrun).
  unfold property in Hv. rewrite Hd in Hv. cbn [getAttribute] in Hv.
  assert (v = "") as -> by congruence.
  rewrite (H (Some "") p Hrun eq_refl). split; reflexivity.
Qed.

Lemma click_without_address_witness :
  location_href (win (on_click example_URL (fun _ => "") the_button (caregiver_page "")).2) =
  location_href (win (caregiver_page "")).
Proof.
  apply (click_without_address example_URL (fun _ => "") the_button (caregiver_page "")
           ) with (e := NRef InDocument [0; 0; 0]); reflexivity.
Defined.

End JoinFacts.

(** * The meeting page script *)

Module MeetingScript.
Import Dom Js Guard Spec DomFacts GuardFacts MeetingSpec MeetingFacts.
Import RedirectSpec RedirectFacts JoinSpec RedirectMore.

#[local] Arguments String.eqb : simpl never.

Lemma shows fragment with_display s c url :
  getElementById container_id (doc s) = Some c -> url <> "" ->
  showing c url (MeetingPage.initializeZoomIframe fragment with_display (Some url) s).2.
Proof.
  intros Hc Hu.
  destruct (getElementById_any _ _ _ Hc) as (a & ks & p & _ & Hd & _).
  rewrite (shown_run fragment with_display s c a ks url Hc Hd Hu). cbn [snd].
  destruct (container_after with_display (doc s) c a ks [MeetingPage.new_iframe url] Hc Hd)
    as [H1 H2].
  split; [exact H1|]. eexists. exact H2.
Qed.

Lemma script_eq fragment with_display p :
  MeetingPage.script fragment with_display p =
  let meetingUrl := Redirect.get "meetingUrl" (Redirect.URLSearchParams (MeetingPage.search p)) in
  let sessionId := Redirect.get "sessionId" (Redirect.URLSearchParams (MeetingPage.search p)) in
  let s3 := opening meetingUrl sessionId (MeetingPage.st p) in
  MeetingPage.Page
    (match MeetingPage.readyState p with
     | Loading => s3
     | _ => (MeetingPage.initializeZoomIframe fragment with_display meetingUrl s3).2
     end)
    (MeetingPage.readyState p) (MeetingPage.search p)
    (match MeetingPage.readyState p with
     | Loading => MeetingPage.listeners p ++ [meetingUrl]
     | _ => MeetingPage.listeners p
     end)
    (Some (MeetingPage.Debug "1.0" meetingUrl sessionId)).
Proof.
  unfold MeetingPage.script, MeetingPage.init, MeetingPage.run, opening.
  cbn [MeetingPage.st MeetingPage.readyState MeetingPage.search MeetingPage.listeners
       MeetingPage.MeetingPageDebug].
  destruct (MeetingPage.readyState p); reflexivity.
Qed.

Lemma reinitialize_step fragment with_display c url sid q :
  url <> "" ->
  showing c url (MeetingPage.st q) ->
  MeetingPage.MeetingPageDebug q = Some (MeetingPage.Debug "1.0" (Some url) sid) ->
  showing c url (MeetingPage.st (MeetingPage.reinitialize fragment with_display q)) /\
  MeetingPage.MeetingPageDebug (MeetingPage.reinitialize fragment with_display q) =
  Some (MeetingPage.Debug "1.0" (Some url) sid).
Proof.
  intros Hu Hs Hd. unfold MeetingPage.reinitialize. rewrite Hd.
  cbn [MeetingPage.debug_meetingUrl MeetingPage.run MeetingPage.st
       MeetingPage.MeetingPageDebug].
  split; [|exact Hd]. apply shows; [apply Hs|exact Hu].
Qed.

Lemma reinitialize_shows fragment with_display c url sid n q :
  url <> "" ->
  showing c url (MeetingPage.st q) ->
  MeetingPage.MeetingPageDebug q = Some (MeetingPage.Debug "1.0" (Some url) sid) ->
  showing c url
    (MeetingPage.st (Nat.iter n (MeetingPage.reinitialize fragment with_display) q)).
Proof.
  intros Hu Hs Hd.
  assert (showing c url
            (MeetingPage.st (Nat.iter n (MeetingPage.reinitialize fragment with_display) q)) /\
          MeetingPage.MeetingPageDebug
            (Nat.iter n (MeetingPage.reinitialize fragment with_display) q) =
          Some (MeetingPage.Debug "1.0" (Some url) sid)) as [H _]; [|exact H].
  induction n as [|n [IH1 IH2]]; [split; assumption|].
  cbn [Nat.iter]. apply reinitialize_step; assumption.
Qed.

(** X21. The script of the meeting page, on a page that has the
    container and whose query gives a meeting address that is not empty,
    shows the iframe of exactly that address: at once when the document
    is past loading; on a loading document it changes nothing and shows it
    when [DOMContentLoaded] fires.  After that the container holds this
    one iframe and nothing else, however often [reinitialize] is called.
    [window.MeetingPageDebug] holds the two values read from the query. *)
Theorem script_shows_meeting (fragment : string -> list node)
  (with_display : string -> string -> string) (p : MeetingPage.page) (c : nref)
  (url : string) (n : nat) :
  getElementById container_id (doc (MeetingPage.st p)) = Some c ->
  Redirect.get "meetingUrl" (Redirect.URLSearchParams (MeetingPage.search p)) = Some url ->
  url <> "" ->
  MeetingPage.listeners p = [] ->
  let p1 := MeetingPage.script fragment with_display p in
  let p2 := match MeetingPage.readyState p with
            | Loading => MeetingPage.fire_DOMContentLoaded fragment with_display p1
            | _ => p1
            end in
  (MeetingPage.readyState p = Loading ->
   doc (MeetingPage.st p1) = doc (MeetingPage.st p)) /\
  showing c url
    (MeetingPage.st (Nat.iter n (MeetingPage.reinitialize fragment with_display) p2)) /\
  MeetingPage.MeetingPageDebug p1 =
    Some (MeetingPage.Debug "1.0" (Some url)
            (Redirect.get "sessionId" (Redirect.URLSearchParams (MeetingPage.search p)))).
Proof.
  intros Hc Hm Hu Hl p1 p2. subst p2 p1. rewrite script_eq, Hm, Hl. cbv zeta.
  set (sid := Redirect.get "sessionId" _).
  set (s3 := opening (Some url) sid (MeetingPage.st p)).
  assert (getElementById container_id (doc s3) = Some c) as Hc3 by exact Hc.
  split; [|split].
  - intros ->. reflexivity.
  - apply (reinitialize_shows fragment with_display c url sid n); [exact Hu| |].
    + destruct (MeetingPage.readyState p);
        [unfold MeetingPage.fire_DOMContentLoaded;
         cbn [MeetingPage.st MeetingPage.listeners MeetingPage.search
              MeetingPage.MeetingPageDebug app foldl MeetingPage.run]| |];
        apply shows; assumption.
    + destruct (MeetingPage.readyState p); reflexivity.
  - reflexivity.
Qed.

Lemma script_shows_meeting_witness :
  showing meeting_container "https://zoom.us/j/1"
    (MeetingPage.st
       (Nat.iter 2 (MeetingPage.reinitialize as_text display_only)
          (MeetingPage.fire_DOMContentLoaded as_text display_only
             (MeetingPage.script as_text display_only meeting_page)))).
Proof.
  apply (script_shows_meeting as_text display_only meeting_page meeting_container
           "https://zoom.us/j/1" 2).
  - reflexivity.
  - reflexivity.
  - discriminate.
  - reflexivity.
Defined.

(** X22. From the button to the meeting: when [handleJoinSession], on a
    page whose origin the URL constructor takes as a base (an origin
    without [?] and [#]), is given a well-formed meeting address that is
    not blank, it navigates; and when the meeting page that opens at that
    address has the container and is past loading, the script of the
    meeting page puts into the container the iframe whose [src] is that
    meeting address, byte for byte, and [window.MeetingPageDebug] holds
    the address and the session identifier that was passed. *)
Theorem joined_meeting_shown (fragment : string -> list node)
  (with_display : string -> string -> string)
  (new_URL : string -> string -> completion Redirect.URL) (w : Redirect.window)
  (url : string) (sid : option string) (p : MeetingPage.page) (c : nref) :
  well_formed url = true ->
  well_formed_option sid = true ->
  Redirect.blank url = false ->
  new_URL "/meeting" (Redirect.location_origin w) =
    Normal (Redirect.MkURL (Redirect.location_origin w) "/meeting" []) ->
  origin_like (Redirect.location_origin w) = true ->
  MeetingPage.search p =
    Redirect.location_search
      (Redirect.location_href (Redirect.handleJoinSession new_URL (Some url) sid w).2) ->
  MeetingPage.readyState p <> Loading ->
  getElementById container_id (doc (MeetingPage.st p)) = Some c ->
  let p1 := MeetingPage.script fragment with_display p in
  (Redirect.handleJoinSession new_URL (Some url) sid w).1 = Normal tt /\
  showing c url (MeetingPage.st p1) /\
  MeetingPage.MeetingPageDebug p1 =
    Some (MeetingPage.Debug "1.0" (Some url) (if Redirect.truthy sid then sid else None)).
Proof.
  intros _ _ Hb Hn Ho Hs Hr Hc p1. subst p1.
  rewrite (handle_navigates new_URL w url sid Hb Hn) in Hs |- *.
  cbn [fst snd Redirect.location_href] in Hs |- *. split; [reflexivity|].
  assert (Redirect.URLSearchParams (MeetingPage.search p) = written url sid) as Hq.
  { rewrite Hs. unfold written. apply (search_of_address _ _ _ Ho). }
  assert (url <> "") as Hu by (intros ->; discriminate).
  rewrite script_eq, Hq. cbv zeta.
  assert (Redirect.get "meetingUrl" (written url sid) = Some url) as -> by reflexivity.
  assert (Redirect.get "sessionId" (written url sid) =
          if Redirect.truthy sid then sid else None) as ->.
  { unfold written. destruct sid as [x|]; [destruct (Redirect.truthy (Some x)) eqn:E|];
      reflexivity. }
  cbn [MeetingPage.st MeetingPage.MeetingPageDebug]. split; [|reflexivity].
  destruct (MeetingPage.readyState p); [congruence| |]; apply shows; assumption.
Qed.

Lemma joined_meeting_shown_witness :
  showing meeting_container "https://zoom.us/j/1?pwd=a b"
    (MeetingPage.st
       (MeetingPage.script as_text display_only
          (MeetingPage.Page (State meeting_document false []) Complete
             (Redirect.location_search
                (Redirect.location_href
                   (Redirect.handleJoinSession example_URL
                      (Some "https://zoom.us/j/1?pwd=a b") (Some "s-42") example_window).2))
             [] None))).
Proof.
  apply (joined_meeting_shown as_text display_only example_URL example_window
           "https://zoom.us/j/1?pwd=a b" (Some "s-42")
           (MeetingPage.Page (State meeting_document false []) Complete
              (Redirect.location_search
                 (Redirect.location_href
                    (Redirect.handleJoinSession example_URL
                       (Some "https://zoom.us/j/1?pwd=a b") (Some "s-42")
                       example_window).2))
              [] None) meeting_container).
  - reflexivity.
  - reflexivity.
  - reflexivity.
  - reflexivity.
  - reflexivity.
  - reflexivity.
  - discriminate.
  - reflexivity.
Defined.

End MeetingScript.
